(** * go-drive: the versioned migrator and the access-control layer

    A shallow embedding of [internal/database] (connection, migrator,
    orchestrator) and [internal/postgres] (row-level-security manager), and
    the properties of their failure handling, ordering and idempotence.

    The Go code talks to PostgreSQL through [database/sql].  The database is
    not part of the repository, so it is modelled here as a small state
    machine ([Store], [exec_stmt]) driven through a [World] that records
    every driver call in a log and injects driver failures from a list of
    pending faults.  The Go functions are translated one to one on top of
    the driver primitives.

    What the model of the database takes for granted:
    - one client: no other session changes the database during a run;
    - a statement is a constructor of [Stmt] that stands for the SQL text
      the source builds; the values spliced into the text (table and role
      names, passwords) do not change the structure of the statement; a
      role name spliced in as an unquoted identifier is folded to lower
      case, as the parser does;
    - a migration body is opaque: when it goes through it is appended to
      the history [schema], and it writes neither the ledger nor a role;
    - a statement that fails changes nothing; inside a transaction the
      statements work on a private copy of the store, which [Commit]
      installs and [Rollback] drops;
    - the ledger's version column is ordered bytewise (the C collation),
      which is the order of Go's [<] on strings;
    - [grants] holds the privileges granted, each under the text of its
      GRANT; privilege lists and ALL are not taken apart;
    - any driver call may fail (a pending fault: a lost connection, or any
      refusal of the database that the store does not model, such as a
      table or a role that is missing); besides, the engine
      refuses a ledger row whose version is already there, a second policy
      of the same name on a table, a second role of the same name, and any
      use of the ledger table before it exists. *)

From Stdlib Require Import String Ascii List Bool Arith Lia.
From Stdlib Require Import Sorting.Sorted Sorting.Permutation Structures.OrdersEx.
From stdpp Require Import base option gmap strings list sorting.


(** ** Go errors *)

(** An [error] value: a leaf made by the driver or [errors.New], or the
    result of [fmt.Errorf] with a [%w] verb, which keeps the formatted
    text and the wrapped cause.  A nil [error] is [None : option error]. *)
Inductive error : Type :=
| errorString (s : string)
| wrapError (msg : string) (err : error).

(** [err.Error()] *)
Definition Error (e : error) : string :=
  match e with
  | errorString s => s
  | wrapError msg _ => msg
  end.

(** [errors.Unwrap(err)] *)
Definition Unwrap (e : error) : option error :=
  match e with
  | errorString _ => None
  | wrapError _ err => Some err
  end.

(** [fmt.Errorf(prefix + ": %w", err)] *)
Definition Errorf_w (prefix : string) (err : error) : error :=
  wrapError (prefix +:+ ": " +:+ Error err) err.

(** A call either returns a value or panics with a value. *)
Inductive Result (A : Type) : Type :=
| Return (a : A)
| Panic (p : string).
Arguments Return {A} a.
Arguments Panic {A} p.

(** ** The data model of the source *)

(** [type Migration struct] *)
Record Migration : Type := mkMigration {
  Version : string;
  Description : string;
  SQL : string
}.

(** [type MigrationRecord struct]; the timestamp is a tick of the clock.
    The fields [Version] and [Description] carry an [R] here because
    [Migration] has fields of the same names. *)
Record MigrationRecord : Type := mkMigrationRecord {
  RVersion : string;
  AppliedAt : nat;
  RDescription : string
}.

(** [type PolicyConfig struct] *)
Record PolicyConfig : Type := mkPolicyConfig {
  Name : string;
  Table : string;
  Command : string;
  Role : string;
  Using : string;
  WithCheck : string
}.

(** ** Statements sent to the database

    Each constructor stands for one SQL text of the source; its
    arguments are the values the source splices into the text. *)
Inductive Stmt : Type :=
| RawSQL (sql : string)
    (* the caller's migration body, sent as it is *)
| CreateLedgerTable
    (* CREATE TABLE IF NOT EXISTS schema_migrations (...) *)
| InsertLedger (version description : string) (applied_at : nat)
    (* INSERT INTO schema_migrations (version, description, applied_at) *)
| EnableRowSecurity (table : string)
    (* ALTER TABLE %s ENABLE ROW LEVEL SECURITY *)
| DisableRowSecurity (table : string)
    (* ALTER TABLE %s DISABLE ROW LEVEL SECURITY *)
| CreatePolicyStmt (name table command role predicate : string)
                   (with_check : option string)
    (* CREATE POLICY %s ON %s FOR %s TO %s USING (%s) [WITH CHECK (%s)] *)
| DropPolicyIfExists (name table : string)
    (* DROP POLICY IF EXISTS %s ON %s *)
| CreateRole (name password : string)
    (* CREATE ROLE %s WITH LOGIN PASSWORD '%s' *)
| GrantStmt (perm table role : string)
    (* GRANT %s ON %s TO %s *)
| RevokeStmt (perm table role : string)
    (* REVOKE %s ON %s FROM %s *)
| CreateExtensionIfNotExists (name : string)
    (* CREATE EXTENSION IF NOT EXISTS "%s" *)
| GormAutoMigrate (models : list string)
    (* db.AutoMigrate(&domain.User{}, ...): GORM's struct-driven migration *)
| AddConstraintIfNotExists (table conname : string)
    (* DO $$ IF NOT EXISTS (pg_constraint) THEN ALTER TABLE ADD CONSTRAINT *)
| CreateOrReplaceFunction (name : string)
    (* CREATE OR REPLACE FUNCTION %s() RETURNS TRIGGER *)
| DropAndCreateTrigger (trigger table : string)
    (* DROP TRIGGER IF EXISTS %s ON %s; CREATE TRIGGER %s BEFORE UPDATE ON %s *)
| CreateRoleIfNotExists (name password : string)
    (* DO $$ IF NOT EXISTS (pg_roles) THEN CREATE ROLE %s WITH LOGIN PASSWORD *)
| GrantScript (grants : list (string * string * string)).
    (* several GRANT statements sent as one text: (privileges, objects, role) *)

(** Queries that return rows. *)
Inductive Query : Type :=
| SelectLedger
    (* SELECT version, applied_at, description FROM schema_migrations ORDER BY version *)
| SelectRoleExists (rolname : string).
    (* SELECT EXISTS(SELECT FROM pg_roles WHERE rolname = $1) *)

(** ** The database *)

(** A role of the cluster. *)
Record RoleAttrs : Type := mkRole {
  role_password : string;
  role_login : bool
}.

(** The durable state.  [schema] is the history of opaque schema changes
    that took effect; [ledger] is the [schema_migrations] table, [None]
    while the table does not exist. *)
Record Store : Type := mkStore {
  schema : list string;
  ledger : option (list MigrationRecord);
  roles : gmap string RoleAttrs;
  row_security : list string;
  policies : list PolicyConfig;
  grants : list (string * string * string)
}.

Definition empty_store : Store :=
  mkStore [] None ∅ [] [] [].

Definition set_schema (s : list string) (st : Store) : Store :=
  mkStore s (ledger st) (roles st) (row_security st) (policies st) (grants st).
Definition set_ledger (l : option (list MigrationRecord)) (st : Store) : Store :=
  mkStore (schema st) l (roles st) (row_security st) (policies st) (grants st).
Definition set_roles (r : gmap string RoleAttrs) (st : Store) : Store :=
  mkStore (schema st) (ledger st) r (row_security st) (policies st) (grants st).
Definition set_row_security (r : list string) (st : Store) : Store :=
  mkStore (schema st) (ledger st) (roles st) r (policies st) (grants st).
Definition set_policies (p : list PolicyConfig) (st : Store) : Store :=
  mkStore (schema st) (ledger st) (roles st) (row_security st) p (grants st).
Definition set_grants (g : list (string * string * string)) (st : Store) : Store :=
  mkStore (schema st) (ledger st) (roles st) (row_security st) (policies st) g.

Definition mem_string (x : string) (l : list string) : bool :=
  existsb (String.eqb x) l.

Definition add_if_absent (x : string) (l : list string) : list string :=
  if mem_string x l then l else l ++ [x].

Definition remove_string (x : string) (l : list string) : list string :=
  List.filter (fun y => negb (String.eqb x y)) l.

(** The versions recorded in the ledger. *)
Definition ledger_versions (st : Store) : list string :=
  map RVersion (default [] (ledger st)).

Definition same_policy (name table : string) (p : PolicyConfig) : bool :=
  String.eqb name (Name p) && String.eqb table (Table p).

Definition mem_grant (g : string * string * string)
    (l : list (string * string * string)) : bool :=
  existsb (fun h => String.eqb g.1.1 h.1.1 && String.eqb g.1.2 h.1.2
                    && String.eqb g.2 h.2) l.

Definition add_grant (g : string * string * string)
    (l : list (string * string * string)) : list (string * string * string) :=
  if mem_grant g l then l else l ++ [g].

Definition remove_grant (g : string * string * string)
    (l : list (string * string * string)) : list (string * string * string) :=
  List.filter (fun h => negb (String.eqb g.1.1 h.1.1 && String.eqb g.1.2 h.1.2
                                && String.eqb g.2 h.2)) l.

(** The parser folds an unquoted identifier to lower case: the letters A
    to Z of ASCII, the other bytes stay as they are (a database in
    UTF-8).  A value compared as text, as in [rolname = $1], is not
    folded. *)
Definition lower_ascii (c : ascii) : ascii :=
  let n := nat_of_ascii c in
  if (65 <=? n) && (n <=? 90) then ascii_of_nat (n + 32) else c.

Fixpoint fold_identifier (s : string) : string :=
  match s with
  | EmptyString => EmptyString
  | String c rest => String (lower_ascii c) (fold_identifier rest)
  end.

(** What a statement does to the store when the engine accepts it, or the
    engine's error.  A failed statement changes nothing.  [CREATE ROLE %s]
    names the role by an unquoted identifier, so the role it creates is
    the folded one; the guard of the DO block compares the text as it
    is. *)
Definition exec_stmt (s : Stmt) (st : Store) : error + Store :=
  match s with
  | RawSQL sql => inr (set_schema (schema st ++ [sql]) st)
  | CreateLedgerTable =>
      match ledger st with
      | Some _ => inr st
      | None => inr (set_ledger (Some []) st)
      end
  | InsertLedger version description applied_at =>
      match ledger st with
      | None => inl (errorString "relation schema_migrations does not exist")
      | Some rows =>
          if mem_string version (map RVersion rows)
          then inl (errorString "duplicate key value violates unique constraint")
          else inr (set_ledger
                      (Some (rows ++ [mkMigrationRecord version applied_at description]))
                      st)
      end
  | EnableRowSecurity table =>
      inr (set_row_security (add_if_absent table (row_security st)) st)
  | DisableRowSecurity table =>
      inr (set_row_security (remove_string table (row_security st)) st)
  | CreatePolicyStmt name table command role predicate with_check =>
      if existsb (same_policy name table) (policies st)
      then inl (errorString "policy already exists")
      else inr (set_policies
                  (policies st ++
                   [mkPolicyConfig name table command role predicate (default "" with_check)])
                  st)
  | DropPolicyIfExists name table =>
      inr (set_policies
             (List.filter (fun p => negb (same_policy name table p)) (policies st)) st)
  | CreateRole name password =>
      match roles st !! fold_identifier name with
      | Some _ => inl (errorString "role already exists")
      | None =>
          inr (set_roles (<[fold_identifier name := mkRole password true]> (roles st))
                 st)
      end
  | CreateRoleIfNotExists name password =>
      match roles st !! name with
      | Some _ => inr st
      | None =>
          match roles st !! fold_identifier name with
          | Some _ => inl (errorString "role already exists")
          | None =>
              inr (set_roles
                     (<[fold_identifier name := mkRole password true]> (roles st)) st)
          end
      end
  | GrantStmt perm table role =>
      inr (set_grants (add_grant (perm, table, role) (grants st)) st)
  | RevokeStmt perm table role =>
      inr (set_grants (remove_grant (perm, table, role) (grants st)) st)
  | GrantScript gs =>
      inr (set_grants (fold_left (fun acc g => add_grant g acc) gs (grants st)) st)
  | CreateExtensionIfNotExists name =>
      inr (set_schema (add_if_absent ("extension " +:+ name) (schema st)) st)
  | GormAutoMigrate models =>
      inr (set_schema
             (fold_left (fun acc m => add_if_absent ("table " +:+ m) acc) models (schema st))
             st)
  | AddConstraintIfNotExists table conname =>
      inr (set_schema (add_if_absent ("constraint " +:+ conname) (schema st)) st)
  | CreateOrReplaceFunction name =>
      inr (set_schema (add_if_absent ("function " +:+ name) (schema st)) st)
  | DropAndCreateTrigger trigger table =>
      inr (set_schema
             (remove_string ("trigger " +:+ trigger) (schema st)
              ++ ["trigger " +:+ trigger]) st)
  end.

(** ** The world seen through the driver *)

(** One entry per call into [database/sql]. *)
Inductive Event : Type :=
| EvExec (s : Stmt)        (* db.ExecContext, autocommit *)
| EvBegin                  (* db.BeginTx *)
| EvTxExec (s : Stmt)      (* tx.ExecContext *)
| EvCommit                 (* tx.Commit *)
| EvRollback               (* tx.Rollback *)
| EvQuery (q : Query)      (* db.QueryContext / db.QueryRowContext *)
| EvNext                   (* rows.Next *)
| EvScan.                  (* rows.Scan *)

(** [db] is the committed state, [open_tx] the number of transactions
    begun and not yet ended, [log] the driver calls so far (oldest first),
    [faults] the failures the environment injects into the coming calls
    ([None]: the call goes through), [output] the lines printed. *)
Record World : Type := mkWorld {
  db : Store;
  open_tx : nat;
  log : list Event;
  faults : list (option error);
  output : list string
}.

Definition set_db (st : Store) (w : World) : World :=
  mkWorld st (open_tx w) (log w) (faults w) (output w).
Definition set_open_tx (n : nat) (w : World) : World :=
  mkWorld (db w) n (log w) (faults w) (output w).

(** [fmt.Printf] / [log.Println]: one line of output. *)
Definition Println (line : string) (w : World) : World :=
  mkWorld (db w) (open_tx w) (log w) (faults w) (output w ++ [line]).

(** [time.Now()]: the number of driver calls made so far. *)
Definition time_Now (w : World) : nat := length (log w).

(** Every call into the driver is logged and takes the next pending
    fault, if any. *)
Definition driver_call (ev : Event) (w : World) : option error * World :=
  match faults w with
  | [] => (None, mkWorld (db w) (open_tx w) (log w ++ [ev]) [] (output w))
  | f :: fs => (f, mkWorld (db w) (open_tx w) (log w ++ [ev]) fs (output w))
  end.

(** [db.ExecContext(ctx, query)]: autocommit, the effect is durable at
    once. *)
Definition db_ExecContext (s : Stmt) (w : World) : option error * World :=
  let '(f, w1) := driver_call (EvExec s) w in
  match f with
  | Some err => (Some err, w1)
  | None =>
      match exec_stmt s (db w1) with
      | inl err => (Some err, w1)
      | inr st => (None, set_db st w1)
      end
  end.

(** [db.BeginTx(ctx, nil)] *)
Definition db_BeginTx (w : World) : option error * World :=
  let '(f, w1) := driver_call EvBegin w in
  match f with
  | Some err => (Some err, w1)
  | None => (None, set_open_tx (S (open_tx w1)) w1)
  end.

(** [tx.ExecContext(ctx, query, args...)] on the transaction's private
    copy [work] of the store.  A failed statement leaves the copy as it
    was; the callbacks of this repository return at the first failure, so
    nothing is ever sent on a transaction after a failed statement. *)
Definition tx_ExecContext (s : Stmt) (work : Store) (w : World)
  : option error * Store * World :=
  let '(f, w1) := driver_call (EvTxExec s) w in
  match f with
  | Some err => (Some err, work, w1)
  | None =>
      match exec_stmt s work with
      | inl err => (Some err, work, w1)
      | inr st => (None, st, w1)
      end
  end.

(** [tx.Commit()]: the private copy becomes the committed state unless
    the commit fails; the transaction is over either way. *)
Definition tx_Commit (work : Store) (w : World) : option error * World :=
  let '(f, w1) := driver_call EvCommit w in
  let w2 := set_open_tx (pred (open_tx w1)) w1 in
  match f with
  | Some err => (Some err, w2)
  | None => (None, set_db work w2)
  end.

(** [tx.Rollback()]: the private copy is dropped; the transaction is over
    even when the call reports an error. *)
Definition tx_Rollback (w : World) : option error * World :=
  let '(f, w1) := driver_call EvRollback w in
  (f, set_open_tx (pred (open_tx w1)) w1).

(** ** [Connection.WithTransaction] *)

(** The callback [fn func( *sql.Tx) error]: what it does with the
    transaction handle it receives. *)
Inductive TxFunc : Type :=
| TxReturn (err : option error)                 (* return err *)
| TxPanic (p : string)                          (* panic(p) *)
| TxNow (k : nat -> TxFunc)                     (* time.Now() *)
| TxExec (s : Stmt) (k : option error -> TxFunc). (* _, err := tx.ExecContext(..) *)

Fixpoint run_fn (fn : TxFunc) (work : Store) (w : World)
  : Result (option error) * Store * World :=
  match fn with
  | TxReturn err => (Return err, work, w)
  | TxPanic p => (Panic p, work, w)
  | TxNow k => run_fn (k (time_Now w)) work w
  | TxExec s k =>
      let '(err, work1, w1) := tx_ExecContext s work w in
      run_fn (k err) work1 w1
  end.

Definition WithTransaction (fn : TxFunc) (w : World)
  : Result (option error) * World :=
  let '(err, w1) := db_BeginTx w in
  match err with
  | Some err => (Return (Some (Errorf_w "failed to begin transaction" err)), w1)
  | None =>
      let '(r, work, w2) := run_fn fn (db w1) w1 in
      match r with
      | Panic p =>
          (* the deferred recover: _ = tx.Rollback(); panic(p) *)
          let '(_, w3) := tx_Rollback w2 in
          (Panic p, w3)
      | Return (Some err) =>
          let '(rbErr, w3) := tx_Rollback w2 in
          match rbErr with
          | Some rbErr =>
              (Return (Some (wrapError
                 ("transaction error: " +:+ Error err +:+
                  ", rollback error: " +:+ Error rbErr) rbErr)), w3)
          | None => (Return (Some err), w3)
          end
      | Return None =>
          let '(err, w3) := tx_Commit work w2 in
          match err with
          | Some err =>
              (Return (Some (Errorf_w "failed to commit transaction" err)), w3)
          | None => (Return None, w3)
          end
      end
  end.

(** ** [sort.Slice]

    [sort.Slice(s, less)] reorders [s] so that no element is [less] than
    an earlier one.  The library does not promise stability; this model
    is an insertion sort, and the results below use no more than that its
    output is an ordered permutation of its input.  When the keys are
    pairwise distinct every such sort returns the same slice. *)
Section SortSlice.
Context {A : Type} (less : A -> A -> bool).

Fixpoint insert_sorted (x : A) (l : list A) : list A :=
  match l with
  | [] => [x]
  | y :: l' => if less y x then y :: insert_sorted x l' else x :: y :: l'
  end.

Definition sort_Slice (l : list A) : list A :=
  fold_right insert_sorted [] l.
End SortSlice.

(** The comparison of Go strings with [<]: bytewise lexicographic. *)
Definition string_less (a b : string) : bool := String.ltb a b.

(** [a] is not after [b]. *)
Definition version_le (a b : string) : Prop := string_less b a = false.

(** [func(i, j int) bool { return migrations[i].Version < migrations[j].Version }] *)
Definition migration_less (a b : Migration) : bool :=
  string_less (Version a) (Version b).

(** The order of [ORDER BY version] on ledger rows. *)
Definition record_less (a b : MigrationRecord) : bool :=
  string_less (RVersion a) (RVersion b).

(** ** The migrator *)

(** [db.QueryContext(ctx, query)] for the ledger: the result set, in
    version order (bytewise, the order of the C collation). *)
Definition db_QueryLedger (w : World) : (error + list MigrationRecord) * World :=
  let '(f, w1) := driver_call (EvQuery SelectLedger) w in
  match f with
  | Some err => (inl err, w1)
  | None =>
      match ledger (db w1) with
      | None => (inl (errorString "relation schema_migrations does not exist"), w1)
      | Some rows =>
          (inr (sort_Slice record_less rows), w1)
      end
  end.

(** The loop [for rows.Next() { rows.Scan(..); records = append(..) }]
    over the rows still to come.  [rows.Next()] returns false at the end
    of the data and also when fetching fails; in the second case the
    error stays in [rows.Err()], which the source never reads. *)
Fixpoint scan_rows (rows records : list MigrationRecord) (w : World)
  : (list MigrationRecord * option error) * World :=
  match rows with
  | [] =>
      let '(_, w1) := driver_call EvNext w in
      ((records, None), w1)
  | record :: rest =>
      let '(f, w1) := driver_call EvNext w in
      match f with
      | Some _ => ((records, None), w1)
      | None =>
          let '(f, w2) := driver_call EvScan w1 in
          match f with
          | Some err =>
              (([], Some (Errorf_w "failed to scan migration record" err)), w2)
          | None => scan_rows rest (records ++ [record]) w2
          end
      end
  end.

(** [func (m *Migrator) GetAppliedMigrations] *)
Definition GetAppliedMigrations (w : World)
  : (list MigrationRecord * option error) * World :=
  let '(r, w1) := db_QueryLedger w in
  match r with
  | inl err => (([], Some (Errorf_w "failed to query migrations" err)), w1)
  | inr rows => scan_rows rows [] w1
  end.

(** [func (m *Migrator) ensureMigrationsTable] *)
Definition ensureMigrationsTable (w : World) : option error * World :=
  let '(err, w1) := db_ExecContext CreateLedgerTable w in
  match err with
  | Some err => (Some (Errorf_w "failed to create migrations table" err), w1)
  | None => (None, w1)
  end.

(** The closure passed to [WithTransaction] by [applyMigration]. *)
Definition applyMigration_fn (migration : Migration) : TxFunc :=
  TxExec (RawSQL (SQL migration)) (fun err =>
    match err with
    | Some err => TxReturn (Some (Errorf_w "failed to execute migration SQL" err))
    | None =>
        TxNow (fun now =>
          TxExec (InsertLedger (Version migration) (Description migration) now)
            (fun err =>
               match err with
               | Some err => TxReturn (Some (Errorf_w "failed to record migration" err))
               | None => TxReturn None
               end))
    end).

(** [func (m *Migrator) applyMigration] *)
Definition applyMigration (migration : Migration) (w : World)
  : Result (option error) * World :=
  WithTransaction (applyMigration_fn migration) w.

(** [appliedMap := make(map[string]bool)] filled from the records. *)
Definition make_appliedMap (applied : list MigrationRecord) : gmap string bool :=
  fold_left (fun m record => <[RVersion record := true]> m) applied ∅.

(** [appliedMap[v]]: a missing key reads as false. *)
Definition appliedMap_get (appliedMap : gmap string bool) (v : string) : bool :=
  default false (appliedMap !! v).

(** The line printed for an applied migration. *)
Definition applied_line (migration : Migration) : string :=
  "Applied migration: " +:+ Version migration +:+ " - " +:+ Description migration.

(** The loop [for _, migration := range migrations] of [Apply]. *)
Fixpoint apply_pending (appliedMap : gmap string bool)
    (migrations : list Migration) (w : World) : Result (option error) * World :=
  match migrations with
  | [] => (Return None, w)
  | migration :: rest =>
      if appliedMap_get appliedMap (Version migration)
      then apply_pending appliedMap rest w
      else
        match applyMigration migration w with
        | (Return (Some err), w1) =>
            (Return (Some (Errorf_w
               ("failed to apply migration " +:+ Version migration) err)), w1)
        | (Return None, w1) =>
            apply_pending appliedMap rest (Println (applied_line migration) w1)
        | (Panic p, w1) => (Panic p, w1)
        end
  end.

(** [func (m *Migrator) Apply] *)
Definition Apply (migrations : list Migration) (w : World)
  : Result (option error) * World :=
  let '(err, w1) := ensureMigrationsTable w in
  match err with
  | Some err => (Return (Some err), w1)
  | None =>
      let '((applied, err), w2) := GetAppliedMigrations w1 in
      match err with
      | Some err => (Return (Some err), w2)
      | None =>
          let appliedMap := make_appliedMap applied in
          let migrations := sort_Slice migration_less migrations in
          apply_pending appliedMap migrations w2
      end
  end.

(** ** The row-level-security manager *)

(** [func (m *RLSManager) EnableRLS] *)
Definition EnableRLS (tableName : string) (w : World) : option error * World :=
  let '(err, w1) := db_ExecContext (EnableRowSecurity tableName) w in
  match err with
  | Some err => (Some (Errorf_w ("failed to enable RLS on " +:+ tableName) err), w1)
  | None => (None, w1)
  end.


(** The statement built by [CreatePolicy]: the WITH CHECK clause is
    added only when [cfg.WithCheck != ""]. *)
Definition CreatePolicy_query (cfg : PolicyConfig) : Stmt :=
  CreatePolicyStmt (Name cfg) (Table cfg) (Command cfg) (Role cfg) (Using cfg)
    (if String.eqb (WithCheck cfg) "" then None else Some (WithCheck cfg)).

(** [func (m *RLSManager) CreatePolicy] *)
Definition CreatePolicy (cfg : PolicyConfig) (w : World) : option error * World :=
  let '(err, w1) := db_ExecContext (CreatePolicy_query cfg) w in
  match err with
  | Some err => (Some (Errorf_w ("failed to create policy " +:+ Name cfg) err), w1)
  | None => (None, w1)
  end.


(** [db.QueryRowContext(ctx, checkQuery, roleName).Scan(&exists)] *)
Definition db_QueryRoleExists (roleName : string) (w : World)
  : (error + bool) * World :=
  let '(f, w1) := driver_call (EvQuery (SelectRoleExists roleName)) w in
  match f with
  | Some err => (inl err, w1)
  | None => (inr (bool_decide (is_Some (roles (db w1) !! roleName))), w1)
  end.

(** [func (m *RLSManager) CreateServiceRole] *)
Definition CreateServiceRole (roleName password : string) (w : World)
  : option error * World :=
  let '(r, w1) := db_QueryRoleExists roleName w in
  match r with
  | inl err => (Some (Errorf_w "failed to check if role exists" err), w1)
  | inr true => (None, w1)
  | inr false =>
      let '(err, w2) := db_ExecContext (CreateRole roleName password) w1 in
      match err with
      | Some err => (Some (Errorf_w ("failed to create role " +:+ roleName) err), w2)
      | None => (None, w2)
      end
  end.

(** [func (m *RLSManager) GrantTablePermissions] *)
Fixpoint GrantTablePermissions (tableName roleName : string)
    (permissions : list string) (w : World) : option error * World :=
  match permissions with
  | [] => (None, w)
  | perm :: rest =>
      let '(err, w1) := db_ExecContext (GrantStmt perm tableName roleName) w in
      match err with
      | Some err =>
          (Some (Errorf_w ("failed to grant " +:+ perm +:+ " on " +:+ tableName
                           +:+ " to " +:+ roleName) err), w1)
      | None => GrantTablePermissions tableName roleName rest w1
      end
  end.

(** [func (m *RLSManager) RevokeTablePermissions] *)
Fixpoint RevokeTablePermissions (tableName roleName : string)
    (permissions : list string) (w : World) : option error * World :=
  match permissions with
  | [] => (None, w)
  | perm :: rest =>
      let '(err, w1) := db_ExecContext (RevokeStmt perm tableName roleName) w in
      match err with
      | Some err =>
          (Some (Errorf_w ("failed to revoke " +:+ perm +:+ " on " +:+ tableName
                           +:+ " from " +:+ roleName) err), w1)
      | None => RevokeTablePermissions tableName roleName rest w1
      end
  end.

(** The policy chosen by [SetupServiceRLS]. *)
Definition service_policy (serviceName tableName : string) (fullAccess : bool)
  : PolicyConfig :=
  if fullAccess
  then mkPolicyConfig (serviceName +:+ "_all_" +:+ tableName) tableName
         "ALL" serviceName "true" ""
  else mkPolicyConfig (serviceName +:+ "_select_" +:+ tableName) tableName
         "SELECT" serviceName "true" "".

(** [func SetupServiceRLS] *)
Definition SetupServiceRLS (serviceName tableName : string) (fullAccess : bool)
    (w : World) : option error * World :=
  let '(err, w1) := EnableRLS tableName w in
  match err with
  | Some err => (Some err, w1)
  | None => CreatePolicy (service_policy serviceName tableName fullAccess) w1
  end.

(** ** The orchestrator ([internal/database] on GORM, [cmd/migrate])

    [db.Exec(sql).Error] of GORM is one autocommit statement.  GORM's own
    [db.AutoMigrate(models...)] is taken as one call into the library. *)

(** The loop over [tables] that closes [addCustomConstraints]. *)
Fixpoint create_triggers (tables : list string) (w : World) : option error * World :=
  match tables with
  | [] => (None, w)
  | table :: rest =>
      let triggerName := "update_" +:+ table +:+ "_updated_at" in
      let '(err, w1) := db_ExecContext (DropAndCreateTrigger triggerName table) w in
      match err with
      | Some err => (Some (Errorf_w ("failed to create trigger for " +:+ table) err), w1)
      | None => create_triggers rest w1
      end
  end.

(** [func addCustomConstraints] *)
Definition addCustomConstraints (w : World) : option error * World :=
  let '(err, w1) :=
    db_ExecContext (AddConstraintIfNotExists "users" "users_email_format_check") w in
  match err with
  | Some err => (Some (Errorf_w "failed to add email format constraint" err), w1)
  | None =>
      let '(err, w2) :=
        db_ExecContext
          (AddConstraintIfNotExists "folders" "folders_no_self_parent_check") w1 in
      match err with
      | Some err => (Some (Errorf_w "failed to add no self-parent constraint" err), w2)
      | None =>
          let '(err, w3) :=
            db_ExecContext (CreateOrReplaceFunction "update_updated_at_column") w2 in
          match err with
          | Some err =>
              (Some (Errorf_w "failed to create update_updated_at_column function" err),
               w3)
          | None => create_triggers ["users"; "files"; "folders"] w3
          end
      end
  end.

(** [func AutoMigrate] *)
Definition AutoMigrate (w : World) : option error * World :=
  let w0 := Println "Running database migrations..." w in
  let '(err, w1) := db_ExecContext (CreateExtensionIfNotExists "uuid-ossp") w0 in
  match err with
  | Some err => (Some (Errorf_w "failed to create uuid-ossp extension" err), w1)
  | None =>
      let '(err, w2) := db_ExecContext (CreateExtensionIfNotExists "pgcrypto") w1 in
      match err with
      | Some err => (Some (Errorf_w "failed to create pgcrypto extension" err), w2)
      | None =>
          let '(err, w3) :=
            db_ExecContext (GormAutoMigrate ["User"; "Folder"; "File"]) w2 in
          match err with
          | Some err => (Some (Errorf_w "failed to auto-migrate models" err), w3)
          | None =>
              let '(err, w4) := addCustomConstraints w3 in
              match err with
              | Some err =>
                  (Some (Errorf_w "failed to add custom constraints" err), w4)
              | None =>
                  (None, Println "Database migrations completed successfully" w4)
              end
          end
      end
  end.


(** [func grantPermissions] *)
Definition grantPermissions (w : World) : option error * World :=
  let '(err, w1) :=
    db_ExecContext
      (GrantScript
         [("SELECT, INSERT, UPDATE, DELETE", "users", "user_service");
          ("USAGE, SELECT", "ALL SEQUENCES IN SCHEMA public", "user_service")]) w in
  match err with
  | Some err => (Some (Errorf_w "failed to grant permissions to user_service" err), w1)
  | None =>
      let '(err, w2) :=
        db_ExecContext
          (GrantScript
             [("SELECT, INSERT, UPDATE, DELETE", "files, folders", "file_service");
              ("SELECT", "users", "file_service");
              ("USAGE, SELECT", "ALL SEQUENCES IN SCHEMA public", "file_service")])
          w1 in
      match err with
      | Some err =>
          (Some (Errorf_w "failed to grant permissions to file_service" err), w2)
      | None =>
          let '(err, w3) :=
            db_ExecContext
              (GrantScript [("SELECT", "users, files, folders", "analytics_reader")])
              w2 in
          match err with
          | Some err =>
              (Some (Errorf_w "failed to grant permissions to analytics_reader" err),
               w3)
          | None => (None, w3)
          end
      end
  end.

(** The roles declared in [CreateServiceRoles]. *)
Definition service_roles : list (string * string) :=
  [("user_service", "user_service_password");
   ("file_service", "file_service_password");
   ("analytics_reader", "analytics_password")].

(** The loop [for _, role := range roles] of [CreateServiceRoles]. *)
Fixpoint create_roles (rs : list (string * string)) (w : World)
  : option error * World :=
  match rs with
  | [] => (None, w)
  | role :: rest =>
      let '(err, w1) := db_ExecContext (CreateRoleIfNotExists role.1 role.2) w in
      match err with
      | Some err => (Some (Errorf_w ("failed to create role " +:+ role.1) err), w1)
      | None =>
          create_roles rest (Println ("Role " +:+ role.1 +:+ " created/verified") w1)
      end
  end.

(** [func CreateServiceRoles] *)
Definition CreateServiceRoles (w : World) : option error * World :=
  let w0 := Println "Creating service roles..." w in
  let '(err, w1) := create_roles service_roles w0 in
  match err with
  | Some err => (Some err, w1)
  | None =>
      let '(err, w2) := grantPermissions w1 in
      match err with
      | Some err => (Some (Errorf_w "failed to grant permissions" err), w2)
      | None => (None, Println "Service roles created successfully" w2)
      end
  end.

(** ** Observations on runs *)

(** The driver calls made between two worlds of one run. *)
Definition events_since (w w' : World) : list Event :=
  drop (length (log w)) (log w').

(** The migration bodies sent inside transactions. *)
Definition executed_bodies (evs : list Event) : list string :=
  omap (fun ev => match ev with EvTxExec (RawSQL sql) => Some sql | _ => None end) evs.

(** The versions for which a ledger row was sent. *)
Definition inserted_versions (evs : list Event) : list string :=
  omap (fun ev => match ev with
                  | EvTxExec (InsertLedger v _ _) => Some v
                  | _ => None
                  end) evs.

(** The calls that belong to a transaction. *)
Definition is_tx_event (ev : Event) : bool :=
  match ev with
  | EvBegin | EvTxExec _ | EvCommit | EvRollback => true
  | _ => false
  end.

Definition tx_events (evs : list Event) : list Event :=
  List.filter is_tx_event evs.

(** The migrations of [ms] whose version is not in [applied], in the
    order of [ms]. *)
Definition pending (applied : list string) (ms : list Migration) : list Migration :=
  List.filter (fun m => negb (mem_string (Version m) applied)) ms.

(** [w'] is [w] after the migrations [pre] were committed one after the
    other: their bodies took effect, their ledger rows were added, one
    line was printed for each, and no transaction is left open. *)
Definition committed_after (w w' : World) (pre : list Migration) : Prop :=
  schema (db w') = schema (db w) ++ map SQL pre
  /\ ledger_versions (db w') = ledger_versions (db w) ++ map Version pre
  /\ output w' = output w ++ map applied_line pre
  /\ open_tx w' = open_tx w.

(** The store after the grants of [perms] went through, one by one. *)
Definition granted (tableName roleName : string) (perms : list string) (st : Store)
  : Store :=
  fold_left
    (fun st perm => set_grants (add_grant (perm, tableName, roleName) (grants st)) st)
    perms st.

(** The statements [AutoMigrate] sends when none fails, in order. *)
Definition migrate_statements : list Stmt :=
  [CreateExtensionIfNotExists "uuid-ossp";
   CreateExtensionIfNotExists "pgcrypto";
   GormAutoMigrate ["User"; "Folder"; "File"];
   AddConstraintIfNotExists "users" "users_email_format_check";
   AddConstraintIfNotExists "folders" "folders_no_self_parent_check";
   CreateOrReplaceFunction "update_updated_at_column";
   DropAndCreateTrigger "update_users_updated_at" "users";
   DropAndCreateTrigger "update_files_updated_at" "files";
   DropAndCreateTrigger "update_folders_updated_at" "folders"].


(** The number of [Commit] and [Rollback] calls. *)
Definition tx_ends (evs : list Event) : nat :=
  length (List.filter (fun ev => match ev with
                                 | EvCommit | EvRollback => true
                                 | _ => false
                                 end) evs).

(** No failure is pending: every coming driver call goes through. *)
Definition quiet (w : World) : Prop := faults w = [].

(** A world with the given store and pending faults, nothing logged. *)
Definition world_of (st : Store) (fs : list (option error)) : World :=
  mkWorld st 0 [] fs [].

(** The rows of the ledger table, none while the table does not exist. *)
Definition ledger_rows (st : Store) : list MigrationRecord :=
  default [] (ledger st).

(** The part of the store that belongs to access control. *)
Definition access_state (st : Store)
  : gmap string RoleAttrs * list string * list PolicyConfig
    * list (string * string * string) :=
  (roles st, row_security st, policies st, grants st).

(** The store after the revokes of [perms] went through, one by one. *)
Definition revoked (tableName roleName : string) (perms : list string) (st : Store)
  : Store :=
  fold_left
    (fun st perm => set_grants (remove_grant (perm, tableName, roleName) (grants st)) st)
    perms st.

(** The statements [CreateServiceRoles] sends when none fails, in order. *)
Definition roles_statements : list Stmt :=
  [CreateRoleIfNotExists "user_service" "user_service_password";
   CreateRoleIfNotExists "file_service" "file_service_password";
   CreateRoleIfNotExists "analytics_reader" "analytics_password";
   GrantScript
     [("SELECT, INSERT, UPDATE, DELETE", "users", "user_service");
      ("USAGE, SELECT", "ALL SEQUENCES IN SCHEMA public", "user_service")];
   GrantScript
     [("SELECT, INSERT, UPDATE, DELETE", "files, folders", "file_service");
      ("SELECT", "users", "file_service");
      ("USAGE, SELECT", "ALL SEQUENCES IN SCHEMA public", "file_service")];
   GrantScript [("SELECT", "users, files, folders", "analytics_reader")]].

(** Among the coming [n] driver calls, the first one into which a
    failure is injected: its position and the error. *)
Fixpoint first_fault (n : nat) (fs : list (option error)) : option (nat * error) :=
  match n, fs with
  | S n', Some e :: _ => Some (0, e)
  | S n', None :: rest =>
      match first_fault n' rest with
      | Some (k, e) => Some (S k, e)
      | None => None
      end
  | _, _ => None
  end.

(** The store after the statements [ss] went through, one by one;
    [None] when the engine refuses one of them. *)
Fixpoint exec_all (ss : list Stmt) (st : Store) : option Store :=
  match ss with
  | [] => Some st
  | s :: rest =>
      match exec_stmt s st with
      | inr st1 => exec_all rest st1
      | inl _ => None
      end
  end.

(** The schema history after the statements of the migrate action went
    through: the guarded objects are added when absent, each trigger is
    dropped and created again. *)
Definition migrated_schema (history : list string) : list string :=
  let recreate trigger h := remove_string trigger h ++ [trigger] in
  recreate "trigger update_folders_updated_at"
    (recreate "trigger update_files_updated_at"
       (recreate "trigger update_users_updated_at"
          (add_if_absent "function update_updated_at_column"
             (add_if_absent "constraint folders_no_self_parent_check"
                (add_if_absent "constraint users_email_format_check"
                   (add_if_absent "table File"
                      (add_if_absent "table Folder"
                         (add_if_absent "table User"
                            (add_if_absent "extension pgcrypto"
                               (add_if_absent "extension uuid-ossp" history)))))))))).

(** The statements of [CreateServiceRoles]: guarded creations of roles
    whose names are in lower case, and grants. *)
Definition is_roles_stmt (s : Stmt) : bool :=
  match s with
  | CreateRoleIfNotExists name _ => String.eqb (fold_identifier name) name
  | GrantScript _ => true
  | _ => false
  end.

(** What a statement of [CreateServiceRoles] establishes: the role
    exists, the grants are held. *)
Definition established (s : Stmt) (st : Store) : Prop :=
  match s with
  | CreateRoleIfNotExists name _ => is_Some (roles st !! name)
  | GrantScript gs => forall g, In g gs -> In g (grants st)
  | _ => exec_stmt s st = inr st
  end.

(** [case "roles":] of [main]: the exit status and the world. *)
Definition main_roles (w : World) : nat * World :=
  match CreateServiceRoles w with
  | (Some err, w1) => (1, Println ("Create roles failed: " +:+ Error err) w1)
  | (None, w1) => (0, Println "✓ Service roles created successfully" w1)
  end.

(** ** The connection pool ([NewConnection], [Close], [Ping], [HealthCheck])

    The handle [*sql.DB] is seen through the calls made on it. *)

(** [type Config struct]; a [time.Duration] is a number of nanoseconds. *)
Record Config : Type := mkConfig {
  Host : string;
  Port : string;
  User : string;
  Password : string;
  DBName : string;
  SSLMode : string;
  MaxOpenConns : Z;
  MaxIdleConns : Z;
  ConnMaxLifetime : Z;
  ConnMaxIdleTime : Z
}.

Definition time_Second : Z := 1000000000.
Definition time_Minute : Z := 60 * time_Second.

(** A [context.Context] as far as the code uses it: the time left until
    its deadline, [None] when it has none. *)
Definition Context : Type := option Z.

Definition context_Background : Context := None.

(** [context.WithTimeout(parent, d)]: the earlier of the two deadlines. *)
Definition context_WithTimeout (parent : Context) (d : Z) : Context :=
  match parent with
  | None => Some d
  | Some t => Some (Z.min t d)
  end.

(** The calls on [database/sql] made by the connection code. *)
Inductive PoolCall : Type :=
| SqlOpen (driverName dataSourceName : string)   (* sql.Open *)
| SetMaxOpenConns (n : Z)
| SetMaxIdleConns (n : Z)
| SetConnMaxLifetime (d : Z)
| SetConnMaxIdleTime (d : Z)
| PingContext (ctx : Context)
| QueryRowScan (ctx : Context) (query : string)  (* QueryRowContext(..).Scan *)
| DBClose.

(** [calls]: the calls so far, oldest first; [pool_faults]: the failures
    injected into the coming calls that can fail. *)
Record Pool : Type := mkPool {
  calls : list PoolCall;
  pool_faults : list (option error)
}.

(** A call that returns an error value. *)
Definition pool_call (c : PoolCall) (p : Pool) : option error * Pool :=
  match pool_faults p with
  | [] => (None, mkPool (calls p ++ [c]) [])
  | f :: fs => (f, mkPool (calls p ++ [c]) fs)
  end.

(** A setter: it returns nothing. *)
Definition pool_set (c : PoolCall) (p : Pool) : Pool :=
  mkPool (calls p ++ [c]) (pool_faults p).

(** [type Connection struct]; [DB] tells whether the handle is non-nil,
    [CConfig] is the field [Config]. *)
Record Connection : Type := mkConnection {
  DB : bool;
  CConfig : Config
}.

(** The block [// Set defaults] of [NewConnection]. *)
Definition with_defaults (cfg : Config) : Config :=
  mkConfig (Host cfg) (Port cfg) (User cfg) (Password cfg) (DBName cfg)
    (if String.eqb (SSLMode cfg) "" then "disable" else SSLMode cfg)
    (if Z.eqb (MaxOpenConns cfg) 0 then 25%Z else MaxOpenConns cfg)
    (if Z.eqb (MaxIdleConns cfg) 0 then 5%Z else MaxIdleConns cfg)
    (if Z.eqb (ConnMaxLifetime cfg) 0 then (5 * time_Minute)%Z else ConnMaxLifetime cfg)
    (if Z.eqb (ConnMaxIdleTime cfg) 0 then (5 * time_Minute)%Z else ConnMaxIdleTime cfg).

(** The connection string built by [fmt.Sprintf]. *)
Definition connStr (cfg : Config) : string :=
  "host=" +:+ Host cfg +:+ " port=" +:+ Port cfg +:+ " user=" +:+ User cfg
  +:+ " password=" +:+ Password cfg +:+ " dbname=" +:+ DBName cfg
  +:+ " sslmode=" +:+ SSLMode cfg.

(** [func NewConnection] *)
Definition NewConnection (cfg : Config) (p : Pool)
  : (option Connection * option error) * Pool :=
  let cfg := with_defaults cfg in
  let '(err, p1) := pool_call (SqlOpen "pgx" (connStr cfg)) p in
  match err with
  | Some err => ((None, Some (Errorf_w "failed to open database" err)), p1)
  | None =>
      let p2 := pool_set (SetMaxOpenConns (MaxOpenConns cfg)) p1 in
      let p3 := pool_set (SetMaxIdleConns (MaxIdleConns cfg)) p2 in
      let p4 := pool_set (SetConnMaxLifetime (ConnMaxLifetime cfg)) p3 in
      let p5 := pool_set (SetConnMaxIdleTime (ConnMaxIdleTime cfg)) p4 in
      let ctx := context_WithTimeout context_Background (5 * time_Second) in
      let '(err, p6) := pool_call (PingContext ctx) p5 in
      match err with
      | Some err => ((None, Some (Errorf_w "failed to ping database" err)), p6)
      | None => ((Some (mkConnection true cfg), None), p6)
      end
  end.

(** [func (c *Connection) Close] *)
Definition Close (c : Connection) (p : Pool) : option error * Pool :=
  if DB c then pool_call DBClose p else (None, p).

(** [func (c *Connection) Ping]; a method call on a nil [*sql.DB]
    dereferences it. *)
Definition Ping (c : Connection) (ctx : Context) (p : Pool)
  : Result (option error) * Pool :=
  if DB c
  then let '(err, p1) := pool_call (PingContext ctx) p in (Return err, p1)
  else (Panic "runtime error: invalid memory address or nil pointer dereference", p).

(** [func (c *Connection) HealthCheck] *)
Definition HealthCheck (c : Connection) (ctx : Context) (p : Pool)
  : Result (option error) * Pool :=
  let ctx := context_WithTimeout ctx (2 * time_Second) in
  match Ping c ctx p with
  | (Panic v, p1) => (Panic v, p1)
  | (Return (Some err), p1) =>
      (Return (Some (Errorf_w "database health check failed" err)), p1)
  | (Return None, p1) =>
      let '(err, p2) := pool_call (QueryRowScan ctx "SELECT 1") p1 in
      match err with
      | Some err => (Return (Some (Errorf_w "database query check failed" err)), p2)
      | None => (Return None, p2)
      end
  end.

(** The calls made on the pool between two of its states. *)
Definition calls_since (p p' : Pool) : list PoolCall :=
  drop (length (calls p)) (calls p').

(** ** Sample inputs *)

(** Three migrations declared out of order. *)
Definition sample_migrations : list Migration :=
  [mkMigration "001" "create users" "CREATE TABLE users";
   mkMigration "003" "index users" "CREATE INDEX idx_users_phone";
   mkMigration "002" "add phone" "ALTER TABLE users ADD phone"].

(** An empty database and a driver that never fails. *)
Definition fresh_world : World := world_of empty_store [].

(** An empty database on which the ninth driver call fails: in a run of
    [Apply] over [sample_migrations] that call sends the body of 002. *)
Definition failing_world : World :=
  world_of empty_store (replicate 8 None ++ [Some (errorString "syntax error")]).

(** A database with one role. *)
Definition world_with_role : World :=
  world_of (set_roles {["user_service" := mkRole "secret" true]} empty_store) [].

(** * Properties *)

(** ** The driver primitives *)

Lemma events_since_app (w w' : World) (evs : list Event) :
  log w' = log w ++ evs -> events_since w w' = evs.
Proof.
  intros H. unfold events_since. rewrite H. apply drop_app_length.
Qed.

Lemma driver_call_frame (ev : Event) (w : World) :
  db (driver_call ev w).2 = db w
  /\ open_tx (driver_call ev w).2 = open_tx w
  /\ log (driver_call ev w).2 = log w ++ [ev]
  /\ output (driver_call ev w).2 = output w
  /\ faults (driver_call ev w).2 = tail (faults w)
  /\ (driver_call ev w).1 = mjoin (head (faults w)).
Proof.
  unfold driver_call. destruct (faults w); simpl; auto 10.
Qed.

Lemma driver_call_quiet (ev : Event) (w : World) :
  quiet w ->
  driver_call ev w = (None, mkWorld (db w) (open_tx w) (log w ++ [ev]) [] (output w)).
Proof.
  unfold quiet, driver_call. intros ->. reflexivity.
Qed.

(** The pieces of a world that [db_ExecContext] leaves alone. *)
Lemma db_ExecContext_frame (s : Stmt) (w : World) :
  open_tx (db_ExecContext s w).2 = open_tx w
  /\ log (db_ExecContext s w).2 = log w ++ [EvExec s]
  /\ output (db_ExecContext s w).2 = output w
  /\ faults (db_ExecContext s w).2 = tail (faults w).
Proof.
  unfold db_ExecContext.
  pose proof (driver_call_frame (EvExec s) w) as (Hd & Ho & Hl & Hp & Hf & _).
  destruct (driver_call (EvExec s) w) as [f w1]; simpl in *.
  destruct f as [err|]; simpl; auto.
  destruct (exec_stmt s (db w1)); simpl; auto.
Qed.

(** An autocommit statement that fails changes nothing; one that goes
    through changes the store as the engine says. *)
Lemma db_ExecContext_db (s : Stmt) (w : World) :
  match (db_ExecContext s w).1 with
  | Some _ => db (db_ExecContext s w).2 = db w
  | None => exec_stmt s (db w) = inr (db (db_ExecContext s w).2)
  end.
Proof.
  unfold db_ExecContext.
  pose proof (driver_call_frame (EvExec s) w) as (Hd & _).
  destruct (driver_call (EvExec s) w) as [f w1]; simpl in *.
  destruct f as [err|]; simpl; auto.
  rewrite Hd.
  destruct (exec_stmt s (db w)) eqn:E; simpl; auto.
Qed.

Lemma db_ExecContext_quiet (s : Stmt) (w : World) :
  quiet w ->
  db_ExecContext s w =
  match exec_stmt s (db w) with
  | inl err => (Some err, mkWorld (db w) (open_tx w) (log w ++ [EvExec s]) [] (output w))
  | inr st => (None, mkWorld st (open_tx w) (log w ++ [EvExec s]) [] (output w))
  end.
Proof.
  intros Hq. unfold db_ExecContext. rewrite driver_call_quiet by done. simpl.
  destruct (exec_stmt s (db w)); reflexivity.
Qed.

(** ** Transactions *)

(** The callback only sends statements on its transaction: it neither
    commits nor rolls back, and the committed store is out of its
    reach. *)
Lemma run_fn_frame (fn : TxFunc) (work : Store) (w : World) :
  exists stmts : list Stmt,
    log (run_fn fn work w).2 = log w ++ map EvTxExec stmts
    /\ db (run_fn fn work w).2 = db w
    /\ open_tx (run_fn fn work w).2 = open_tx w
    /\ output (run_fn fn work w).2 = output w.
Proof.
  revert work w.
  induction fn as [err|p|k IH|s k IH]; intros work w; simpl.
  - exists []. rewrite app_nil_r. auto.
  - exists []. rewrite app_nil_r. auto.
  - apply IH.
  - unfold tx_ExecContext.
    pose proof (driver_call_frame (EvTxExec s) w) as (Hd & Ho & Hl & Hp & _).
    destruct (driver_call (EvTxExec s) w) as [f w1]; simpl in *.
    assert (Hstep : forall r work1,
      exists stmts : list Stmt,
        log (run_fn (k r) work1 w1).2 = log w ++ map EvTxExec stmts
        /\ db (run_fn (k r) work1 w1).2 = db w
        /\ open_tx (run_fn (k r) work1 w1).2 = open_tx w
        /\ output (run_fn (k r) work1 w1).2 = output w).
    { intros r work1. destruct (IH r work1 w1) as (stmts & Hl' & Hd' & Ho' & Hp').
      exists (s :: stmts). rewrite Hl', Hl, Hd', Ho', Hp'. simpl.
      rewrite <- app_assoc. auto. }
    destruct f as [err|]; [apply Hstep|].
    destruct (exec_stmt s work); apply Hstep.
Qed.

Lemma tx_ends_app (l1 l2 : list Event) :
  tx_ends (l1 ++ l2) = tx_ends l1 + tx_ends l2.
Proof.
  unfold tx_ends. rewrite List.filter_app, length_app. reflexivity.
Qed.

Lemma tx_ends_TxExec (stmts : list Stmt) : tx_ends (map EvTxExec stmts) = 0.
Proof. induction stmts; simpl; auto. Qed.

(** C5. [WithTransaction] on a transaction it could begin: the callback's
    nil return leads to exactly one [Commit], an error return or a panic
    to exactly one [Rollback] that leaves the committed store as it was;
    the callback's error comes back unchanged unless the rollback fails
    too, in which case the text names both causes and the rollback's
    error is the wrapped one; a panic goes on after the rollback.  In
    every case one call ends the transaction and none is left open. *)
Theorem WithTransaction_commit_xor_rollback (fn : TxFunc) (w w1 : World) :
  db_BeginTx w = (None, w1) ->
  match run_fn fn (db w1) w1, WithTransaction fn w with
  | (r, work, w2), (res, w3) =>
      tx_ends (events_since w w3) = 1
      /\ open_tx w3 = open_tx w
      /\ match r with
         | Return None =>
             log w3 = log w2 ++ [EvCommit]
             /\ match mjoin (head (faults w2)) with
                | None => res = Return None /\ db w3 = work
                | Some cerr =>
                    res = Return (Some (Errorf_w "failed to commit transaction" cerr))
                    /\ db w3 = db w
                end
         | Return (Some err) =>
             log w3 = log w2 ++ [EvRollback]
             /\ db w3 = db w
             /\ match mjoin (head (faults w2)) with
                | None => res = Return (Some err)
                | Some rbErr =>
                    res = Return (Some (wrapError
                            ("transaction error: " +:+ Error err +:+
                             ", rollback error: " +:+ Error rbErr) rbErr))
                end
         | Panic p =>
             log w3 = log w2 ++ [EvRollback] /\ db w3 = db w /\ res = Panic p
         end
  end.
Proof.
  intros Hb. unfold WithTransaction. rewrite Hb.
  assert (Hw1 : db w1 = db w /\ open_tx w1 = S (open_tx w)
                /\ log w1 = log w ++ [EvBegin]).
  { unfold db_BeginTx in Hb.
    pose proof (driver_call_frame EvBegin w) as (Hd & Ho & Hl & _).
    destruct (driver_call EvBegin w) as [f w0]; simpl in *.
    destruct f; inversion Hb; subst; simpl; auto. }
  destruct Hw1 as (Hd1 & Ho1 & Hl1).
  destruct (run_fn_frame fn (db w1) w1) as (stmts & Hl2 & Hd2 & Ho2 & _).
  destruct (run_fn fn (db w1) w1) as [[r work] w2]; simpl in *.
  assert (Hends : forall ev w3, log w3 = log w2 ++ [ev] ->
            tx_ends [ev] = 1 -> tx_ends (events_since w w3) = 1).
  { intros ev w3 Hl3 Hev.
    rewrite (events_since_app w w3 (EvBegin :: map EvTxExec stmts ++ [ev])).
    - change (EvBegin :: map EvTxExec stmts ++ [ev])
        with ([EvBegin] ++ map EvTxExec stmts ++ [ev]).
      rewrite !tx_ends_app, tx_ends_TxExec, Hev. reflexivity.
    - rewrite Hl3, Hl2, Hl1. rewrite <- !app_assoc. reflexivity. }
  destruct r as [[err|]|p].
  - unfold tx_Rollback.
    pose proof (driver_call_frame EvRollback w2) as (Hd & Ho & Hl & _ & _ & Hf).
    destruct (driver_call EvRollback w2) as [f w0]; simpl in *. subst f.
    destruct (mjoin (head (faults w2))); simpl;
      (split; [eapply Hends; [simpl; eassumption | reflexivity]|]);
      (split; [lia|]); repeat split; auto; congruence.
  - unfold tx_Commit.
    pose proof (driver_call_frame EvCommit w2) as (Hd & Ho & Hl & _ & _ & Hf).
    destruct (driver_call EvCommit w2) as [f w0]; simpl in *. subst f.
    destruct (mjoin (head (faults w2))); simpl;
      (split; [eapply Hends; [simpl; eassumption | reflexivity]|]);
      (split; [lia|]); repeat split; auto; congruence.
  - unfold tx_Rollback.
    pose proof (driver_call_frame EvRollback w2) as (Hd & Ho & Hl & _).
    destruct (driver_call EvRollback w2) as [f w0]; simpl in *.
    (split; [eapply Hends; [simpl; eassumption | reflexivity]|]).
    (split; [lia|]); repeat split; auto; congruence.
Qed.

(** ** One migration *)

(** Unfolds the transaction primitives as they come up. *)
Ltac tx_simpl :=
  repeat (progress (simpl;
    unfold tx_ExecContext, tx_Commit, tx_Rollback, driver_call, time_Now,
      set_open_tx, set_db)).

(** Brings a log built call by call to [log w ++ calls]. *)
Ltac log_tac := simpl; repeat rewrite <- app_assoc; reflexivity.

(** What [applyMigration] can do, case by case, for any pending faults:
    committed with both effects, or failed with the committed store as it
    was, after one of four logs. *)
Lemma applyMigration_cases (m : Migration) (w : World) :
  match applyMigration m w with
  | (Return None, w') =>
      exists (t : nat) (st1 : Store),
        exec_stmt (RawSQL (SQL m)) (db w) = inr st1
        /\ exec_stmt (InsertLedger (Version m) (Description m) t) st1 = inr (db w')
        /\ log w' = log w ++
             [EvBegin; EvTxExec (RawSQL (SQL m));
              EvTxExec (InsertLedger (Version m) (Description m) t); EvCommit]
        /\ open_tx w' = open_tx w /\ output w' = output w
  | (Return (Some err), w') =>
      db w' = db w
      /\ open_tx w' = open_tx w
      /\ output w' = output w
      /\ (log w' = log w ++ [EvBegin]
          \/ log w' = log w ++ [EvBegin; EvTxExec (RawSQL (SQL m)); EvRollback]
          \/ (exists t : nat,
                log w' = log w ++
                  [EvBegin; EvTxExec (RawSQL (SQL m));
                   EvTxExec (InsertLedger (Version m) (Description m) t); EvRollback])
          \/ (exists t : nat,
                log w' = log w ++
                  [EvBegin; EvTxExec (RawSQL (SQL m));
                   EvTxExec (InsertLedger (Version m) (Description m) t); EvCommit]))
  | (Panic _, _) => False
  end.
Proof.
  destruct w as [st n l fs o].
  unfold applyMigration, WithTransaction, db_BeginTx, driver_call. simpl.
  destruct fs as [|[e1|] fs]; tx_simpl.
  - (* no fault pending *)
    destruct (ledger st) as [rows|] eqn:El; tx_simpl.
    + destruct (mem_string (Version m) (map RVersion rows)) eqn:Em; tx_simpl.
      * repeat split; auto; right; right; left; eexists; log_tac.
      * eexists _, _; split; [reflexivity|]; split; [simpl; rewrite El, Em; reflexivity|];
          split; [log_tac | split; reflexivity].
    + repeat split; auto; right; right; left; eexists; log_tac.
  - (* BeginTx fails *)
    repeat split; auto; left; log_tac.
  - destruct fs as [|[e2|] fs]; tx_simpl.
    + destruct (ledger st) as [rows|] eqn:El; tx_simpl.
      * destruct (mem_string (Version m) (map RVersion rows)) eqn:Em; tx_simpl.
        -- repeat split; auto; right; right; left; eexists; log_tac.
        -- eexists _, _; split; [reflexivity|]; split; [simpl; rewrite El, Em; reflexivity|];
          split; [log_tac | split; reflexivity].
      * repeat split; auto; right; right; left; eexists; log_tac.
    + (* the body fails *)
      destruct fs as [|[e3|] fs]; tx_simpl;
        (repeat split; auto; right; left; log_tac).
    + destruct fs as [|[e3|] fs]; tx_simpl.
      * destruct (ledger st) as [rows|] eqn:El; tx_simpl.
        -- destruct (mem_string (Version m) (map RVersion rows)) eqn:Em; tx_simpl.
           ++ repeat split; auto; right; right; left; eexists; log_tac.
           ++ eexists _, _; split; [reflexivity|]; split; [simpl; rewrite El, Em; reflexivity|];
          split; [log_tac | split; reflexivity].
        -- repeat split; auto; right; right; left; eexists; log_tac.
      * (* the ledger insert fails in the driver *)
        destruct fs as [|[e4|] fs]; tx_simpl;
          (repeat split; auto; right; right; left; eexists; log_tac).
      * destruct (ledger st) as [rows|] eqn:El; tx_simpl.
        -- destruct (mem_string (Version m) (map RVersion rows)) eqn:Em; tx_simpl.
           ++ destruct fs as [|[e4|] fs]; tx_simpl;
                (repeat split; auto; right; right; left; eexists; log_tac).
           ++ destruct fs as [|[e4|] fs]; tx_simpl.
              ** eexists _, _; split; [reflexivity|]; split; [simpl; rewrite El, Em; reflexivity|];
          split; [log_tac | split; reflexivity].
              ** repeat split; auto; right; right; right; eexists; log_tac.
              ** eexists _, _; split; [reflexivity|]; split; [simpl; rewrite El, Em; reflexivity|];
          split; [log_tac | split; reflexivity].
        -- destruct fs as [|[e4|] fs]; tx_simpl;
             (repeat split; auto; right; right; left; eexists; log_tac).
Qed.

(** C1. [applyMigration] sends the migration body and the ledger row
    inside one transaction.  When it returns nil, the committed store is
    the old one changed by the body and then by the ledger row, and the
    transaction was committed.  When it returns an error, the committed
    store is the old one: a failed body is followed by a rollback and no
    ledger row is ever sent for it; a failed ledger insert is followed by
    a rollback; a failed commit or begin persists nothing either.  The
    call never panics and leaves no transaction open. *)
Theorem applyMigration_atomic (m : Migration) (w : World) :
  match applyMigration m w with
  | (Return None, w') =>
      exists (t : nat) (st1 : Store),
        exec_stmt (RawSQL (SQL m)) (db w) = inr st1
        /\ exec_stmt (InsertLedger (Version m) (Description m) t) st1 = inr (db w')
        /\ events_since w w' =
             [EvBegin; EvTxExec (RawSQL (SQL m));
              EvTxExec (InsertLedger (Version m) (Description m) t); EvCommit]
        /\ open_tx w' = open_tx w
  | (Return (Some err), w') =>
      db w' = db w
      /\ open_tx w' = open_tx w
      /\ (events_since w w' = [EvBegin]
          \/ events_since w w' = [EvBegin; EvTxExec (RawSQL (SQL m)); EvRollback]
          \/ (exists t : nat,
                events_since w w' =
                  [EvBegin; EvTxExec (RawSQL (SQL m));
                   EvTxExec (InsertLedger (Version m) (Description m) t); EvRollback])
          \/ (exists t : nat,
                events_since w w' =
                  [EvBegin; EvTxExec (RawSQL (SQL m));
                   EvTxExec (InsertLedger (Version m) (Description m) t); EvCommit]))
  | (Panic _, _) => False
  end.
Proof.
  pose proof (applyMigration_cases m w) as H.
  destruct (applyMigration m w) as [[[err|]|p] w']; auto.
  - destruct H as (Hd & Ho & _ & Hl). repeat split; auto.
    destruct Hl as [Hl|[Hl|[[t Hl]|[t Hl]]]].
    + left. by apply events_since_app.
    + right; left. by apply events_since_app.
    + right; right; left. exists t. by apply events_since_app.
    + right; right; right. exists t. by apply events_since_app.
  - destruct H as (t & st1 & H1 & H2 & Hl & Ho & _).
    exists t, st1. repeat split; auto. by apply events_since_app.
Qed.


(** ** The order of versions and [sort.Slice] *)

Lemma string_compare_OT (a b : string) :
  String.compare a b = String_as_OT.compare a b.
Proof.
  revert b. induction a as [|c a IH]; intros [|d b]; simpl; auto.
Qed.

Lemma string_less_lt (a b : string) :
  string_less a b = true <-> String_as_OT.lt a b.
Proof.
  unfold string_less, String.ltb, String_as_OT.lt. rewrite string_compare_OT.
  destruct (String_as_OT.compare a b); split; congruence.
Qed.

Lemma string_less_asym (a b : string) :
  string_less a b = true -> string_less b a = false.
Proof.
  intros H. destruct (string_less b a) eqn:E; auto.
  apply string_less_lt in H, E.
  exfalso. apply (StrictOrder_Irreflexive a). by transitivity b.
Qed.

Lemma version_le_cases (a b : string) :
  version_le a b <-> a = b \/ string_less a b = true.
Proof.
  unfold version_le. split.
  - intros H. destruct (String_as_OT.compare_spec a b) as [E|E|E]; auto.
    + right. by apply string_less_lt.
    + apply string_less_lt in E. congruence.
  - intros [->|H].
    + destruct (string_less b b) eqn:E; auto. apply string_less_lt in E.
      by apply StrictOrder_Irreflexive in E.
    + by apply string_less_asym.
Qed.

Lemma version_le_trans : Transitive version_le.
Proof.
  intros a b c Hab Hbc. apply version_le_cases in Hab, Hbc. apply version_le_cases.
  destruct Hab as [->|Hab]; auto. destruct Hbc as [<-|Hbc]; auto.
  right. apply string_less_lt in Hab, Hbc. apply string_less_lt. by transitivity b.
Qed.

Section SortSliceFacts.
Context {A : Type} (less : A -> A -> bool).
Hypothesis less_asym : forall x y, less x y = true -> less y x = false.

Let le (x y : A) : Prop := less y x = false.

Lemma insert_sorted_Permutation (x : A) (l : list A) :
  Permutation (insert_sorted less x l) (x :: l).
Proof.
  induction l as [|y l IH]; simpl; auto.
  destruct (less y x); auto.
  rewrite IH. apply perm_swap.
Qed.

Lemma sort_Slice_Permutation (l : list A) : Permutation (sort_Slice less l) l.
Proof.
  induction l as [|x l IH]; simpl; auto.
  rewrite insert_sorted_Permutation. by constructor.
Qed.

Lemma insert_sorted_HdRel (a x : A) (l : list A) :
  HdRel le a l -> le a x -> HdRel le a (insert_sorted less x l).
Proof.
  intros Hl Hx. destruct l as [|y l]; simpl; [by constructor|].
  destruct (less y x); constructor; auto. by inversion Hl.
Qed.

Lemma insert_sorted_Sorted (x : A) (l : list A) :
  Sorted le l -> Sorted le (insert_sorted less x l).
Proof.
  induction 1 as [|y l Hs IH Hh]; simpl.
  - repeat constructor.
  - destruct (less y x) eqn:E.
    + constructor; auto. apply insert_sorted_HdRel; auto.
      unfold le. by apply less_asym.
    + constructor; [by constructor|]. by constructor.
Qed.

Lemma sort_Slice_Sorted (l : list A) : Sorted le (sort_Slice less l).
Proof.
  induction l as [|x l IH]; simpl; [constructor|].
  by apply insert_sorted_Sorted.
Qed.
End SortSliceFacts.
Lemma sort_migrations_sorted (ms : list Migration) :
  StronglySorted version_le (map Version (sort_Slice migration_less ms)).
Proof.
  apply Sorted_StronglySorted; [apply version_le_trans|].
  pose proof (sort_Slice_Sorted migration_less
                (fun x y => string_less_asym (Version x) (Version y)) ms) as H.
  induction H as [|m l Hs IH Hh]; simpl; constructor; auto.
  destruct Hh; simpl; constructor; auto.
Qed.

(** ** The applied set *)

Lemma mem_string_In (x : string) (l : list string) :
  mem_string x l = true <-> In x l.
Proof.
  unfold mem_string. rewrite existsb_exists. split.
  - intros (y & Hy & E). apply String.eqb_eq in E. by subst.
  - intros H. exists x. split; auto. apply String.eqb_refl.
Qed.

Lemma mem_string_app (x : string) (l1 l2 : list string) :
  mem_string x (l1 ++ l2) = mem_string x l1 || mem_string x l2.
Proof. apply existsb_app. Qed.

Lemma mem_string_Permutation (x : string) (l1 l2 : list string) :
  Permutation l1 l2 -> mem_string x l1 = mem_string x l2.
Proof.
  intros H.
  destruct (mem_string x l1) eqn:E1, (mem_string x l2) eqn:E2; auto.
  - apply mem_string_In in E1. apply (Permutation_in _ H) in E1.
    apply mem_string_In in E1. congruence.
  - apply mem_string_In in E2. apply (Permutation_in _ (Permutation_sym H)) in E2.
    apply mem_string_In in E2. congruence.
Qed.

Lemma appliedMap_get_insert (A : gmap string bool) (k v : string) :
  appliedMap_get (<[k := true]> A) v = String.eqb v k || appliedMap_get A v.
Proof.
  unfold appliedMap_get. destruct (String.eqb_spec v k) as [->|Hne]; simpl.
  - by rewrite lookup_insert_eq.
  - by rewrite lookup_insert_ne.
Qed.

Lemma fold_appliedMap_get (recs : list MigrationRecord) (A : gmap string bool)
    (v : string) :
  appliedMap_get (fold_left (fun m record => <[RVersion record := true]> m) recs A) v
  = appliedMap_get A v || mem_string v (map RVersion recs).
Proof.
  revert A. induction recs as [|r recs IH]; intros A; simpl.
  - by rewrite orb_false_r.
  - rewrite IH, appliedMap_get_insert.
    destruct (String.eqb v (RVersion r)), (appliedMap_get A v); reflexivity.
Qed.

(** The map built by [Apply] answers true exactly on the versions of the
    records it was built from. *)
Lemma make_appliedMap_get (recs : list MigrationRecord) (v : string) :
  appliedMap_get (make_appliedMap recs) v = mem_string v (map RVersion recs).
Proof.
  unfold make_appliedMap. rewrite fold_appliedMap_get.
  unfold appliedMap_get. by rewrite lookup_empty.
Qed.

Lemma tx_events_app (l1 l2 : list Event) :
  tx_events (l1 ++ l2) = tx_events l1 ++ tx_events l2.
Proof. apply List.filter_app. Qed.

Lemma executed_bodies_app (l1 l2 : list Event) :
  executed_bodies (l1 ++ l2) = executed_bodies l1 ++ executed_bodies l2.
Proof. apply omap_app. Qed.

Lemma inserted_versions_app (l1 l2 : list Event) :
  inserted_versions (l1 ++ l2) = inserted_versions l1 ++ inserted_versions l2.
Proof. apply omap_app. Qed.

Lemma no_tx_events_no_bodies (evs : list Event) :
  tx_events evs = [] -> executed_bodies evs = [] /\ inserted_versions evs = [].
Proof.
  induction evs as [|ev evs IH]; simpl; auto.
  destruct ev; simpl; try discriminate; auto.
Qed.

(** ** Reading the ledger *)

Lemma scan_rows_spec (rows acc : list MigrationRecord) (w : World) :
  db (scan_rows rows acc w).2 = db w
  /\ open_tx (scan_rows rows acc w).2 = open_tx w
  /\ output (scan_rows rows acc w).2 = output w
  /\ (exists evs, log (scan_rows rows acc w).2 = log w ++ evs /\ tx_events evs = [])
  /\ match (scan_rows rows acc w).1 with
     | (recs, None) => exists k, recs = acc ++ take k rows
     | (recs, Some err) =>
         recs = [] /\ exists e, err = Errorf_w "failed to scan migration record" e
     end.
Proof.
  revert acc w. induction rows as [|r rows IH]; intros acc w; simpl.
  - pose proof (driver_call_frame EvNext w) as (Hd & Ho & Hl & Hp & _).
    destruct (driver_call EvNext w) as [f w1]; simpl in *.
    repeat split; auto.
    + exists [EvNext]. auto.
    + exists 0. by rewrite app_nil_r.
  - pose proof (driver_call_frame EvNext w) as (Hd & Ho & Hl & Hp & _).
    destruct (driver_call EvNext w) as [f w1]; simpl in *.
    destruct f as [e|]; simpl.
    { repeat split; auto.
      - exists [EvNext]. auto.
      - exists 0. by rewrite app_nil_r. }
    pose proof (driver_call_frame EvScan w1) as (Hd2 & Ho2 & Hl2 & Hp2 & _).
    destruct (driver_call EvScan w1) as [f w2]; simpl in *.
    destruct f as [e|]; simpl.
    { repeat split; try congruence.
      - exists [EvNext; EvScan]. rewrite Hl2, Hl, <- app_assoc. auto.
      - by exists e. }
    destruct (IH (acc ++ [r]) w2) as (Hd3 & Ho3 & Hp3 & (evs & Hl3 & Hn) & Hr).
    repeat split; try congruence.
    + exists ([EvNext; EvScan] ++ evs).
      split; [by rewrite Hl3, Hl2, Hl, <- !app_assoc | by rewrite tx_events_app, Hn].
    + destruct (scan_rows rows (acc ++ [r]) w2).1 as [recs [err|]]; auto.
      destruct Hr as [k ->]. exists (S k). simpl. by rewrite <- app_assoc.
Qed.

(** [GetAppliedMigrations] changes nothing, opens no transaction, and
    returns either an error of the query or of a scan, or some prefix of
    the ordered ledger rows. *)
Lemma GetAppliedMigrations_spec (w : World) :
  db (GetAppliedMigrations w).2 = db w
  /\ open_tx (GetAppliedMigrations w).2 = open_tx w
  /\ output (GetAppliedMigrations w).2 = output w
  /\ (exists evs, log (GetAppliedMigrations w).2 = log w ++ evs /\ tx_events evs = [])
  /\ match (GetAppliedMigrations w).1 with
     | (recs, None) =>
         exists rows k, ledger (db w) = Some rows
                        /\ recs = take k (sort_Slice record_less rows)
     | (recs, Some err) =>
         recs = []
         /\ ((exists e, err = Errorf_w "failed to query migrations" e)
             \/ (exists e, err = Errorf_w "failed to scan migration record" e))
     end.
Proof.
  unfold GetAppliedMigrations, db_QueryLedger.
  pose proof (driver_call_frame (EvQuery SelectLedger) w) as (Hd & Ho & Hl & Hp & _).
  destruct (driver_call (EvQuery SelectLedger) w) as [f w1]; simpl in *.
  assert (Hfail : forall e,
    db w1 = db w /\ open_tx w1 = open_tx w /\ output w1 = output w
    /\ (exists evs, log w1 = log w ++ evs /\ tx_events evs = [])
    /\ ([] = @nil MigrationRecord
        /\ ((exists e0, Errorf_w "failed to query migrations" e
                        = Errorf_w "failed to query migrations" e0)
            \/ (exists e0, Errorf_w "failed to query migrations" e
                           = Errorf_w "failed to scan migration record" e0)))).
  { intros e. repeat split; auto.
    - exists [EvQuery SelectLedger]. auto.
    - left. by exists e. }
  destruct f as [e|]; simpl; [apply Hfail|].
  rewrite Hd. destruct (ledger (db w)) as [rows|] eqn:El; simpl; [|apply Hfail].
  destruct (scan_rows_spec (sort_Slice record_less rows) [] w1)
    as (Hd3 & Ho3 & Hp3 & (evs & Hl3 & Hn) & Hr).
  repeat split; try congruence.
  - exists ([EvQuery SelectLedger] ++ evs).
    split; [by rewrite Hl3, Hl, <- app_assoc | by rewrite tx_events_app, Hn].
  - destruct (scan_rows (sort_Slice record_less rows) [] w1).1 as [recs [err|]].
    + destruct Hr as [-> Hr]. auto.
    + destruct Hr as [k ->]. by exists rows, k.
Qed.

Lemma scan_rows_quiet (rows acc : list MigrationRecord) (w : World) :
  quiet w ->
  exists evs,
    tx_events evs = []
    /\ scan_rows rows acc w =
       ((acc ++ rows, None),
        mkWorld (db w) (open_tx w) (log w ++ evs) [] (output w)).
Proof.
  revert acc w. induction rows as [|r rows IH]; intros acc w Hq; simpl.
  - rewrite driver_call_quiet by done. exists [EvNext]. by rewrite app_nil_r.
  - rewrite driver_call_quiet by done. rewrite driver_call_quiet by done. simpl.
    destruct (IH (acc ++ [r])
                (mkWorld (db w) (open_tx w) ((log w ++ [EvNext]) ++ [EvScan]) []
                   (output w))) as (evs & Hn & ->); [done|].
    exists ([EvNext; EvScan] ++ evs). split.
    + by rewrite tx_events_app, Hn.
    + simpl. rewrite <- !app_assoc. reflexivity.
Qed.

(** With no fault pending the whole ledger is returned, in version
    order. *)
Lemma GetAppliedMigrations_quiet (w : World) (rows : list MigrationRecord) :
  quiet w -> ledger (db w) = Some rows ->
  exists evs,
    tx_events evs = []
    /\ GetAppliedMigrations w =
       ((sort_Slice record_less rows, None),
        mkWorld (db w) (open_tx w) (log w ++ evs) [] (output w)).
Proof.
  intros Hq El. unfold GetAppliedMigrations, db_QueryLedger.
  rewrite driver_call_quiet by done. simpl. rewrite El.
  destruct (scan_rows_quiet (sort_Slice record_less rows) []
              (mkWorld (db w) (open_tx w) (log w ++ [EvQuery SelectLedger]) []
                 (output w))) as (evs & Hn & ->); [done|].
  exists ([EvQuery SelectLedger] ++ evs). split.
  - by rewrite tx_events_app, Hn.
  - simpl. rewrite <- !app_assoc. reflexivity.
Qed.

(** ** The ledger table *)

Lemma ensureMigrationsTable_spec (w : World) :
  open_tx (ensureMigrationsTable w).2 = open_tx w
  /\ output (ensureMigrationsTable w).2 = output w
  /\ log (ensureMigrationsTable w).2 = log w ++ [EvExec CreateLedgerTable]
  /\ schema (db (ensureMigrationsTable w).2) = schema (db w)
  /\ ledger_versions (db (ensureMigrationsTable w).2) = ledger_versions (db w)
  /\ match (ensureMigrationsTable w).1 with
     | None => True
     | Some err => exists e, err = Errorf_w "failed to create migrations table" e
     end.
Proof.
  unfold ensureMigrationsTable.
  pose proof (db_ExecContext_frame CreateLedgerTable w) as (Ho & Hl & Hp & _).
  pose proof (db_ExecContext_db CreateLedgerTable w) as Hd.
  destruct (db_ExecContext CreateLedgerTable w) as [[err|] w1]; simpl in *.
  - rewrite Hd. repeat split; auto. by exists err.
  - repeat split; auto.
    + destruct (ledger (db w)); inversion Hd; auto.
    + unfold ledger_versions.
      destruct (ledger (db w)) eqn:E; inversion Hd as [Hst]; [by rewrite E|auto].
Qed.

Lemma ensureMigrationsTable_quiet (w : World) :
  quiet w ->
  exists st,
    ensureMigrationsTable w =
      (None, mkWorld st (open_tx w) (log w ++ [EvExec CreateLedgerTable]) [] (output w))
    /\ schema st = schema (db w)
    /\ ledger st = Some (default [] (ledger (db w)))
    /\ (is_Some (ledger (db w)) -> st = db w).
Proof.
  intros Hq. unfold ensureMigrationsTable. rewrite db_ExecContext_quiet by done.
  simpl. destruct (ledger (db w)) eqn:E; eexists; split; try reflexivity; simpl; auto.
  repeat split; auto. intros [x Hx]. discriminate.
Qed.

(** ** The loop over the sorted migrations *)

(** What a committed migration changed. *)
Lemma commit_effect (m : Migration) (t : nat) (st st1 st2 : Store) :
  exec_stmt (RawSQL (SQL m)) st = inr st1 ->
  exec_stmt (InsertLedger (Version m) (Description m) t) st1 = inr st2 ->
  schema st2 = schema st ++ [SQL m]
  /\ ledger_versions st2 = ledger_versions st ++ [Version m]
  /\ mem_string (Version m) (ledger_versions st) = false.
Proof.
  simpl. intros H1 H2. inversion H1; subst st1; clear H1. simpl in H2.
  unfold ledger_versions.
  destruct (ledger st) as [rows|]; [|discriminate].
  destruct (mem_string (Version m) (map RVersion rows)) eqn:E; [discriminate|].
  inversion H2; subst st2; simpl. rewrite map_app. auto.
Qed.

Lemma pending_cons (applied : list string) (m : Migration) (l : list Migration) :
  pending applied (m :: l) =
  if mem_string (Version m) applied then pending applied l
  else m :: pending applied l.
Proof. unfold pending. simpl. by destruct (mem_string (Version m) applied). Qed.

(** The loop of [Apply], for any pending faults: it commits an initial
    segment [pre] of the pending migrations, in their order, and either
    reaches the end or stops at the first one, [m], that fails, with an
    error that carries [m]'s version; nothing after [m] is sent. *)
Lemma apply_pending_run (A : gmap string bool) (applied : list string)
    (l : list Migration) (w : World) :
  (forall v, appliedMap_get A v = mem_string v applied) ->
  exists (pre post : list Migration) (evs : list Event),
    pending applied l = pre ++ post
    /\ log (apply_pending A l w).2 = log w ++ evs
    /\ committed_after w (apply_pending A l w).2 pre
    /\ Forall (fun m => mem_string (Version m) (ledger_versions (db w)) = false) pre
    /\ List.NoDup (map Version pre)
    /\ ((apply_pending A l w).1 = Return None
        /\ post = []
        /\ executed_bodies evs = map SQL pre
        /\ inserted_versions evs = map Version pre
        \/ exists (m : Migration) (post' : list Migration) (cause : error),
             post = m :: post'
             /\ (apply_pending A l w).1 =
                  Return (Some (Errorf_w ("failed to apply migration " +:+ Version m)
                                  cause))
             /\ (executed_bodies evs = map SQL pre
                 \/ executed_bodies evs = map SQL pre ++ [SQL m])
             /\ (inserted_versions evs = map Version pre
                 \/ inserted_versions evs = map Version pre ++ [Version m])).
Proof.
  intros HA. revert w. induction l as [|m l IH]; intros w.
  - exists [], [], []. simpl. unfold committed_after. simpl.
    rewrite !app_nil_r. repeat split; auto. constructor.
  - rewrite pending_cons. simpl. rewrite HA.
    destruct (mem_string (Version m) applied) eqn:Em; simpl; [apply IH|].
    pose proof (applyMigration_cases m w) as Hc.
    destruct (applyMigration m w) as [[[err|]|p] w1]; simpl; [| |done].
    + (* [m] fails: nothing was committed here *)
      destruct Hc as (Hd & Ho & Hp & Hl).
      assert (Hgo : forall evs, log w1 = log w ++ evs ->
                (executed_bodies evs = [] \/ executed_bodies evs = [SQL m]) ->
                (inserted_versions evs = [] \/ inserted_versions evs = [Version m]) ->
                exists (pre post : list Migration) (evs : list Event),
                  m :: pending applied l = pre ++ post
                  /\ log w1 = log w ++ evs
                  /\ committed_after w w1 pre
                  /\ Forall (fun m => mem_string (Version m)
                                        (ledger_versions (db w)) = false) pre
                  /\ List.NoDup (map Version pre)
                  /\ (Return (Some (Errorf_w ("failed to apply migration "
                                               +:+ Version m) err))
                      = Return None
                      /\ post = []
                      /\ executed_bodies evs = map SQL pre
                      /\ inserted_versions evs = map Version pre
                      \/ exists (m0 : Migration) (post' : list Migration)
                           (cause : error),
                           post = m0 :: post'
                           /\ Return (Some (Errorf_w ("failed to apply migration "
                                                       +:+ Version m) err))
                              = Return (Some (Errorf_w ("failed to apply migration "
                                                         +:+ Version m0) cause))
                           /\ (executed_bodies evs = map SQL pre
                               \/ executed_bodies evs = map SQL pre ++ [SQL m0])
                           /\ (inserted_versions evs = map Version pre
                               \/ inserted_versions evs
                                  = map Version pre ++ [Version m0]))).
      { intros evs Hlog Hb Hi. exists [], (m :: pending applied l), evs.
        unfold committed_after. rewrite Hd, Ho, Hp. simpl. rewrite !app_nil_r.
        repeat split; auto; [constructor|].
        right. exists m, (pending applied l), err. auto. }
      destruct Hl as [Hl|[Hl|[[t Hl]|[t Hl]]]];
        (eapply Hgo; [exact Hl | simpl; auto | simpl; auto]).
    + (* [m] is committed, the loop goes on *)
      destruct Hc as (t & st1 & H1 & H2 & Hl & Ho & Hp).
      destruct (commit_effect m t (db w) st1 (db w1) H1 H2) as (Hs & Hv & Hm).
      destruct (IH (Println (applied_line m) w1))
        as (pre & post & evs & Hpend & Hlog & Hcom & Hfresh & Hnd & Hres).
      destruct Hcom as (Cs & Cv & Cout & Cop). simpl in *.
      exists (m :: pre), post,
        ([EvBegin; EvTxExec (RawSQL (SQL m));
          EvTxExec (InsertLedger (Version m) (Description m) t); EvCommit] ++ evs).
      split; [by rewrite Hpend|].
      split; [by rewrite Hlog, Hl, <- app_assoc|].
      split.
      { unfold committed_after. simpl.
        rewrite Cs, Cv, Cout, Cop, Hs, Hv, Hp, Ho, <- !app_assoc. auto. }
      split.
      { constructor; auto.
        eapply Forall_impl; [exact Hfresh|]. simpl. intros m' Hm'.
        rewrite Hv, mem_string_app in Hm'. by apply orb_false_iff in Hm' as [? _]. }
      split.
      { simpl. apply List.NoDup_cons_iff. split; [|done].
        intros Hin. apply in_map_iff in Hin as (m' & Hv' & Hin).
        rewrite Forall_forall in Hfresh. apply list_elem_of_In, Hfresh in Hin.
        rewrite Hv, mem_string_app, Hv' in Hin. simpl in Hin.
        rewrite String.eqb_refl in Hin. simpl in Hin.
        by rewrite orb_true_r in Hin. }
      rewrite executed_bodies_app, inserted_versions_app. simpl.
      destruct Hres as [(Hr & -> & Hb & Hi)|(m0 & post' & cause & -> & Hr & Hb & Hi)].
      * left. rewrite Hb, Hi. auto.
      * right. exists m0, post', cause. repeat split; auto.
        -- destruct Hb as [->| ->]; auto.
        -- destruct Hi as [->| ->]; auto.
Qed.

(** When every migration is already in the applied set the loop does
    nothing at all. *)
Lemma apply_pending_all_applied (A : gmap string bool) (l : list Migration)
    (w : World) :
  Forall (fun m => appliedMap_get A (Version m) = true) l ->
  apply_pending A l w = (Return None, w).
Proof.
  induction 1 as [|m l Hm _ IH]; simpl; auto. by rewrite Hm.
Qed.

(** ** Runs with no fault pending *)

Lemma applyMigration_quiet (m : Migration) (w : World) (rows : list MigrationRecord) :
  quiet w ->
  ledger (db w) = Some rows ->
  mem_string (Version m) (map RVersion rows) = false ->
  applyMigration m w =
    (Return None,
     mkWorld
       (set_ledger
          (Some (rows ++ [mkMigrationRecord (Version m) (length (log w) + 2)
                            (Description m)]))
          (set_schema (schema (db w) ++ [SQL m]) (db w)))
       (open_tx w)
       (log w ++ [EvBegin; EvTxExec (RawSQL (SQL m));
                  EvTxExec (InsertLedger (Version m) (Description m)
                              (length (log w) + 2));
                  EvCommit])
       [] (output w)).
Proof.
  destruct w as [st n l fs o]. unfold quiet. simpl. intros -> El Em.
  unfold applyMigration, WithTransaction, db_BeginTx, driver_call. tx_simpl.
  rewrite El, Em. tx_simpl.
  rewrite !length_app. simpl.
  replace (length l + 1 + 1) with (length l + 2) by lia.
  repeat rewrite <- app_assoc. reflexivity.
Qed.

Lemma NoDup_map_filter {A B : Type} (f : A -> B) (p : A -> bool) (l : list A) :
  List.NoDup (map f l) -> List.NoDup (map f (List.filter p l)).
Proof.
  induction l as [|x l IH]; simpl; auto.
  intros H. apply List.NoDup_cons_iff in H as [Hx Hl].
  destruct (p x); simpl; auto.
  apply List.NoDup_cons_iff. split; auto.
  intros Hin. apply Hx. apply in_map_iff in Hin as (y & Hy & Hin).
  apply filter_In in Hin as [Hin _]. apply in_map_iff. eauto.
Qed.

(** With no fault pending, on a ledger that holds none of the pending
    versions, and with pairwise distinct pending versions, the loop
    commits every pending migration. *)
Lemma apply_pending_quiet_ok (A : gmap string bool) (applied : list string)
    (l : list Migration) (w : World) (rows : list MigrationRecord) :
  (forall v, appliedMap_get A v = mem_string v applied) ->
  quiet w ->
  ledger (db w) = Some rows ->
  List.NoDup (map Version (pending applied l)) ->
  Forall (fun m => mem_string (Version m) (map RVersion rows) = false)
         (pending applied l) ->
  (apply_pending A l w).1 = Return None /\ quiet (apply_pending A l w).2.
Proof.
  intros HA. revert w rows. induction l as [|m l IH]; intros w rows Hq El Hnd Hfresh.
  - simpl. auto.
  - rewrite pending_cons in Hnd, Hfresh. simpl. rewrite HA.
    destruct (mem_string (Version m) applied) eqn:Em; [by eapply IH|].
    simpl in Hnd. apply List.NoDup_cons_iff in Hnd as [Hm Hnd].
    apply Forall_cons in Hfresh as [Hmf Hfresh].
    rewrite (applyMigration_quiet m w rows) by done.
    eapply IH; [done | reflexivity | done |].
    apply Forall_forall. intros m' Hin.
    rewrite map_app, mem_string_app. simpl.
    rewrite Forall_forall in Hfresh. rewrite (Hfresh m' Hin). simpl.
    rewrite orb_false_r. apply String.eqb_neq. intros E. apply Hm.
    rewrite <- E. apply in_map. by apply list_elem_of_In.
Qed.

(** ** Whole runs of [Apply] *)

Lemma sort_record_versions (rows : list MigrationRecord) (v : string) :
  mem_string v (map RVersion (sort_Slice record_less rows))
  = mem_string v (map RVersion rows).
Proof.
  apply mem_string_Permutation, Permutation_map, sort_Slice_Permutation.
Qed.

Lemma pending_nil (l : list Migration) : pending [] l = l.
Proof.
  unfold pending. induction l as [|m l IH]; [done|].
  change (m :: List.filter (fun m => negb (mem_string (Version m) [])) l = m :: l).
  by rewrite IH.
Qed.

(** [Apply] for any pending faults.  It reads a set [applied] of versions
    that are all in the ledger, commits an initial segment [pre] of the
    migrations pending with respect to [applied] in sorted order, and
    ends in one of three ways: all were committed; the first failing
    migration [m] stopped the run; or the ledger could not be prepared or
    read and no transaction was begun. *)
Lemma Apply_run (ms : list Migration) (w : World) :
  exists (applied : list string) (pre post : list Migration) (evs : list Event),
    (forall v, In v applied -> In v (ledger_versions (db w)))
    /\ pending applied (sort_Slice migration_less ms) = pre ++ post
    /\ log (Apply ms w).2 = log w ++ evs
    /\ committed_after w (Apply ms w).2 pre
    /\ Forall (fun m => mem_string (Version m) (ledger_versions (db w)) = false) pre
    /\ List.NoDup (map Version pre)
    /\ ((Apply ms w).1 = Return None
        /\ post = []
        /\ executed_bodies evs = map SQL pre
        /\ inserted_versions evs = map Version pre
        \/ (exists (m : Migration) (post' : list Migration) (cause : error),
              post = m :: post'
              /\ (Apply ms w).1 =
                   Return (Some (Errorf_w ("failed to apply migration " +:+ Version m)
                                   cause))
              /\ (executed_bodies evs = map SQL pre
                  \/ executed_bodies evs = map SQL pre ++ [SQL m])
              /\ (inserted_versions evs = map Version pre
                  \/ inserted_versions evs = map Version pre ++ [Version m]))
        \/ (exists e : error,
              pre = [] /\ tx_events evs = []
              /\ ((Apply ms w).1
                    = Return (Some (Errorf_w "failed to create migrations table" e))
                  \/ (Apply ms w).1
                     = Return (Some (Errorf_w "failed to query migrations" e))
                  \/ (Apply ms w).1
                     = Return (Some (Errorf_w "failed to scan migration record" e))))).
Proof.
  unfold Apply.
  pose proof (ensureMigrationsTable_spec w) as (Ho1 & Hp1 & Hl1 & Hs1 & Hv1 & He1).
  destruct (ensureMigrationsTable w) as [err1 w1]; simpl in *.
  destruct err1 as [err1|].
  { destruct He1 as [e ->]. simpl.
    exists [], [], (sort_Slice migration_less ms), [EvExec CreateLedgerTable].
    unfold committed_after. simpl. rewrite Hs1, Hv1, Hp1, Ho1, !app_nil_r.
    repeat split; auto.
    - intros v [].
    - apply pending_nil.
    - constructor.
    - right; right. exists e. auto. }
  pose proof (GetAppliedMigrations_spec w1) as (Hd2 & Ho2 & Hp2 & (evs2 & Hl2 & Hn2) & Hr2).
  destruct (GetAppliedMigrations w1) as [[recs err2] w2]; simpl in *.
  destruct err2 as [err2|].
  { destruct Hr2 as [_ Hr2]. simpl.
    exists [], [], (sort_Slice migration_less ms), ([EvExec CreateLedgerTable] ++ evs2).
    unfold committed_after. simpl.
    rewrite Hd2, Hs1, Hv1, Hp2, Hp1, Ho2, Ho1, Hl2, Hl1, !app_nil_r, <- app_assoc.
    repeat split; auto.
    - intros v [].
    - apply pending_nil.
    - constructor.
    - right; right. destruct Hr2 as [[e ->]|[e ->]]; exists e; auto. }
  destruct Hr2 as (rows & k & El & ->).
  set (applied := map RVersion (take k (sort_Slice record_less rows))).
  destruct (apply_pending_run
              (make_appliedMap (take k (sort_Slice record_less rows)))
              applied (sort_Slice migration_less ms) w2)
    as (pre & post & evs & Hpend & Hlog & Hcom & Hfresh & Hnd & Hres).
  { intros v. apply make_appliedMap_get. }
  exists applied, pre, post, ([EvExec CreateLedgerTable] ++ evs2 ++ evs).
  destruct Hcom as (Cs & Cv & Cout & Cop).
  assert (Hin : forall v, In v applied -> In v (ledger_versions (db w))).
  { intros v Hv. rewrite <- Hv1. unfold ledger_versions. rewrite El. simpl.
    unfold applied in Hv. apply in_map_iff in Hv as (r & <- & Hr).
    apply in_map. apply (Permutation_in r (sort_Slice_Permutation record_less rows)).
    rewrite <- (take_drop k (sort_Slice record_less rows)). apply in_or_app. by left. }
  split; [done|]. split; [done|].
  split; [by rewrite Hlog, Hl2, Hl1, <- !app_assoc|].
  split.
  { unfold committed_after. by rewrite Cs, Cv, Cout, Cop, Hd2, Hs1, Hv1, Hp2, Hp1, Ho2, Ho1. }
  split; [by rewrite Hd2, Hv1 in Hfresh|].
  split; [done|].
  assert (Hb : executed_bodies ([EvExec CreateLedgerTable] ++ evs2 ++ evs)
               = executed_bodies evs
               /\ inserted_versions ([EvExec CreateLedgerTable] ++ evs2 ++ evs)
                  = inserted_versions evs).
  { destruct (no_tx_events_no_bodies evs2 Hn2) as [Hb Hi].
    rewrite !executed_bodies_app, !inserted_versions_app, Hb, Hi. auto. }
  destruct Hb as [-> ->].
  destruct Hres as [Hres|Hres]; auto.
Qed.

Lemma driver_call_cons (ev : Event) (w : World) (f : option error)
    (fs : list (option error)) :
  faults w = f :: fs ->
  driver_call ev w = (f, mkWorld (db w) (open_tx w) (log w ++ [ev]) fs (output w)).
Proof. unfold driver_call. by intros ->. Qed.

(** A run of the loop never drops the ledger table. *)
Lemma apply_pending_keeps_ledger (A : gmap string bool) (l : list Migration)
    (w : World) :
  is_Some (ledger (db w)) -> is_Some (ledger (db (apply_pending A l w).2)).
Proof.
  revert w. induction l as [|m l IH]; intros w Hw; simpl; auto.
  destruct (appliedMap_get A (Version m)); [by apply IH|].
  pose proof (applyMigration_cases m w) as Hc.
  destruct (applyMigration m w) as [[[err|]|p] w1]; simpl; [| |done].
  - destruct Hc as (-> & _). done.
  - apply IH. simpl. destruct Hc as (t & st1 & H1 & H2 & _).
    simpl in H2. destruct (ledger st1); [|discriminate].
    destruct (mem_string _ _); [discriminate|]. inversion H2. simpl. eauto.
Qed.

Lemma Apply_ok_has_ledger (ms : list Migration) (w : World) :
  (Apply ms w).1 = Return None -> is_Some (ledger (db (Apply ms w).2)).
Proof.
  unfold Apply.
  pose proof (db_ExecContext_db CreateLedgerTable w) as Hd.
  unfold ensureMigrationsTable.
  destruct (db_ExecContext CreateLedgerTable w) as [[err1|] w1]; simpl in *;
    [discriminate|].
  pose proof (GetAppliedMigrations_spec w1) as (Hd2 & _).
  destruct (GetAppliedMigrations w1) as [[recs [err2|]] w2]; simpl in *;
    [discriminate|].
  intros _. apply apply_pending_keeps_ledger. rewrite Hd2.
  destruct (ledger (db w)) eqn:E; inversion Hd; simpl; eauto.
Qed.

(** [Apply] with no fault pending and pairwise distinct pending versions:
    it returns nil after committing, in sorted order, exactly the
    migrations whose version is not in the ledger. *)
Lemma Apply_quiet (ms : list Migration) (w : World) :
  quiet w ->
  List.NoDup (map Version
                (pending (ledger_versions (db w)) (sort_Slice migration_less ms))) ->
  exists evs : list Event,
    (Apply ms w).1 = Return None
    /\ quiet (Apply ms w).2
    /\ log (Apply ms w).2 = log w ++ evs
    /\ committed_after w (Apply ms w).2
         (pending (ledger_versions (db w)) (sort_Slice migration_less ms))
    /\ executed_bodies evs =
         map SQL (pending (ledger_versions (db w)) (sort_Slice migration_less ms))
    /\ inserted_versions evs =
         map Version (pending (ledger_versions (db w)) (sort_Slice migration_less ms)).
Proof.
  intros Hq Hnd. unfold Apply.
  destruct (ensureMigrationsTable_quiet w Hq) as (st & -> & Hs & El & _). simpl.
  set (wa := mkWorld st (open_tx w) (log w ++ [EvExec CreateLedgerTable]) []
               (output w)).
  destruct (GetAppliedMigrations_quiet wa (default [] (ledger (db w))))
    as (evs2 & Hn2 & ->); [done|done|]. simpl.
  set (rows := default [] (ledger (db w))) in *.
  set (wb := mkWorld st (open_tx w) ((log w ++ [EvExec CreateLedgerTable]) ++ evs2) []
               (output w)).
  set (A := make_appliedMap (sort_Slice record_less rows)).
  set (pend := pending (ledger_versions (db w)) (sort_Slice migration_less ms)) in *.
  assert (HA : forall v, appliedMap_get A v = mem_string v (ledger_versions (db w))).
  { intros v. unfold A. rewrite make_appliedMap_get. apply sort_record_versions. }
  destruct (apply_pending_quiet_ok A (ledger_versions (db w))
              (sort_Slice migration_less ms) wb rows HA) as [Hok Hq'];
    [done|done|done| |].
  { apply Forall_forall. intros m Hm. apply list_elem_of_In in Hm.
    apply filter_In in Hm as [_ Hm]. by apply negb_true_iff in Hm. }
  destruct (apply_pending_run A (ledger_versions (db w))
              (sort_Slice migration_less ms) wb HA)
    as (pre & post & evs & Hpend & Hlog & Hcom & _ & _ & Hres).
  destruct Hres as [(_ & -> & Hb & Hi)|(m & post' & cause & _ & Hr & _)];
    [|rewrite Hok in Hr; discriminate].
  rewrite app_nil_r in Hpend. fold pend in Hpend. subst pre.
  exists ([EvExec CreateLedgerTable] ++ evs2 ++ evs).
  split; [done|]. split; [done|].
  split; [by rewrite Hlog; simpl; rewrite <- !app_assoc|].
  split.
  { destruct Hcom as (Cs & Cv & Cout & Cop). unfold committed_after.
    rewrite Cs, Cv, Cout, Cop. simpl. rewrite Hs. unfold ledger_versions.
    rewrite El. auto. }
  destruct (no_tx_events_no_bodies evs2 Hn2) as [Hb2 Hi2].
  rewrite !executed_bodies_app, !inserted_versions_app, Hb2, Hi2. auto.
Qed.

Lemma filter_Permutation_bool {A : Type} (p : A -> bool) (l l' : list A) :
  Permutation l l' -> Permutation (List.filter p l) (List.filter p l').
Proof.
  induction 1 as [|x l l' _ IH|x y l|l l' l'' _ IH1 _ IH2]; simpl.
  - constructor.
  - destruct (p x); auto.
  - destruct (p x), (p y); auto. apply perm_swap.
  - by etransitivity.
Qed.

Lemma StronglySorted_map_filter {A B : Type} (R : B -> B -> Prop) (f : A -> B)
    (p : A -> bool) (l : list A) :
  StronglySorted R (map f l) -> StronglySorted R (map f (List.filter p l)).
Proof.
  induction l as [|x l IH]; simpl; auto.
  intros H. apply StronglySorted_inv in H as [Hl Hx].
  destruct (p x); simpl; auto.
  constructor; auto.
  apply Forall_forall. intros y Hy. apply list_elem_of_In in Hy.
  apply in_map_iff in Hy as (z & <- & Hz). apply filter_In in Hz as [Hz _].
  rewrite Forall_forall in Hx. apply Hx. apply list_elem_of_In. by apply in_map.
Qed.

Lemma pending_sorted_order (applied : list string) (ms : list Migration) :
  Permutation (pending applied (sort_Slice migration_less ms)) (pending applied ms)
  /\ StronglySorted version_le
       (map Version (pending applied (sort_Slice migration_less ms))).
Proof.
  split.
  - apply filter_Permutation_bool, sort_Slice_Permutation.
  - apply StronglySorted_map_filter, sort_migrations_sorted.
Qed.

Lemma StronglySorted_strict (l : list string) :
  StronglySorted version_le l ->
  List.NoDup l ->
  StronglySorted (fun a b => string_less a b = true) l.
Proof.
  induction 1 as [|a l Hs IH Ha]; intros Hnd; constructor.
  - apply IH. by apply List.NoDup_cons_iff in Hnd as [_ ?].
  - apply List.NoDup_cons_iff in Hnd as [Hnotin _].
    apply Forall_forall. intros b Hb. rewrite Forall_forall in Ha.
    destruct (proj1 (version_le_cases a b) (Ha b Hb)) as [->|Hlt]; [|done].
    exfalso. apply Hnotin. by apply list_elem_of_In.
Qed.

(** C2. For any declaration order and any pending faults, [Apply] works
    through the pending migrations in ascending order of version: the
    migrations it commits, [committed], then the one it stopped at after
    sending its body, if any, then the pending ones it did not reach,
    [later], are the pending part of the input with versions in
    ascending order, so no migration is sent before a pending one with a
    smaller version; the committed versions are strictly ascending.
    Versions 001, 003, 002 declared in that order on an empty ledger are
    applied as 001, 002, 003. *)
Theorem Apply_ascending_version_order (ms : list Migration) (w : World) :
  (exists (applied : list string) (committed stopped later : list Migration),
     (forall v, In v applied -> In v (ledger_versions (db w)))
     /\ Permutation (committed ++ stopped ++ later) (pending applied ms)
     /\ StronglySorted version_le (map Version (committed ++ stopped ++ later))
     /\ StronglySorted (fun a b => string_less a b = true) (map Version committed)
     /\ committed_after w (Apply ms w).2 committed
     /\ length stopped <= 1
     /\ executed_bodies (events_since w (Apply ms w).2)
        = map SQL (committed ++ stopped))
  /\ (forall (d1 d2 d3 s1 s2 s3 : string) (w0 : World),
        quiet w0 ->
        ledger_versions (db w0) = [] ->
        let declared := [mkMigration "001" d1 s1; mkMigration "003" d3 s3;
                         mkMigration "002" d2 s2] in
        (Apply declared w0).1 = Return None
        /\ executed_bodies (events_since w0 (Apply declared w0).2) = [s1; s2; s3]
        /\ inserted_versions (events_since w0 (Apply declared w0).2)
           = ["001"; "002"; "003"]).
Proof.
  split.
  - destruct (Apply_run ms w)
      as (applied & pre & post & evs & Hin & Hpend & Hlog & Hcom & _ & Hnd & Hres).
    destruct (pending_sorted_order applied ms) as [Hperm Hsort].
    rewrite (events_since_app _ _ _ Hlog).
    rewrite Hpend in Hperm, Hsort.
    assert (Hstrict : StronglySorted (fun a b => string_less a b = true)
                        (map Version pre)).
    { apply StronglySorted_strict; [|done].
      rewrite map_app in Hsort. by apply StronglySorted_app_1_l in Hsort. }
    destruct Hres as [(_ & -> & Hb & _)|[(m & post' & cause & -> & _ & Hb & _)|
                                         (e & -> & Hn & _)]].
    + exists applied, pre, [], []. simpl. rewrite !app_nil_r in *. auto 10.
    + destruct Hb as [Hb|Hb].
      * exists applied, pre, [], (m :: post'). simpl. rewrite app_nil_r. auto 10.
      * exists applied, pre, [m], post'. simpl. rewrite Hb.
        do 5 (split; [done|]). split; [lia|]. by rewrite map_app.
    + exists applied, [], [], post. simpl in *.
      destruct (no_tx_events_no_bodies evs Hn) as [-> _]. auto 10.
  - intros d1 d2 d3 s1 s2 s3 w0 Hq Hl declared.
    assert (Hs : sort_Slice migration_less declared
                 = [mkMigration "001" d1 s1; mkMigration "002" d2 s2;
                    mkMigration "003" d3 s3]) by reflexivity.
    destruct (Apply_quiet declared w0 Hq) as (evs & Hok & _ & Hlog & _ & Hb & Hi).
    { rewrite Hl, pending_nil, Hs. simpl.
      repeat constructor; simpl; intuition discriminate. }
    rewrite (events_since_app _ _ _ Hlog), Hb, Hi, Hl, pending_nil, Hs. auto.
Qed.

(** C3. After a run of [Apply] that returned nil, a second run over the
    same migrations with no fault pending returns nil, leaves the store
    and the output as they are, begins no transaction and so sends no
    body and no ledger row.  Over both runs the bodies sent are those of
    the migrations whose version was not in the ledger at the start, each
    once, in sorted order. *)
Theorem Apply_twice_applies_once (ms : list Migration) (w w1 : World) :
  Apply ms w = (Return None, w1) ->
  quiet w1 ->
  exists w2 : World,
    Apply ms w1 = (Return None, w2)
    /\ db w2 = db w1
    /\ output w2 = output w1
    /\ tx_events (events_since w1 w2) = []
    /\ executed_bodies (events_since w1 w2) = []
    /\ inserted_versions (events_since w1 w2) = []
    /\ executed_bodies (events_since w w1) ++ executed_bodies (events_since w1 w2)
       = map SQL (pending (ledger_versions (db w)) (sort_Slice migration_less ms)).
Proof.
  intros Hrun Hq.
  (* the first run *)
  pose proof (Apply_ok_has_ledger ms w) as Hled.
  destruct (Apply_run ms w)
    as (applied & pre & post & evs & Hin & Hpend & Hlog & Hcom & Hfresh & _ & Hres).
  rewrite Hrun in *. simpl in *.
  destruct Hres as [(_ & -> & Hb & _)|[(m & post' & cause & _ & Hr & _)|
                                       (e & _ & _ & [Hr|[Hr|Hr]])]];
    try discriminate.
  rewrite app_nil_r in Hpend. subst pre.
  destruct Hcom as (_ & Cv & _).
  assert (Hall : Forall (fun m => mem_string (Version m) (ledger_versions (db w1)) = true)
                   (sort_Slice migration_less ms)).
  { apply Forall_forall. intros m Hm. apply list_elem_of_In in Hm.
    rewrite Cv, mem_string_app.
    destruct (mem_string (Version m) applied) eqn:Em.
    - apply mem_string_In, Hin, mem_string_In in Em. by rewrite Em.
    - apply orb_true_iff. right. apply mem_string_In, in_map.
      apply filter_In. split; auto. by rewrite Em. }
  assert (Hsame : pending applied (sort_Slice migration_less ms)
                  = pending (ledger_versions (db w)) (sort_Slice migration_less ms)).
  { apply filter_ext_in. intros m Hm. f_equal.
    destruct (mem_string (Version m) applied) eqn:Em.
    - apply mem_string_In, Hin, mem_string_In in Em. by rewrite Em.
    - rewrite Forall_forall in Hfresh. symmetry. apply Hfresh.
      apply list_elem_of_In, filter_In. split; auto. by rewrite Em. }
  (* the second run *)
  destruct (Hled eq_refl) as [rows El].
  unfold Apply.
  destruct (ensureMigrationsTable_quiet w1 Hq) as (st & -> & _ & _ & Hst). simpl.
  rewrite (Hst ltac:(eauto)).
  destruct (GetAppliedMigrations_quiet
              (mkWorld (db w1) (open_tx w1) (log w1 ++ [EvExec CreateLedgerTable]) []
                 (output w1)) rows) as (evs2 & Hn2 & ->); [done|done|]. simpl.
  rewrite apply_pending_all_applied.
  2:{ eapply Forall_impl; [exact Hall|]. simpl. intros m Hm.
      rewrite make_appliedMap_get, sort_record_versions.
      unfold ledger_versions in Hm. by rewrite El in Hm. }
  eexists. split; [reflexivity|]. simpl.
  assert (Hev : events_since w1
                  (mkWorld (db w1) (open_tx w1)
                     ((log w1 ++ [EvExec CreateLedgerTable]) ++ evs2) [] (output w1))
                = [EvExec CreateLedgerTable] ++ evs2).
  { apply events_since_app. simpl. by rewrite <- app_assoc. }
  rewrite Hev.
  assert (Hn : tx_events ([EvExec CreateLedgerTable] ++ evs2) = []).
  { by rewrite tx_events_app, Hn2. }
  destruct (no_tx_events_no_bodies _ Hn) as [Hb2 Hi2].
  rewrite Hb2, Hi2, app_nil_r, (events_since_app _ _ _ Hlog), Hb, Hsame.
  repeat split; auto.
Qed.

Lemma NoDup_pending_versions (applied : list string) (ms : list Migration) :
  List.NoDup (map Version ms) ->
  List.NoDup (map Version (pending applied (sort_Slice migration_less ms))).
Proof.
  intros H. apply NoDup_map_filter.
  eapply Permutation_NoDup; [|exact H].
  apply Permutation_map, Permutation_sym, sort_Slice_Permutation.
Qed.

(** C4. When [Apply] returns an error, either the ledger could not be
    prepared or read and no transaction was begun, or the run stopped at
    the first pending migration [m], in sorted order, that failed: the
    error carries [m]'s version, the migrations [pre] before it stay
    committed (bodies, ledger rows, printed lines), and of [m] and the
    later ones at most [m]'s own body and ledger row were sent.  A later
    run with no fault pending, over migrations with pairwise distinct
    versions, returns nil and commits, in sorted order, exactly those
    whose version is not yet in the ledger; the versions committed by the
    failed run are not inserted again. *)
Theorem Apply_stops_at_first_failure_and_resumes
    (ms ms' : list Migration) (w w1 : World) (err : error) :
  Apply ms w = (Return (Some err), w1) ->
  exists (applied : list string) (pre post : list Migration),
    (forall v, In v applied -> In v (ledger_versions (db w)))
    /\ pending applied (sort_Slice migration_less ms) = pre ++ post
    /\ committed_after w w1 pre
    /\ ((exists (m : Migration) (post' : list Migration) (cause : error),
           post = m :: post'
           /\ err = Errorf_w ("failed to apply migration " +:+ Version m) cause
           /\ (executed_bodies (events_since w w1) = map SQL pre
               \/ executed_bodies (events_since w w1) = map SQL pre ++ [SQL m])
           /\ (inserted_versions (events_since w w1) = map Version pre
               \/ inserted_versions (events_since w w1)
                  = map Version pre ++ [Version m]))
        \/ (exists e : error,
              pre = [] /\ tx_events (events_since w w1) = []
              /\ (err = Errorf_w "failed to create migrations table" e
                  \/ err = Errorf_w "failed to query migrations" e
                  \/ err = Errorf_w "failed to scan migration record" e)))
    /\ (quiet w1 ->
        List.NoDup (map Version ms') ->
        exists w2 : World,
          Apply ms' w1 = (Return None, w2)
          /\ committed_after w1 w2
               (pending (ledger_versions (db w1)) (sort_Slice migration_less ms'))
          /\ executed_bodies (events_since w1 w2)
             = map SQL (pending (ledger_versions (db w1))
                          (sort_Slice migration_less ms'))
          /\ inserted_versions (events_since w1 w2)
             = map Version (pending (ledger_versions (db w1))
                              (sort_Slice migration_less ms'))
          /\ Forall (fun m => ~ In (Version m)
                                (inserted_versions (events_since w1 w2))) pre).
Proof.
  intros Hrun.
  destruct (Apply_run ms w)
    as (applied & pre & post & evs & Hin & Hpend & Hlog & Hcom & _ & _ & Hres).
  rewrite Hrun in *. simpl in *.
  exists applied, pre, post.
  rewrite (events_since_app _ _ _ Hlog).
  split; [done|]. split; [done|]. split; [done|]. split.
  - destruct Hres as [(Hr & _)|[(m & post' & cause & -> & Hr & Hb & Hi)|
                                (e & -> & Hn & Hr)]].
    + discriminate.
    + left. exists m, post', cause. inversion Hr. auto.
    + right. exists e. repeat split; auto.
      destruct Hr as [Hr|[Hr|Hr]]; inversion Hr; auto.
  - intros Hq Hnd.
    destruct (Apply_quiet ms' w1 Hq (NoDup_pending_versions _ _ Hnd))
      as (evs' & Hok & _ & Hlog' & Hcom' & Hb' & Hi').
    destruct (Apply ms' w1) as [r w2]. simpl in *. subst r.
    exists w2. rewrite (events_since_app _ _ _ Hlog').
    split; [done|]. split; [done|]. split; [done|]. split; [done|].
    rewrite Hi'. apply Forall_forall. intros m Hm Hin'.
    apply list_elem_of_In in Hm.
    apply in_map_iff in Hin' as (m' & Hv & Hm').
    apply filter_In in Hm' as [_ Hm']. apply negb_true_iff in Hm'.
    destruct Hcom as (_ & Cv & _).
    rewrite Hv, Cv, mem_string_app in Hm'. apply orb_false_iff in Hm' as [_ Hm'].
    assert (mem_string (Version m) (map Version pre) = true) as Hc
      by (by apply mem_string_In, in_map).
    congruence.
Qed.

(** ** The unread iteration error *)

Lemma double_S (k : nat) : 2 * S k = S (S (2 * k)).
Proof. lia. Qed.

(** When fetching fails after [k] rows, the loop ends as if the data had
    ended there. *)
Lemma scan_rows_truncated (rows acc : list MigrationRecord) (k : nat) (e : error)
    (fs : list (option error)) (w : World) :
  k <= length rows ->
  faults w = replicate (2 * k) None ++ Some e :: fs ->
  (scan_rows rows acc w).1 = (acc ++ take k rows, None)
  /\ faults (scan_rows rows acc w).2 = fs.
Proof.
  revert rows acc w. induction k as [|k IH]; intros rows acc w Hk Hf.
  - simpl in Hf. rewrite app_nil_r.
    destruct rows as [|r rows]; simpl;
      rewrite (driver_call_cons _ _ _ _ Hf); simpl; auto.
  - destruct rows as [|r rows]; [simpl in Hk; lia|].
    rewrite double_S in Hf. simpl in Hf. simpl.
    rewrite (driver_call_cons _ _ _ _ Hf). simpl.
    destruct (IH rows (acc ++ [r])
                (mkWorld (db w) (open_tx w) ((log w ++ [EvNext]) ++ [EvScan])
                   (replicate (2 * k) None ++ Some e :: fs) (output w)))
      as [H1 H2]; [simpl in Hk; lia | reflexivity |].
    simpl in *. rewrite H1, H2, <- app_assoc. auto.
Qed.

(** C10. [GetAppliedMigrations] returns an error only for the query
    itself or for the scan of a row.  When fetching the rows fails after
    [k] of them, it returns those [k] records with a nil error: the
    caller cannot tell the truncated list from the whole ledger.  [Apply]
    then takes a recorded migration for a pending one: on a ledger that
    holds version 001, with the row stream broken before the first row,
    it sends the body of 001 again. *)
Theorem GetAppliedMigrations_drops_iteration_error :
  (forall (w w' : World) (recs : list MigrationRecord) (err : error),
     GetAppliedMigrations w = ((recs, Some err), w') ->
     (exists e, err = Errorf_w "failed to query migrations" e)
     \/ (exists e, err = Errorf_w "failed to scan migration record" e))
  /\ (forall (w : World) (rows : list MigrationRecord) (k : nat) (e : error)
        (fs : list (option error)),
        ledger (db w) = Some rows ->
        k <= length rows ->
        faults w = None :: replicate (2 * k) None ++ Some e :: fs ->
        (GetAppliedMigrations w).1 = (take k (sort_Slice record_less rows), None))
  /\ (let st := set_ledger (Some [mkMigrationRecord "001" 0 "users"])
                  (set_schema ["CREATE TABLE users"] empty_store) in
      let w := world_of st [None; None; Some (errorString "connection reset")] in
      let ms := [mkMigration "001" "users" "CREATE TABLE users"] in
      ledger_versions (db w) = ["001"]
      /\ executed_bodies (events_since w (Apply ms w).2) = ["CREATE TABLE users"]).
Proof.
  split; [|split].
  - intros w w' recs err H.
    pose proof (GetAppliedMigrations_spec w) as (_ & _ & _ & _ & Hr).
    rewrite H in Hr. simpl in Hr. tauto.
  - intros w rows k e fs El Hk Hf.
    unfold GetAppliedMigrations, db_QueryLedger.
    rewrite (driver_call_cons _ _ _ _ Hf). simpl. rewrite El.
    destruct (scan_rows_truncated (sort_Slice record_less rows) [] k e fs
                (mkWorld (db w) (open_tx w) (log w ++ [EvQuery SelectLedger])
                   (replicate (2 * k) None ++ Some e :: fs) (output w)))
      as [H1 _]; [|reflexivity|exact H1].
    rewrite (Permutation_length (sort_Slice_Permutation record_less rows)). exact Hk.
  - vm_compute. auto.
Qed.

(** ** Failures injected into a sequence of calls *)

Lemma first_fault_nil (n : nat) : first_fault n [] = None.
Proof. by destruct n. Qed.

(** An autocommit statement, by the next pending fault and the verdict of
    the engine. *)
Lemma db_ExecContext_next (s : Stmt) (w : World) :
  db_ExecContext s w
  = match mjoin (head (faults w)) with
    | Some e =>
        (Some e,
         mkWorld (db w) (open_tx w) (log w ++ [EvExec s]) (tail (faults w)) (output w))
    | None =>
        match exec_stmt s (db w) with
        | inl e =>
            (Some e,
             mkWorld (db w) (open_tx w) (log w ++ [EvExec s]) (tail (faults w))
               (output w))
        | inr st =>
            (None,
             mkWorld st (open_tx w) (log w ++ [EvExec s]) (tail (faults w)) (output w))
        end
    end.
Proof.
  unfold db_ExecContext, driver_call.
  destruct (faults w) as [|[e|] fs]; simpl; by destruct (exec_stmt s (db w)).
Qed.

(** Once [i] calls went through, the first failure among [n] calls is
    the first one among those that are left. *)
Lemma first_fault_drop (i n : nat) (fs : list (option error)) :
  first_fault i fs = None ->
  i <= n ->
  first_fault n fs
  = match first_fault (n - i) (drop i fs) with
    | Some (k, e) => Some (i + k, e)
    | None => None
    end.
Proof.
  revert n fs. induction i as [|i IH]; intros n fs Hp Hle.
  - rewrite Nat.sub_0_r, drop_0. destruct (first_fault n fs) as [[k e]|]; reflexivity.
  - destruct n as [|n]; [lia|].
    destruct fs as [|[e|] fs]; simpl in *; [by rewrite first_fault_nil|done|].
    destruct (first_fault i fs) as [[k e]|] eqn:E; [done|].
    rewrite (IH n fs E) by lia.
    destruct (first_fault (n - i) (drop i fs)) as [[k e]|]; reflexivity.
Qed.

Lemma first_fault_fail (i n : nat) (fs : list (option error)) (e : error) :
  first_fault i fs = None ->
  mjoin (head (drop i fs)) = Some e ->
  i < n ->
  first_fault n fs = Some (i, e).
Proof.
  intros Hp Hh Hlt. rewrite (first_fault_drop i n fs Hp) by lia.
  destruct (n - i) as [|m] eqn:E; [lia|].
  destruct (drop i fs) as [|[e'|] rest]; simpl in *; try discriminate.
  inversion Hh. by rewrite Nat.add_0_r.
Qed.

Lemma first_fault_pass (i : nat) (fs : list (option error)) :
  first_fault i fs = None ->
  mjoin (head (drop i fs)) = None ->
  first_fault (S i) fs = None.
Proof.
  intros Hp Hh. rewrite (first_fault_drop i (S i) fs Hp) by lia.
  replace (S i - i) with 1 by lia.
  by destruct (drop i fs) as [|[e'|] rest].
Qed.

Lemma tail_drop {A : Type} (i : nat) (l : list A) : tail (drop i l) = drop (S i) l.
Proof.
  revert l. induction i as [|i IH]; intros [|x l]; simpl; auto.
Qed.

(** One call of a sequence: [i] calls went through before it and sent
    the statements [sent]. *)
Lemma db_ExecContext_in_sequence (s : Stmt) (w0 w : World) (i : nat)
    (sent : list Stmt) :
  (forall st, exists st', exec_stmt s st = inr st') ->
  faults w0 = drop i (faults w) ->
  first_fault i (faults w) = None ->
  log w0 = log w ++ map EvExec sent ->
  match (db_ExecContext s w0).1 with
  | None =>
      faults (db_ExecContext s w0).2 = drop (S i) (faults w)
      /\ first_fault (S i) (faults w) = None
      /\ log (db_ExecContext s w0).2 = log w ++ map EvExec (sent ++ [s])
  | Some err =>
      (forall n, i < n -> first_fault n (faults w) = Some (i, err))
      /\ log (db_ExecContext s w0).2 = log w ++ map EvExec (sent ++ [s])
  end.
Proof.
  intros Htot Hf Hp Hl. rewrite db_ExecContext_next.
  destruct (Htot (db w0)) as [st' ->].
  assert (Hlog : log w0 ++ [EvExec s] = log w ++ map EvExec (sent ++ [s]))
    by (by rewrite Hl, map_app, <- app_assoc).
  rewrite Hf.
  destruct (mjoin (head (drop i (faults w)))) as [e|] eqn:Hh; simpl.
  - split; [|done]. intros n Hn. by apply first_fault_fail.
  - split; [apply tail_drop|]. split; [by apply first_fault_pass|done].
Qed.

Lemma roles_stmt_accepted (s : Stmt) :
  is_roles_stmt s = true -> forall st, exists st', exec_stmt s st = inr st'.
Proof.
  destruct s; try discriminate; intros Hs st; simpl in *.
  - apply String.eqb_eq in Hs. rewrite Hs. destruct (roles st !! name); eauto.
  - eauto.
Qed.

(** ** Row-level security *)

(** C8. [SetupServiceRLS] sends the statement that enables row security
    on the table and then, only when that went through, exactly one more
    statement: the creation of one policy on the table for the role
    [serviceName], with the predicate true and no WITH CHECK clause, for
    the command ALL when [fullAccess] is set and for SELECT when it is
    not.  The failures met fix the outcome.  When enabling fails, the
    error is returned wrapped, nothing else is sent and the store is as
    before.  When the creation fails, by a failure of the call or because
    a policy of that name is already on the table, the error is returned
    wrapped, row security stays enabled and no policy is added.
    Otherwise nil is returned, row security is enabled on the table and
    that policy is the one policy added. *)
Theorem SetupServiceRLS_one_policy
    (serviceName tableName : string) (fullAccess : bool) (w : World) :
  let policy :=
    if fullAccess
    then mkPolicyConfig (serviceName +:+ "_all_" +:+ tableName) tableName
           "ALL" serviceName "true" ""
    else mkPolicyConfig (serviceName +:+ "_select_" +:+ tableName) tableName
           "SELECT" serviceName "true" "" in
  let enable := EvExec (EnableRowSecurity tableName) in
  let create :=
    EvExec (CreatePolicyStmt (Name policy) tableName (Command policy) serviceName
              "true" None) in
  let enabled :=
    set_row_security (add_if_absent tableName (row_security (db w))) (db w) in
  let run := SetupServiceRLS serviceName tableName fullAccess w in
  match first_fault 2 (faults w) with
  | Some (0, cause) =>
      run.1 = Some (Errorf_w ("failed to enable RLS on " +:+ tableName) cause)
      /\ events_since w run.2 = [enable]
      /\ db run.2 = db w
  | Some (_, cause) =>
      run.1 = Some (Errorf_w ("failed to create policy " +:+ Name policy) cause)
      /\ events_since w run.2 = [enable; create]
      /\ db run.2 = enabled
  | None =>
      events_since w run.2 = [enable; create]
      /\ if existsb (same_policy (Name policy) tableName) (policies (db w))
         then run.1 = Some (Errorf_w ("failed to create policy " +:+ Name policy)
                              (errorString "policy already exists"))
              /\ db run.2 = enabled
         else run.1 = None
              /\ db run.2 = set_policies (policies (db w) ++ [policy]) enabled
  end.
Proof.
  intros policy enable create enabled run.
  assert (Hpol : service_policy serviceName tableName fullAccess = policy)
    by (by destruct fullAccess).
  assert (Hq : CreatePolicy_query policy = CreatePolicyStmt (Name policy) tableName
                 (Command policy) serviceName "true" None)
    by (by destruct fullAccess).
  assert (Ht : Table policy = tableName) by (by destruct fullAccess).
  unfold run, SetupServiceRLS, EnableRLS, CreatePolicy. rewrite Hpol, Hq.
  assert (Hst : mkPolicyConfig (Name policy) tableName (Command policy) serviceName
                  "true" "" = policy) by (by destruct fullAccess).
  rewrite (db_ExecContext_next (EnableRowSecurity tableName) w).
  destruct (faults w) as [|[e|] fs] eqn:Hf; simpl.
  - rewrite db_ExecContext_next. simpl. rewrite Hst.
    destruct (existsb (same_policy (Name policy) tableName) (policies (db w)));
      simpl; (split; [apply events_since_app; simpl; by rewrite <- app_assoc|]);
      done.
  - split; [done|]. split; [by apply events_since_app|done].
  - rewrite db_ExecContext_next. simpl. rewrite Hst.
    destruct fs as [|[e|] fs']; simpl.
    + destruct (existsb (same_policy (Name policy) tableName) (policies (db w)));
        simpl; (split; [apply events_since_app; simpl; by rewrite <- app_assoc|]);
        done.
    + split; [done|].
      split; [apply events_since_app; simpl; by rewrite <- app_assoc|done].
    + destruct (existsb (same_policy (Name policy) tableName) (policies (db w)));
        simpl; (split; [apply events_since_app; simpl; by rewrite <- app_assoc|]);
        done.
Qed.

(** ** Grants *)

Lemma grant_eqb_eq (g h : string * string * string) :
  (String.eqb g.1.1 h.1.1 && String.eqb g.1.2 h.1.2 && String.eqb g.2 h.2) = true
  <-> g = h.
Proof.
  destruct g as [[a b] c], h as [[a' b'] c']. simpl.
  rewrite !andb_true_iff, !String.eqb_eq. split.
  - intros [[-> ->] ->]. done.
  - intros H. inversion H. auto.
Qed.

Lemma mem_grant_In (g : string * string * string)
    (l : list (string * string * string)) :
  mem_grant g l = true <-> In g l.
Proof.
  unfold mem_grant. rewrite existsb_exists. split.
  - intros (h & Hh & E). apply grant_eqb_eq in E. by subst.
  - intros H. exists g. split; auto. by apply grant_eqb_eq.
Qed.

Lemma In_add_grant (g h : string * string * string)
    (l : list (string * string * string)) :
  In g (add_grant h l) <-> In g l \/ g = h.
Proof.
  unfold add_grant. destruct (mem_grant h l) eqn:E.
  - apply mem_grant_In in E. split; [auto|]. intros [?| ->]; auto.
  - rewrite in_app_iff. simpl. intuition.
Qed.

Lemma In_remove_grant (g h : string * string * string)
    (l : list (string * string * string)) :
  In g (remove_grant h l) <-> In g l /\ g <> h.
Proof.
  unfold remove_grant. rewrite filter_In, negb_true_iff.
  split; intros [H1 H2]; split; auto.
  - intros ->. rewrite (proj2 (grant_eqb_eq h h) eq_refl) in H2. discriminate.
  - destruct (_ && _) eqn:E; auto. apply grant_eqb_eq in E. congruence.
Qed.

Lemma In_granted (tableName roleName : string) (perms : list string) (st : Store)
    (g : string * string * string) :
  In g (grants (granted tableName roleName perms st))
  <-> In g (grants st) \/ exists p, In p perms /\ g = (p, tableName, roleName).
Proof.
  revert st. induction perms as [|p perms IH]; intros st; simpl.
  - split; [auto|]. intros [?|(p & [] & _)]; auto.
  - unfold granted in *. simpl. rewrite IH. simpl. rewrite In_add_grant.
    split.
    + intros [[?| ->]|(q & Hq & ->)]; eauto.
    + intros [?|(q & [<-|Hq] & ->)]; eauto.
Qed.

Lemma In_revoked (tableName roleName : string) (perms : list string) (st : Store)
    (g : string * string * string) :
  In g (grants (revoked tableName roleName perms st))
  <-> In g (grants st) /\ forall p, In p perms -> g <> (p, tableName, roleName).
Proof.
  revert st. induction perms as [|p perms IH]; intros st; simpl.
  - split; [intros ?; split; [done|intros ? []]|by intros [? _]].
  - unfold revoked in *. simpl. rewrite IH. simpl. rewrite In_remove_grant.
    split.
    + intros [[H1 H2] H3]. split; [done|]. intros q [<-|Hq]; auto.
    + intros [H1 H2]. split; [split|]; auto.
Qed.

Lemma GrantTablePermissions_faults (tableName roleName : string)
    (perms : list string) (w : World) :
  match first_fault (length perms) (faults w) with
  | None =>
      (GrantTablePermissions tableName roleName perms w).1 = None
      /\ log (GrantTablePermissions tableName roleName perms w).2
         = log w ++ map (fun p => EvExec (GrantStmt p tableName roleName)) perms
      /\ db (GrantTablePermissions tableName roleName perms w).2
         = granted tableName roleName perms (db w)
  | Some (k, cause) =>
      exists perm : string,
        perms !! k = Some perm
        /\ (GrantTablePermissions tableName roleName perms w).1
           = Some (Errorf_w ("failed to grant " +:+ perm +:+ " on " +:+ tableName
                             +:+ " to " +:+ roleName) cause)
        /\ log (GrantTablePermissions tableName roleName perms w).2
           = log w ++ map (fun p => EvExec (GrantStmt p tableName roleName))
                        (take (S k) perms)
        /\ db (GrantTablePermissions tableName roleName perms w).2
           = granted tableName roleName (take k perms) (db w)
  end.
Proof.
  revert w. induction perms as [|perm perms IH]; intros w.
  - simpl. by rewrite app_nil_r.
  - cbn [GrantTablePermissions length]. rewrite db_ExecContext_next.
    destruct (faults w) as [|[e|] fs] eqn:Hf; cbn [head tail mjoin first_fault].
    + simpl.
      match goal with
      | |- context [GrantTablePermissions _ _ perms ?w1] => specialize (IH w1)
      end.
      simpl in IH. rewrite first_fault_nil in IH.
      destruct IH as (H1 & H2 & H3). rewrite H1, H2, H3, <- app_assoc. done.
    + simpl. exists perm. done.
    + simpl.
      match goal with
      | |- context [GrantTablePermissions _ _ perms ?w1] => specialize (IH w1)
      end.
      simpl in IH.
      destruct (first_fault (length perms) fs) as [[k cause]|].
      * destruct IH as (p & H0 & H1 & H2 & H3). exists p.
        rewrite H1, H2, H3, <- app_assoc. done.
      * destruct IH as (H1 & H2 & H3). rewrite H1, H2, H3, <- app_assoc. done.
Qed.


(** C9. [GrantTablePermissions] sends one GRANT per privilege, in the
    order of the list, outside any transaction.  When none of these
    calls fails it returns nil after sending all of them, and every
    privilege of the list is granted.  Otherwise it stops at the first
    call that fails: that GRANT is the last statement sent, the error
    names its privilege, the table and the role and wraps the failure,
    and the grants of the privileges before it stay in the store; nothing
    is rolled back or sent again. *)
Theorem GrantTablePermissions_stops_at_first_failure
    (tableName roleName : string) (perms : list string) (w : World) :
  match first_fault (length perms) (faults w) with
  | None =>
      (GrantTablePermissions tableName roleName perms w).1 = None
      /\ events_since w (GrantTablePermissions tableName roleName perms w).2
         = map (fun p => EvExec (GrantStmt p tableName roleName)) perms
      /\ db (GrantTablePermissions tableName roleName perms w).2
         = granted tableName roleName perms (db w)
      /\ forall p, In p perms ->
           In (p, tableName, roleName)
              (grants (db (GrantTablePermissions tableName roleName perms w).2))
  | Some (k, cause) =>
      exists perm : string,
        perms !! k = Some perm
        /\ (GrantTablePermissions tableName roleName perms w).1
           = Some (Errorf_w ("failed to grant " +:+ perm +:+ " on " +:+ tableName
                             +:+ " to " +:+ roleName) cause)
        /\ events_since w (GrantTablePermissions tableName roleName perms w).2
           = map (fun p => EvExec (GrantStmt p tableName roleName))
               (take (S k) perms)
        /\ db (GrantTablePermissions tableName roleName perms w).2
           = granted tableName roleName (take k perms) (db w)
        /\ forall p, In p (take k perms) ->
             In (p, tableName, roleName)
                (grants (db (GrantTablePermissions tableName roleName perms w).2))
  end.
Proof.
  pose proof (GrantTablePermissions_faults tableName roleName perms w) as H.
  destruct (first_fault (length perms) (faults w)) as [[k cause]|].
  - destruct H as (perm & H0 & H1 & H2 & H3). exists perm.
    split; [done|]. split; [done|]. split; [by apply events_since_app|].
    split; [done|]. intros p Hp. rewrite H3. apply In_granted. eauto.
  - destruct H as (H1 & H2 & H3).
    split; [done|]. split; [by apply events_since_app|].
    split; [done|]. intros p Hp. rewrite H3. apply In_granted. eauto.
Qed.


(** ** Roles *)

(** No statement of the model changes a role that exists. *)
Lemma exec_stmt_keeps_roles (s : Stmt) (st st' : Store) (name : string)
    (attrs : RoleAttrs) :
  exec_stmt s st = inr st' ->
  roles st !! name = Some attrs ->
  roles st' !! name = Some attrs.
Proof.
  intros He Hr.
  destruct s; simpl in He;
    repeat match type of He with
           | context [match ?x with _ => _ end] => destruct x eqn:?
           end;
    inversion He; subst; simpl; auto;
    rewrite lookup_insert_ne; auto; intros <-; congruence.
Qed.

Lemma db_ExecContext_keeps_roles (s : Stmt) (w : World) (name : string)
    (attrs : RoleAttrs) :
  roles (db w) !! name = Some attrs ->
  roles (db (db_ExecContext s w).2) !! name = Some attrs.
Proof.
  intros Hr. pose proof (db_ExecContext_db s w) as Hd.
  destruct (db_ExecContext s w).1.
  - by rewrite Hd.
  - by eapply exec_stmt_keeps_roles.
Qed.

Lemma db_ExecContext_quiet_ok (s : Stmt) (w : World) (st : Store) :
  quiet w ->
  exec_stmt s (db w) = inr st ->
  db_ExecContext s w
  = (None, mkWorld st (open_tx w) (log w ++ [EvExec s]) [] (output w)).
Proof. intros Hq He. rewrite db_ExecContext_quiet by done. by rewrite He. Qed.

Lemma CreateServiceRole_quiet_exists (roleName password : string) (w : World) :
  quiet w ->
  is_Some (roles (db w) !! roleName) ->
  CreateServiceRole roleName password w
  = (None, mkWorld (db w) (open_tx w)
             (log w ++ [EvQuery (SelectRoleExists roleName)]) [] (output w)).
Proof.
  intros Hq He. unfold CreateServiceRole, db_QueryRoleExists.
  rewrite driver_call_quiet by done. simpl.
  by rewrite bool_decide_eq_true_2.
Qed.

Lemma CreateServiceRole_quiet_absent (roleName password : string) (w : World) :
  quiet w ->
  roles (db w) !! roleName = None ->
  roles (db w) !! fold_identifier roleName = None ->
  CreateServiceRole roleName password w
  = (None, mkWorld (set_roles (<[fold_identifier roleName := mkRole password true]>
                                 (roles (db w)))
                      (db w))
             (open_tx w)
             (log w ++ [EvQuery (SelectRoleExists roleName);
                        EvExec (CreateRole roleName password)])
             [] (output w)).
Proof.
  intros Hq He Hf. unfold CreateServiceRole, db_QueryRoleExists.
  rewrite driver_call_quiet by done. simpl.
  rewrite bool_decide_eq_false_2 by (rewrite He; by intros [? ?]).
  erewrite db_ExecContext_quiet_ok; [|done|simpl; by rewrite Hf].
  simpl. by rewrite <- app_assoc.
Qed.

(** The check misses a role that exists under the folded name, and the
    CREATE ROLE that follows is refused. *)
Lemma CreateServiceRole_quiet_folded_exists (roleName password : string) (w : World) :
  quiet w ->
  roles (db w) !! roleName = None ->
  is_Some (roles (db w) !! fold_identifier roleName) ->
  CreateServiceRole roleName password w
  = (Some (Errorf_w ("failed to create role " +:+ roleName)
             (errorString "role already exists")),
     mkWorld (db w) (open_tx w)
       (log w ++ [EvQuery (SelectRoleExists roleName);
                  EvExec (CreateRole roleName password)])
       [] (output w)).
Proof.
  intros Hq He [attrs Hf]. unfold CreateServiceRole, db_QueryRoleExists.
  rewrite driver_call_quiet by done. simpl.
  rewrite bool_decide_eq_false_2 by (rewrite He; by intros [? ?]).
  rewrite db_ExecContext_quiet by done. simpl. rewrite Hf.
  simpl. by rewrite <- app_assoc.
Qed.

Lemma create_roles_keeps_roles (rs : list (string * string)) (w : World)
    (name : string) (attrs : RoleAttrs) :
  roles (db w) !! name = Some attrs ->
  roles (db (create_roles rs w).2) !! name = Some attrs.
Proof.
  revert w. induction rs as [|r rs IH]; intros w Hr; simpl; auto.
  pose proof (db_ExecContext_keeps_roles (CreateRoleIfNotExists r.1 r.2) w name attrs Hr)
    as Hk.
  destruct (db_ExecContext (CreateRoleIfNotExists r.1 r.2) w) as [[err|] w1];
    simpl in *; auto.
Qed.

Lemma grantPermissions_keeps_roles (w : World) (name : string) (attrs : RoleAttrs) :
  roles (db w) !! name = Some attrs ->
  roles (db (grantPermissions w).2) !! name = Some attrs.
Proof.
  intros Hr. unfold grantPermissions.
  repeat match goal with
         | |- context [db_ExecContext ?s ?w0] =>
             let Hk := fresh "Hk" in
             assert (Hk : roles (db (db_ExecContext s w0).2) !! name = Some attrs)
               by (by apply db_ExecContext_keeps_roles);
             destruct (db_ExecContext s w0) as [[?err|] ?w1]; simpl in *; auto
         end.
Qed.

Lemma service_roles_folded :
  Forall (fun r : string * string => fold_identifier r.1 = r.1) service_roles.
Proof. repeat constructor. Qed.

Lemma exec_CreateRoleIfNotExists_folded (name password : string) (st : Store) :
  fold_identifier name = name ->
  exec_stmt (CreateRoleIfNotExists name password) st
  = inr (match roles st !! name with
         | Some _ => st
         | None => set_roles (<[name := mkRole password true]> (roles st)) st
         end).
Proof.
  intros Hf. simpl. rewrite Hf. by destruct (roles st !! name).
Qed.

Lemma create_roles_quiet (rs : list (string * string)) (w : World) :
  Forall (fun r : string * string => fold_identifier r.1 = r.1) rs ->
  quiet w -> (create_roles rs w).1 = None /\ quiet (create_roles rs w).2.
Proof.
  revert w. induction rs as [|r rs IH]; intros w Hfold Hq; simpl; auto.
  apply Forall_cons in Hfold as [Hr Hfold].
  rewrite (db_ExecContext_quiet_ok _ _ _ Hq
             (exec_CreateRoleIfNotExists_folded r.1 r.2 (db w) Hr)).
  by apply IH.
Qed.

Lemma grantPermissions_quiet (w : World) :
  quiet w -> (grantPermissions w).1 = None.
Proof.
  intros Hq. unfold grantPermissions.
  erewrite db_ExecContext_quiet_ok by (done || reflexivity).
  erewrite db_ExecContext_quiet_ok by (done || reflexivity).
  erewrite db_ExecContext_quiet_ok by (done || reflexivity).
  reflexivity.
Qed.

(** A declared role that is absent is created by the loop, with its
    declared password. *)
Lemma create_roles_creates (rs : list (string * string)) (w : World)
    (name password : string) :
  Forall (fun r : string * string => fold_identifier r.1 = r.1) rs ->
  quiet w ->
  In (name, password) rs ->
  (forall p, In (name, p) rs -> p = password) ->
  roles (db w) !! name = None ->
  roles (db (create_roles rs w).2) !! name = Some (mkRole password true).
Proof.
  revert w. induction rs as [|[n p] rs IH]; intros w Hfold Hq Hin Huniq Hr; [done|].
  apply Forall_cons in Hfold as [Hn Hfold]. simpl in Hn. simpl.
  rewrite (db_ExecContext_quiet_ok _ _ _ Hq
             (exec_CreateRoleIfNotExists_folded n p (db w) Hn)).
  destruct (String.eqb_spec n name) as [->|Hne].
  - assert (p = password) as -> by (apply Huniq; by left).
    apply create_roles_keeps_roles. simpl.
    rewrite Hr. simpl. apply lookup_insert_eq.
  - apply IH.
    + done.
    + done.
    + destruct Hin as [Hin|Hin]; [congruence|done].
    + intros p0 Hp0. apply Huniq. by right.
    + simpl. destruct (roles (db w) !! n); simpl; auto.
      by rewrite lookup_insert_ne.
Qed.

(** C7. Role creation by [CreateServiceRole] is idempotent only for a
    name that folding to lower case leaves as it is.  For a role that
    exists under the name as given, the call sends the existence check and
    nothing else, whatever the password, leaves the store as it is and,
    when the check goes through, returns nil.  For an absent role, with
    no fault pending, it sends the check and one CREATE ROLE, and the role
    exists afterwards under the folded name with the given password and
    the right to log in.  For a name that folding leaves as it is, two
    calls in a row with no fault pending both return nil and the second
    changes nothing.  For any other name the second call does not find
    the role the first one created, sends CREATE ROLE again and returns
    the error of the refused statement.  [CreateServiceRoles], whose
    names are in lower case, leaves every existing role as it is, returns
    nil when no fault is pending, and creates the declared roles that are
    absent. *)
Theorem CreateServiceRole_idempotent
    (roleName password password' : string) (w : World) :
  (forall attrs : RoleAttrs,
     roles (db w) !! roleName = Some attrs ->
     db (CreateServiceRole roleName password w).2 = db w
     /\ events_since w (CreateServiceRole roleName password w).2
        = [EvQuery (SelectRoleExists roleName)]
     /\ (mjoin (head (faults w)) = None ->
         (CreateServiceRole roleName password w).1 = None))
  /\ (roles (db w) !! roleName = None ->
      roles (db w) !! fold_identifier roleName = None ->
      quiet w ->
      (CreateServiceRole roleName password w).1 = None
      /\ roles (db (CreateServiceRole roleName password w).2)
           !! fold_identifier roleName
         = Some (mkRole password true)
      /\ events_since w (CreateServiceRole roleName password w).2
         = [EvQuery (SelectRoleExists roleName);
            EvExec (CreateRole roleName password)])
  /\ (fold_identifier roleName = roleName ->
      quiet w ->
      (CreateServiceRole roleName password w).1 = None
      /\ (CreateServiceRole roleName password'
            (CreateServiceRole roleName password w).2).1 = None
      /\ db (CreateServiceRole roleName password'
               (CreateServiceRole roleName password w).2).2
         = db (CreateServiceRole roleName password w).2
      /\ is_Some (roles (db (CreateServiceRole roleName password w).2) !! roleName))
  /\ (fold_identifier roleName <> roleName ->
      roles (db w) !! roleName = None ->
      roles (db w) !! fold_identifier roleName = None ->
      quiet w ->
      (CreateServiceRole roleName password w).1 = None
      /\ (CreateServiceRole roleName password'
            (CreateServiceRole roleName password w).2).1
         = Some (Errorf_w ("failed to create role " +:+ roleName)
                   (errorString "role already exists"))
      /\ events_since (CreateServiceRole roleName password w).2
           (CreateServiceRole roleName password'
              (CreateServiceRole roleName password w).2).2
         = [EvQuery (SelectRoleExists roleName);
            EvExec (CreateRole roleName password')]
      /\ db (CreateServiceRole roleName password'
               (CreateServiceRole roleName password w).2).2
         = db (CreateServiceRole roleName password w).2)
  /\ (forall (name : string) (attrs : RoleAttrs),
        roles (db w) !! name = Some attrs ->
        roles (db (CreateServiceRoles w).2) !! name = Some attrs)
  /\ (quiet w ->
      (CreateServiceRoles w).1 = None
      /\ forall name pw : string,
           In (name, pw) service_roles ->
           roles (db w) !! name = None ->
           roles (db (CreateServiceRoles w).2) !! name = Some (mkRole pw true)).
Proof.
  split; [|split; [|split; [|split; [|split]]]].
  - intros attrs Hr. unfold CreateServiceRole, db_QueryRoleExists.
    pose proof (driver_call_frame (EvQuery (SelectRoleExists roleName)) w)
      as (Hd & _ & Hl & _ & _ & Hf).
    destruct (driver_call (EvQuery (SelectRoleExists roleName)) w) as [f w1].
    simpl in *. subst f.
    destruct (mjoin (head (faults w))) as [e|]; simpl.
    + repeat split; auto. by apply events_since_app. discriminate.
    + rewrite bool_decide_eq_true_2 by (rewrite Hd, Hr; eauto). simpl.
      repeat split; auto. by apply events_since_app.
  - intros Hr Hf Hq. rewrite (CreateServiceRole_quiet_absent _ _ _ Hq Hr Hf). simpl.
    repeat split; auto.
    + apply lookup_insert_eq.
    + by apply events_since_app.
  - intros Hfold Hq. destruct (roles (db w) !! roleName) as [attrs|] eqn:Hr.
    + rewrite (CreateServiceRole_quiet_exists roleName password w Hq) by eauto.
      simpl.
      erewrite (CreateServiceRole_quiet_exists roleName password');
        [|reflexivity|simpl; eauto].
      simpl. rewrite Hr. eauto.
    + assert (Hf : roles (db w) !! fold_identifier roleName = None)
        by (by rewrite Hfold).
      rewrite (CreateServiceRole_quiet_absent _ _ _ Hq Hr Hf). simpl.
      rewrite Hfold.
      erewrite (CreateServiceRole_quiet_exists roleName password');
        [|reflexivity|simpl; rewrite lookup_insert_eq; eauto].
      simpl. rewrite lookup_insert_eq. eauto.
  - intros Hfold Hr Hf Hq.
    rewrite (CreateServiceRole_quiet_absent _ _ _ Hq Hr Hf). simpl.
    erewrite (CreateServiceRole_quiet_folded_exists roleName password');
      [|reflexivity| |].
    + simpl. split; [done|]. split; [done|]. split; [|done].
      by apply events_since_app.
    + simpl. rewrite lookup_insert_ne; [done|]. intros H. by apply Hfold.
    + simpl. rewrite lookup_insert_eq. eauto.
  - intros name attrs Hr. unfold CreateServiceRoles.
    pose proof (create_roles_keeps_roles service_roles
                  (Println "Creating service roles..." w) name attrs Hr) as Hk.
    destruct (create_roles service_roles (Println "Creating service roles..." w))
      as [[err|] w1]; simpl in *; auto.
    pose proof (grantPermissions_keeps_roles w1 name attrs Hk) as Hk2.
    destruct (grantPermissions w1) as [[err|] w2]; simpl in *; auto.
  - intros Hq. unfold CreateServiceRoles.
    assert (Hq0 : quiet (Println "Creating service roles..." w)) by done.
    destruct (create_roles_quiet service_roles _ service_roles_folded Hq0)
      as [Hok Hq1].
    pose proof (create_roles_creates service_roles
                  (Println "Creating service roles..." w)) as Hc.
    destruct (create_roles service_roles (Println "Creating service roles..." w))
      as [r w1]; simpl in *. subst r.
    pose proof (grantPermissions_quiet w1 Hq1) as Hg.
    pose proof (grantPermissions_keeps_roles w1) as Hk.
    destruct (grantPermissions w1) as [r w2]; simpl in *. subst r. simpl.
    split; auto. intros name pw Hin Hr. apply Hk.
    apply Hc; auto using service_roles_folded.
    intros p Hp. clear -Hin Hp. unfold service_roles in *. simpl in *.
    intuition congruence.
Qed.

(** The failing input of C7: on an empty database the second of two
    calls for the name UserService is refused. *)
Lemma CreateServiceRole_mixed_case_second_call_fails :
  (CreateServiceRole "UserService" "secret" fresh_world).1 = None
  /\ roles (db (CreateServiceRole "UserService" "secret" fresh_world).2)
     = {["userservice" := mkRole "secret" true]}
  /\ (CreateServiceRole "UserService" "secret"
        (CreateServiceRole "UserService" "secret" fresh_world).2).1
     = Some (Errorf_w "failed to create role UserService"
               (errorString "role already exists")).
Proof. split; [reflexivity|]. split; [|reflexivity]. vm_compute. reflexivity. Qed.

(** ** The migrate action *)






Lemma add_if_absent_present (x : string) (l : list string) :
  mem_string x l = true -> add_if_absent x l = l.
Proof. unfold add_if_absent. by intros ->. Qed.

Lemma mem_add_if_absent (x y : string) (l : list string) :
  mem_string x (add_if_absent y l) = mem_string x l || String.eqb x y.
Proof.
  unfold add_if_absent. destruct (mem_string y l) eqn:E.
  - destruct (String.eqb_spec x y) as [->|_]; [by rewrite E|by rewrite orb_false_r].
  - rewrite mem_string_app. simpl. by rewrite orb_false_r.
Qed.






Lemma db_ExecContext_quiet_step (s : Stmt) (w : World) (st : Store) :
  quiet w ->
  exec_stmt s (db w) = inr st ->
  (db_ExecContext s w).1 = None /\ quiet (db_ExecContext s w).2.
Proof. intros Hq He. by rewrite (db_ExecContext_quiet_ok s w st). Qed.




(** * Sample runs *)

Lemma Apply_ascending_version_order_witness :
  quiet fresh_world
  /\ ledger_versions (db fresh_world) = []
  /\ inserted_versions
       (events_since fresh_world
          (Apply [mkMigration "001" "create users" "CREATE TABLE users";
                  mkMigration "003" "index users" "CREATE INDEX idx_users_phone";
                  mkMigration "002" "add phone" "ALTER TABLE users ADD phone"]
             fresh_world).2)
     = ["001"; "002"; "003"].
Proof.
  split; [reflexivity|]. split; [reflexivity|].
  exact (proj2 (proj2
           (proj2 (Apply_ascending_version_order sample_migrations fresh_world)
              "create users" "add phone" "index users"
              "CREATE TABLE users" "ALTER TABLE users ADD phone"
              "CREATE INDEX idx_users_phone"
              fresh_world eq_refl eq_refl))).
Defined.

Lemma Apply_twice_applies_once_witness :
  Apply sample_migrations fresh_world
    = (Return None, (Apply sample_migrations fresh_world).2)
  /\ quiet (Apply sample_migrations fresh_world).2
  /\ exists w2 : World,
       Apply sample_migrations (Apply sample_migrations fresh_world).2
         = (Return None, w2)
       /\ tx_events (events_since (Apply sample_migrations fresh_world).2 w2) = [].
Proof.
  assert (H1 : Apply sample_migrations fresh_world
               = (Return None, (Apply sample_migrations fresh_world).2))
    by (vm_compute; reflexivity).
  assert (H2 : quiet (Apply sample_migrations fresh_world).2)
    by (vm_compute; reflexivity).
  split; [exact H1|]. split; [exact H2|].
  destruct (Apply_twice_applies_once sample_migrations fresh_world _ H1 H2)
    as (w2 & Ha & _ & _ & Hn & _).
  exists w2. split; assumption.
Defined.

Lemma Apply_stops_at_first_failure_and_resumes_witness :
  Apply sample_migrations failing_world
    = (Return (Some (Errorf_w "failed to apply migration 002"
                       (Errorf_w "failed to execute migration SQL"
                          (errorString "syntax error")))),
       (Apply sample_migrations failing_world).2)
  /\ quiet (Apply sample_migrations failing_world).2
  /\ List.NoDup (map Version sample_migrations)
  /\ ledger_versions (db (Apply sample_migrations failing_world).2) = ["001"]
  /\ exists w2 : World,
       Apply sample_migrations (Apply sample_migrations failing_world).2
         = (Return None, w2)
       /\ inserted_versions
            (events_since (Apply sample_migrations failing_world).2 w2)
          = ["002"; "003"].
Proof.
  assert (H1 : Apply sample_migrations failing_world
               = (Return (Some (Errorf_w "failed to apply migration 002"
                                  (Errorf_w "failed to execute migration SQL"
                                     (errorString "syntax error")))),
                  (Apply sample_migrations failing_world).2))
    by (vm_compute; reflexivity).
  assert (H2 : quiet (Apply sample_migrations failing_world).2)
    by (vm_compute; reflexivity).
  assert (H3 : List.NoDup (map Version sample_migrations)).
  { repeat constructor; simpl; intuition discriminate. }
  split; [exact H1|]. split; [exact H2|]. split; [exact H3|].
  split; [vm_compute; reflexivity|].
  destruct (Apply_stops_at_first_failure_and_resumes
              sample_migrations sample_migrations failing_world _ _ H1)
    as (applied & pre & post & _ & _ & _ & _ & Hresume).
  destruct (Hresume H2 H3) as (w2 & Ha & _ & _ & Hi & _).
  exists w2. split; [exact Ha|]. rewrite Hi. vm_compute. reflexivity.
Defined.

Lemma WithTransaction_commit_xor_rollback_witness :
  db_BeginTx fresh_world = (None, (db_BeginTx fresh_world).2)
  /\ tx_ends (events_since fresh_world
                (WithTransaction (applyMigration_fn (mkMigration "001" "create users"
                                                       "CREATE TABLE users"))
                   fresh_world).2) = 1.
Proof.
  split; [reflexivity|].
  exact (proj1 (WithTransaction_commit_xor_rollback
                  (applyMigration_fn (mkMigration "001" "create users"
                                        "CREATE TABLE users"))
                  fresh_world (db_BeginTx fresh_world).2 eq_refl)).
Defined.


Lemma CreateServiceRole_idempotent_witness :
  roles (db world_with_role) !! "user_service" = Some (mkRole "secret" true)
  /\ db (CreateServiceRole "user_service" "other" world_with_role).2
     = db world_with_role
  /\ (CreateServiceRole "user_service" "other" world_with_role).1 = None.
Proof.
  assert (H : roles (db world_with_role) !! "user_service"
              = Some (mkRole "secret" true)) by (vm_compute; reflexivity).
  split; [exact H|].
  destruct (proj1 (CreateServiceRole_idempotent "user_service" "other" "other"
                     world_with_role) _ H) as (Hd & _ & Hr).
  split; [exact Hd|]. apply Hr. reflexivity.
Defined.

Lemma GetAppliedMigrations_drops_iteration_error_witness :
  ledger (db (world_of (set_ledger (Some [mkMigrationRecord "001" 0 "users";
                                          mkMigrationRecord "002" 1 "phone"])
                          empty_store)
                [None; None; None; Some (errorString "connection reset")]))
    = Some [mkMigrationRecord "001" 0 "users"; mkMigrationRecord "002" 1 "phone"]
  /\ (GetAppliedMigrations
        (world_of (set_ledger (Some [mkMigrationRecord "001" 0 "users";
                                     mkMigrationRecord "002" 1 "phone"])
                     empty_store)
           [None; None; None; Some (errorString "connection reset")])).1
     = ([mkMigrationRecord "001" 0 "users"], None).
Proof.
  split; [reflexivity|].
  exact (proj1 (proj2 GetAppliedMigrations_drops_iteration_error)
           (world_of (set_ledger (Some [mkMigrationRecord "001" 0 "users";
                                        mkMigrationRecord "002" 1 "phone"])
                        empty_store)
              [None; None; None; Some (errorString "connection reset")])
           [mkMigrationRecord "001" 0 "users"; mkMigrationRecord "002" 1 "phone"]
           1 (errorString "connection reset") []
           eq_refl (le_S 1 1 (le_n 1)) eq_refl).
Defined.

Lemma SetupServiceRLS_one_policy_witness :
  events_since fresh_world (SetupServiceRLS "file_service" "files" true fresh_world).2
  = [EvExec (EnableRowSecurity "files");
     EvExec (CreatePolicyStmt "file_service_all_files" "files" "ALL" "file_service"
               "true" None)]
  /\ (SetupServiceRLS "file_service" "files" true fresh_world).1 = None
  /\ db (SetupServiceRLS "file_service" "files" true fresh_world).2
     = set_policies
         [mkPolicyConfig "file_service_all_files" "files" "ALL" "file_service"
            "true" ""]
         (set_row_security ["files"] empty_store).
Proof.
  exact (SetupServiceRLS_one_policy "file_service" "files" true fresh_world).
Defined.

Lemma GrantTablePermissions_stops_at_first_failure_witness :
  exists perm : string,
    ["SELECT"; "INSERT"; "UPDATE"] !! 1 = Some perm
    /\ (GrantTablePermissions "files" "file_service" ["SELECT"; "INSERT"; "UPDATE"]
          (world_of empty_store [None; Some (errorString "permission denied")])).1
       = Some (Errorf_w ("failed to grant " +:+ perm +:+ " on " +:+ "files"
                         +:+ " to " +:+ "file_service")
                 (errorString "permission denied"))
    /\ events_since (world_of empty_store [None; Some (errorString "permission denied")])
         (GrantTablePermissions "files" "file_service" ["SELECT"; "INSERT"; "UPDATE"]
            (world_of empty_store [None; Some (errorString "permission denied")])).2
       = map (fun p => EvExec (GrantStmt p "files" "file_service"))
           (take 2 ["SELECT"; "INSERT"; "UPDATE"])
    /\ db (GrantTablePermissions "files" "file_service" ["SELECT"; "INSERT"; "UPDATE"]
             (world_of empty_store [None; Some (errorString "permission denied")])).2
       = granted "files" "file_service" (take 1 ["SELECT"; "INSERT"; "UPDATE"])
           (db (world_of empty_store [None; Some (errorString "permission denied")]))
    /\ forall p, In p (take 1 ["SELECT"; "INSERT"; "UPDATE"]) ->
         In (p, "files", "file_service")
            (grants
               (db (GrantTablePermissions "files" "file_service"
                      ["SELECT"; "INSERT"; "UPDATE"]
                      (world_of empty_store
                         [None; Some (errorString "permission denied")])).2)).
Proof.
  exact (GrantTablePermissions_stops_at_first_failure "files" "file_service"
           ["SELECT"; "INSERT"; "UPDATE"]
           (world_of empty_store [None; Some (errorString "permission denied")])).
Defined.

(** * Further properties of the migrator *)

(** X1.  When the transaction cannot be begun the callback is not run: the
    only driver call is [BeginTx], nothing is committed or rolled back,
    and the error returned wraps the driver's. *)
Theorem WithTransaction_begin_failure (fn : TxFunc) (w : World) (e : error)
    (fs : list (option error)) :
  faults w = Some e :: fs ->
  (WithTransaction fn w).1 = Return (Some (Errorf_w "failed to begin transaction" e))
  /\ events_since w (WithTransaction fn w).2 = [EvBegin]
  /\ db (WithTransaction fn w).2 = db w
  /\ open_tx (WithTransaction fn w).2 = open_tx w
  /\ faults (WithTransaction fn w).2 = fs.
Proof.
  intros Hf. unfold WithTransaction, db_BeginTx.
  rewrite (driver_call_cons _ _ _ _ Hf). simpl.
  repeat split; auto. by apply events_since_app.
Qed.

Lemma applyMigration_frame (m : Migration) (w : World) :
  exists added : list MigrationRecord,
    ledger_rows (db (applyMigration m w).2) = ledger_rows (db w) ++ added
    /\ access_state (db (applyMigration m w).2) = access_state (db w)
    /\ (is_Some (ledger (db w)) -> is_Some (ledger (db (applyMigration m w).2))).
Proof.
  pose proof (applyMigration_cases m w) as Hc.
  destruct (applyMigration m w) as [[[err|]|p] w1]; simpl; [| |done].
  - destruct Hc as (-> & _). exists []. by rewrite app_nil_r.
  - destruct Hc as (t & st1 & H1 & H2 & _). simpl in H1, H2.
    inversion H1; subst st1; clear H1. simpl in H2.
    unfold ledger_rows, access_state.
    destruct (ledger (db w)) as [rows|] eqn:El; [|discriminate].
    destruct (mem_string _ _); [discriminate|]. inversion H2. simpl.
    eexists. split; [reflexivity|]. split; eauto.
Qed.

Lemma apply_pending_frame (A : gmap string bool) (l : list Migration) (w : World) :
  exists added : list MigrationRecord,
    ledger_rows (db (apply_pending A l w).2) = ledger_rows (db w) ++ added
    /\ access_state (db (apply_pending A l w).2) = access_state (db w).
Proof.
  revert w. induction l as [|m l IH]; intros w; simpl.
  - exists []. by rewrite app_nil_r.
  - destruct (appliedMap_get A (Version m)); [apply IH|].
    destruct (applyMigration_frame m w) as (added & Hr & Ha & _).
    destruct (applyMigration m w) as [[[err|]|p] w1]; simpl in *; eauto.
    destruct (IH (Println (applied_line m) w1)) as (added' & Hr' & Ha').
    simpl in *. exists (added ++ added').
    rewrite Hr', Hr, Ha', Ha, <- app_assoc. auto.
Qed.

Lemma Apply_frame (ms : list Migration) (w : World) :
  exists added : list MigrationRecord,
    ledger_rows (db (Apply ms w).2) = ledger_rows (db w) ++ added
    /\ access_state (db (Apply ms w).2) = access_state (db w).
Proof.
  unfold Apply, ensureMigrationsTable.
  pose proof (db_ExecContext_db CreateLedgerTable w) as Hd.
  destruct (db_ExecContext CreateLedgerTable w) as [[err1|] w1]; simpl in *.
  { rewrite Hd. exists []. by rewrite app_nil_r. }
  assert (H1 : ledger_rows (db w1) = ledger_rows (db w)
               /\ access_state (db w1) = access_state (db w)).
  { unfold ledger_rows, access_state.
    destruct (ledger (db w)) eqn:El; inversion Hd; simpl; rewrite ?El; auto. }
  destruct H1 as [Hr1 Ha1].
  pose proof (GetAppliedMigrations_spec w1) as (Hd2 & _).
  destruct (GetAppliedMigrations w1) as [[recs [err2|]] w2]; simpl in *.
  { rewrite Hd2, Hr1, Ha1. exists []. by rewrite app_nil_r. }
  destruct (apply_pending_frame (make_appliedMap recs)
              (sort_Slice migration_less ms) w2) as (added & Hr & Ha).
  exists added. by rewrite Hr, Ha, Hd2, Hr1, Ha1.
Qed.

(** X2.  The ledger is append-only under [Apply]: for any input and any
    pending faults the rows that were in the ledger are still there,
    unchanged and in place, followed by the rows the run added. *)
Theorem Apply_ledger_append_only (ms : list Migration) (w : World) :
  exists added : list MigrationRecord,
    ledger_rows (db (Apply ms w).2) = ledger_rows (db w) ++ added.
Proof. destruct (Apply_frame ms w) as (added & Hr & _). eauto. Qed.

Lemma NoDup_app_fresh (l1 l2 : list string) :
  List.NoDup l1 ->
  List.NoDup l2 ->
  Forall (fun v => mem_string v l1 = false) l2 ->
  List.NoDup (l1 ++ l2).
Proof.
  intros H1 H2 Hf. induction l1 as [|x l1 IH]; simpl; auto.
  apply List.NoDup_cons_iff in H1 as [Hx H1].
  apply List.NoDup_cons_iff. split.
  - intros Hin. apply in_app_or in Hin as [Hin|Hin]; [done|].
    rewrite Forall_forall in Hf. apply list_elem_of_In, Hf in Hin.
    simpl in Hin. by rewrite String.eqb_refl in Hin.
  - apply IH; auto. eapply Forall_impl; [exact Hf|]. simpl.
    intros v Hv. by apply orb_false_iff in Hv as [_ ?].
Qed.

(** X3.  No run of [Apply] puts a version into the ledger twice: when the
    versions of the ledger are pairwise distinct before a run they are so
    after it, whatever the input and the pending faults. *)
Theorem Apply_keeps_versions_unique (ms : list Migration) (w : World) :
  List.NoDup (ledger_versions (db w)) ->
  List.NoDup (ledger_versions (db (Apply ms w).2)).
Proof.
  intros Hnd.
  destruct (Apply_run ms w)
    as (applied & pre & post & evs & _ & _ & _ & Hcom & Hfresh & Hpre & _).
  destruct Hcom as (_ & -> & _).
  apply NoDup_app_fresh; auto.
  apply Forall_forall. intros v Hv. apply list_elem_of_In in Hv.
  apply in_map_iff in Hv as (m & <- & Hm).
  rewrite Forall_forall in Hfresh. by apply Hfresh, list_elem_of_In.
Qed.

(** What a nil return of [Apply] tells, for any pending faults: the
    migrations committed are exactly those whose version was not in the
    ledger, in sorted order, and their versions are pairwise distinct. *)
Lemma Apply_ok_pending (ms : list Migration) (w : World) :
  (Apply ms w).1 = Return None ->
  List.NoDup (map Version
                (pending (ledger_versions (db w)) (sort_Slice migration_less ms)))
  /\ committed_after w (Apply ms w).2
       (pending (ledger_versions (db w)) (sort_Slice migration_less ms)).
Proof.
  intros Hok.
  destruct (Apply_run ms w)
    as (applied & pre & post & evs & Hin & Hpend & _ & Hcom & Hfresh & Hnd & Hres).
  rewrite Hok in Hres.
  destruct Hres as [(_ & -> & _)|[(m & post' & cause & _ & Hr & _)|
                                  (e & _ & _ & [Hr|[Hr|Hr]])]];
    try discriminate.
  rewrite app_nil_r in Hpend. subst pre.
  assert (Hsame : pending applied (sort_Slice migration_less ms)
                  = pending (ledger_versions (db w)) (sort_Slice migration_less ms)).
  { apply filter_ext_in. intros m Hm. f_equal.
    destruct (mem_string (Version m) applied) eqn:Em.
    - apply mem_string_In, Hin, mem_string_In in Em. by rewrite Em.
    - rewrite Forall_forall in Hfresh. symmetry. apply Hfresh.
      apply list_elem_of_In, filter_In. split; auto. by rewrite Em. }
  by rewrite <- Hsame.
Qed.

(** X4.  After a nil return of [Apply] every declared version is recorded in
    the ledger, whatever faults were pending. *)
Theorem Apply_ok_records_every_version (ms : list Migration) (w : World) :
  (Apply ms w).1 = Return None ->
  forall m, In m ms -> In (Version m) (ledger_versions (db (Apply ms w).2)).
Proof.
  intros Hok m Hm.
  destruct (Apply_ok_pending ms w Hok) as [_ (_ & -> & _)].
  apply in_or_app.
  destruct (mem_string (Version m) (ledger_versions (db w))) eqn:Em.
  - left. by apply mem_string_In.
  - right. apply in_map, filter_In. split; [|by rewrite Em].
    apply (Permutation_in m (Permutation_sym
                               (sort_Slice_Permutation migration_less ms)) Hm).
Qed.

(** X5.  Two declared migrations that share a version not yet in the ledger
    make every run fail: [Apply] returns nil only when the versions of
    the migrations that are not recorded are pairwise distinct. *)
Theorem Apply_ok_distinct_pending (ms : list Migration) (w : World) :
  (Apply ms w).1 = Return None ->
  List.NoDup (map Version (pending (ledger_versions (db w)) ms)).
Proof.
  intros Hok. destruct (Apply_ok_pending ms w Hok) as [Hnd _].
  eapply Permutation_NoDup; [|exact Hnd].
  apply Permutation_map, filter_Permutation_bool, sort_Slice_Permutation.
Qed.

(** X6.  A migration whose version is already recorded cannot be applied a
    second time: with no fault pending its body is sent, the ledger
    insert is refused, the transaction is rolled back and the store is
    as before. *)
Theorem applyMigration_recorded_version (m : Migration) (w : World) :
  quiet w ->
  In (Version m) (ledger_versions (db w)) ->
  (applyMigration m w).1
    = Return (Some (Errorf_w "failed to record migration"
                      (errorString "duplicate key value violates unique constraint")))
  /\ db (applyMigration m w).2 = db w
  /\ events_since w (applyMigration m w).2
     = [EvBegin; EvTxExec (RawSQL (SQL m));
        EvTxExec (InsertLedger (Version m) (Description m) (length (log w) + 2));
        EvRollback].
Proof.
  destruct w as [st n l fs o]. unfold quiet, ledger_versions. simpl.
  intros -> Hin.
  destruct (ledger st) as [rows|] eqn:El; [|done]. simpl in Hin.
  apply mem_string_In in Hin.
  unfold applyMigration, WithTransaction, db_BeginTx, driver_call. tx_simpl.
  rewrite El, Hin. tx_simpl.
  repeat split; auto.
  apply events_since_app. simpl.
  rewrite !length_app. simpl.
  replace (length l + 1 + 1) with (length l + 2) by lia.
  repeat rewrite <- app_assoc. reflexivity.
Qed.

(** X7.  With nothing declared [Apply] begins no transaction and changes
    neither the schema nor the ledger rows nor the output, whatever
    faults are pending; with none pending it returns nil and the ledger
    table exists afterwards. *)
Theorem Apply_nothing_declared (w : World) :
  tx_events (events_since w (Apply [] w).2) = []
  /\ schema (db (Apply [] w).2) = schema (db w)
  /\ ledger_rows (db (Apply [] w).2) = ledger_rows (db w)
  /\ output (Apply [] w).2 = output w
  /\ (quiet w ->
      (Apply [] w).1 = Return None /\ is_Some (ledger (db (Apply [] w).2))).
Proof.
  assert (Hgen : tx_events (events_since w (Apply [] w).2) = []
                 /\ schema (db (Apply [] w).2) = schema (db w)
                 /\ ledger_rows (db (Apply [] w).2) = ledger_rows (db w)
                 /\ output (Apply [] w).2 = output w).
  { unfold Apply.
    pose proof (ensureMigrationsTable_spec w) as (_ & Hp1 & Hl1 & Hs1 & _).
    pose proof (Apply_frame [] w) as (added & Hr & _). unfold Apply in Hr.
    unfold ensureMigrationsTable in *.
    pose proof (db_ExecContext_db CreateLedgerTable w) as Hd.
    destruct (db_ExecContext CreateLedgerTable w) as [[err1|] w1]; simpl in *.
    { rewrite (events_since_app _ _ _ Hl1), Hd. auto. }
    assert (Hr1 : ledger_rows (db w1) = ledger_rows (db w)).
    { unfold ledger_rows. destruct (ledger (db w)) eqn:El; inversion Hd; simpl;
        rewrite ?El; auto. }
    pose proof (GetAppliedMigrations_spec w1)
      as (Hd2 & _ & Hp2 & (evs2 & Hl2 & Hn2) & _).
    destruct (GetAppliedMigrations w1) as [[recs [err2|]] w2]; simpl in *;
      (rewrite (events_since_app w w2 ([EvExec CreateLedgerTable] ++ evs2));
       [|by rewrite Hl2, Hl1, <- app_assoc]);
      rewrite tx_events_app, Hn2, Hd2, Hs1, Hr1, Hp2, Hp1; auto. }
  destruct Hgen as (H1 & H2 & H3 & H4).
  do 4 (split; [done|]). intros Hq.
  destruct (Apply_quiet [] w Hq) as (evs & Hok & _); [constructor|].
  split; [done|]. by apply Apply_ok_has_ledger.
Qed.

(** X8.  With no fault pending [GetAppliedMigrations] returns every
    ledger record, each once, with a nil error; when the ledger table
    does not exist it returns no record and the error of the query,
    wrapped.  Either way the store is left as it is. *)
Theorem GetAppliedMigrations_complete (w : World) :
  quiet w ->
  match ledger (db w) with
  | Some rows =>
      exists recs : list MigrationRecord,
        (GetAppliedMigrations w).1 = (recs, None)
        /\ Permutation recs rows
  | None =>
      exists cause : error,
        (GetAppliedMigrations w).1
        = ([], Some (Errorf_w "failed to query migrations" cause))
  end
  /\ db (GetAppliedMigrations w).2 = db w.
Proof.
  intros Hq. split; [|by destruct (GetAppliedMigrations_spec w) as (? & _)].
  destruct (ledger (db w)) as [rows|] eqn:El.
  - destruct (GetAppliedMigrations_quiet w rows Hq El) as (evs & _ & ->).
    exists (sort_Slice record_less rows). simpl.
    split; [done|]. apply sort_Slice_Permutation.
  - unfold GetAppliedMigrations, db_QueryLedger.
    rewrite driver_call_quiet by done. simpl. rewrite El. eauto.
Qed.


(** * Further properties of the row-level-security manager *)

Lemma revoked_frame (tableName roleName : string) (perms : list string) (st : Store) :
  schema (revoked tableName roleName perms st) = schema st
  /\ ledger (revoked tableName roleName perms st) = ledger st
  /\ roles (revoked tableName roleName perms st) = roles st
  /\ row_security (revoked tableName roleName perms st) = row_security st
  /\ policies (revoked tableName roleName perms st) = policies st.
Proof.
  revert st. induction perms as [|p perms IH]; intros st; [done|].
  unfold revoked in *. simpl. by destruct (IH (set_grants
    (remove_grant (p, tableName, roleName) (grants st)) st)) as (-> & -> & -> & -> & ->).
Qed.

Lemma RevokeTablePermissions_faults (tableName roleName : string)
    (perms : list string) (w : World) :
  match first_fault (length perms) (faults w) with
  | None =>
      (RevokeTablePermissions tableName roleName perms w).1 = None
      /\ log (RevokeTablePermissions tableName roleName perms w).2
         = log w ++ map (fun p => EvExec (RevokeStmt p tableName roleName)) perms
      /\ db (RevokeTablePermissions tableName roleName perms w).2
         = revoked tableName roleName perms (db w)
  | Some (k, cause) =>
      exists perm : string,
        perms !! k = Some perm
        /\ (RevokeTablePermissions tableName roleName perms w).1
           = Some (Errorf_w ("failed to revoke " +:+ perm +:+ " on " +:+ tableName
                             +:+ " from " +:+ roleName) cause)
        /\ log (RevokeTablePermissions tableName roleName perms w).2
           = log w ++ map (fun p => EvExec (RevokeStmt p tableName roleName))
                        (take (S k) perms)
        /\ db (RevokeTablePermissions tableName roleName perms w).2
           = revoked tableName roleName (take k perms) (db w)
  end.
Proof.
  revert w. induction perms as [|perm perms IH]; intros w.
  - simpl. by rewrite app_nil_r.
  - cbn [RevokeTablePermissions length]. rewrite db_ExecContext_next.
    destruct (faults w) as [|[e|] fs] eqn:Hf; cbn [head tail mjoin first_fault].
    + simpl.
      match goal with
      | |- context [RevokeTablePermissions _ _ perms ?w1] => specialize (IH w1)
      end.
      simpl in IH. rewrite first_fault_nil in IH.
      destruct IH as (H1 & H2 & H3). rewrite H1, H2, H3, <- app_assoc. done.
    + simpl. exists perm. done.
    + simpl.
      match goal with
      | |- context [RevokeTablePermissions _ _ perms ?w1] => specialize (IH w1)
      end.
      simpl in IH.
      destruct (first_fault (length perms) fs) as [[k cause]|].
      * destruct IH as (p & H0 & H1 & H2 & H3). exists p.
        rewrite H1, H2, H3, <- app_assoc. done.
      * destruct IH as (H1 & H2 & H3). rewrite H1, H2, H3, <- app_assoc. done.
Qed.

(** X9.  [RevokeTablePermissions] sends one REVOKE per privilege, in the
    order of the list.  When none of these calls fails it returns nil
    after sending all of them.  Otherwise it stops at the first call
    that fails: that REVOKE is the last statement sent, and the error
    names its privilege, the table and the role and wraps the failure.
    The grants named by the statements that went through are no longer
    held; no grant is added, and nothing but the grants is touched. *)
Theorem RevokeTablePermissions_stops_at_first_failure
    (tableName roleName : string) (perms : list string) (w : World) :
  match first_fault (length perms) (faults w) with
  | None =>
      (RevokeTablePermissions tableName roleName perms w).1 = None
      /\ events_since w (RevokeTablePermissions tableName roleName perms w).2
         = map (fun p => EvExec (RevokeStmt p tableName roleName)) perms
      /\ forall p, In p perms ->
           ~ In (p, tableName, roleName)
               (grants (db (RevokeTablePermissions tableName roleName perms w).2))
  | Some (k, cause) =>
      exists perm : string,
        perms !! k = Some perm
        /\ (RevokeTablePermissions tableName roleName perms w).1
           = Some (Errorf_w ("failed to revoke " +:+ perm +:+ " on " +:+ tableName
                             +:+ " from " +:+ roleName) cause)
        /\ events_since w (RevokeTablePermissions tableName roleName perms w).2
           = map (fun p => EvExec (RevokeStmt p tableName roleName))
               (take (S k) perms)
        /\ forall p, In p (take k perms) ->
             ~ In (p, tableName, roleName)
                 (grants (db (RevokeTablePermissions tableName roleName perms w).2))
  end
  /\ (forall g,
        In g (grants (db (RevokeTablePermissions tableName roleName perms w).2)) ->
        In g (grants (db w)))
  /\ schema (db (RevokeTablePermissions tableName roleName perms w).2)
     = schema (db w)
  /\ ledger (db (RevokeTablePermissions tableName roleName perms w).2)
     = ledger (db w)
  /\ roles (db (RevokeTablePermissions tableName roleName perms w).2)
     = roles (db w)
  /\ row_security (db (RevokeTablePermissions tableName roleName perms w).2)
     = row_security (db w)
  /\ policies (db (RevokeTablePermissions tableName roleName perms w).2)
     = policies (db w).
Proof.
  pose proof (RevokeTablePermissions_faults tableName roleName perms w) as H.
  assert (Hdb : exists done,
             db (RevokeTablePermissions tableName roleName perms w).2
             = revoked tableName roleName done (db w)).
  { destruct (first_fault (length perms) (faults w)) as [[k cause]|].
    - destruct H as (perm & _ & _ & _ & H3). eauto.
    - destruct H as (_ & _ & H3). eauto. }
  split.
  - destruct (first_fault (length perms) (faults w)) as [[k cause]|].
    + destruct H as (perm & H0 & H1 & H2 & H3). exists perm.
      split; [done|]. split; [done|]. split; [by apply events_since_app|].
      intros p Hp. rewrite H3. intros Hin. apply In_revoked in Hin as [_ Hn].
      by apply (Hn p).
    + destruct H as (H1 & H2 & H3).
      split; [done|]. split; [by apply events_since_app|].
      intros p Hp. rewrite H3. intros Hin. apply In_revoked in Hin as [_ Hn].
      by apply (Hn p).
  - destruct Hdb as [done ->].
    split; [intros g Hg; by apply In_revoked in Hg as [? _]|].
    apply revoked_frame.
Qed.


Lemma stored_policy_eq (cfg : PolicyConfig) :
  mkPolicyConfig (Name cfg) (Table cfg) (Command cfg) (Role cfg) (Using cfg)
    (default "" (if String.eqb (WithCheck cfg) "" then None else Some (WithCheck cfg)))
  = cfg.
Proof.
  destruct cfg as [n t c r u wc]. simpl.
  destruct (String.eqb_spec wc "") as [->|_]; reflexivity.
Qed.

(** What one call of [CreatePolicy] does to the policies, for any
    pending faults: on nil the policy was not there and is appended as
    configured; on an error nothing changes. *)
Lemma CreatePolicy_effect (cfg : PolicyConfig) (w : World) :
  match (CreatePolicy cfg w).1 with
  | None =>
      existsb (same_policy (Name cfg) (Table cfg)) (policies (db w)) = false
      /\ db (CreatePolicy cfg w).2 = set_policies (policies (db w) ++ [cfg]) (db w)
  | Some _ => db (CreatePolicy cfg w).2 = db w
  end.
Proof.
  unfold CreatePolicy.
  pose proof (db_ExecContext_db (CreatePolicy_query cfg) w) as Hd.
  destruct (db_ExecContext (CreatePolicy_query cfg) w) as [[err|] w1]; simpl in *;
    [done|].
  destruct (existsb _ (policies (db w))); [discriminate|].
  inversion Hd. by rewrite stored_policy_eq.
Qed.

(** X11.  [CreatePolicy] is not idempotent: once it has returned nil, a second
    call for a policy of the same name on the same table never returns
    nil and leaves the policies as they are, whatever else the second
    configuration says.  The first call stored the policy with all six
    fields as configured. *)
Theorem CreatePolicy_not_idempotent (cfg cfg' : PolicyConfig) (w : World) :
  Name cfg' = Name cfg ->
  Table cfg' = Table cfg ->
  (CreatePolicy cfg w).1 = None ->
  policies (db (CreatePolicy cfg w).2) = policies (db w) ++ [cfg]
  /\ (CreatePolicy cfg' (CreatePolicy cfg w).2).1 <> None
  /\ db (CreatePolicy cfg' (CreatePolicy cfg w).2).2 = db (CreatePolicy cfg w).2.
Proof.
  intros Hn Ht Hok.
  pose proof (CreatePolicy_effect cfg w) as H1. rewrite Hok in H1.
  destruct H1 as [_ Hd1].
  pose proof (CreatePolicy_effect cfg' (CreatePolicy cfg w).2) as H2.
  split; [by rewrite Hd1|].
  destruct (CreatePolicy cfg' (CreatePolicy cfg w).2).1 as [err|]; [done|].
  exfalso. destruct H2 as [H2 _]. rewrite Hd1 in H2. simpl in H2.
  rewrite existsb_app in H2. apply orb_false_iff in H2 as [_ H2]. simpl in H2.
  unfold same_policy in H2. by rewrite Hn, Ht, !String.eqb_refl in H2.
Qed.



Lemma SetupServiceRLS_ok_state
    (serviceName tableName : string) (fullAccess : bool) (w : World) :
  (SetupServiceRLS serviceName tableName fullAccess w).1 = None ->
  (exists pre,
     policies (db (SetupServiceRLS serviceName tableName fullAccess w).2)
     = pre ++ [service_policy serviceName tableName fullAccess])
  /\ In tableName
       (row_security (db (SetupServiceRLS serviceName tableName fullAccess w).2)).
Proof.
  unfold SetupServiceRLS, EnableRLS.
  pose proof (db_ExecContext_db (EnableRowSecurity tableName) w) as Hd.
  destruct (db_ExecContext (EnableRowSecurity tableName) w) as [[err|] w1];
    simpl in *; [discriminate|].
  intros Hok.
  pose proof (CreatePolicy_effect
                (service_policy serviceName tableName fullAccess) w1) as H1.
  rewrite Hok in H1. destruct H1 as [_ ->]. simpl. split; [eauto|].
  inversion Hd. simpl. unfold add_if_absent.
  destruct (mem_string tableName (row_security (db w))) eqn:E.
  - by apply mem_string_In.
  - apply in_or_app. right. by left.
Qed.

Lemma SetupServiceRLS_on_existing
    (serviceName tableName : string) (fullAccess : bool) (w : World)
    (pre : list PolicyConfig) :
  policies (db w) = pre ++ [service_policy serviceName tableName fullAccess] ->
  In tableName (row_security (db w)) ->
  (SetupServiceRLS serviceName tableName fullAccess w).1 <> None
  /\ policies (db (SetupServiceRLS serviceName tableName fullAccess w).2)
     = policies (db w)
  /\ In tableName
       (row_security (db (SetupServiceRLS serviceName tableName fullAccess w).2)).
Proof.
  intros Hpol Hrs. unfold SetupServiceRLS, EnableRLS.
  pose proof (db_ExecContext_db (EnableRowSecurity tableName) w) as Hd.
  destruct (db_ExecContext (EnableRowSecurity tableName) w) as [[err|] w1];
    simpl in *.
  { rewrite Hd. split; [discriminate|]. auto. }
  assert (Hp1 : policies (db w1) = policies (db w)) by (by inversion Hd).
  assert (Hrs1 : In tableName (row_security (db w1))).
  { inversion Hd. simpl. by rewrite add_if_absent_present by by apply mem_string_In. }
  pose proof (CreatePolicy_effect
                (service_policy serviceName tableName fullAccess) w1) as H1.
  destruct (CreatePolicy (service_policy serviceName tableName fullAccess) w1)
    as [[err|] w2]; simpl in *.
  - rewrite H1. split; [discriminate|]. auto.
  - exfalso. destruct H1 as [H1 _]. rewrite Hp1, Hpol, existsb_app in H1.
    apply orb_false_iff in H1 as [_ H1]. simpl in H1.
    unfold same_policy in H1. by rewrite !String.eqb_refl in H1.
Qed.

(** X13.  [SetupServiceRLS] cannot be run twice with the same arguments: once
    it has returned nil, a second call never returns nil and adds no
    policy, whatever faults are pending; row security stays enabled on
    the table. *)
Theorem SetupServiceRLS_not_rerunnable
    (serviceName tableName : string) (fullAccess : bool) (w : World) :
  (SetupServiceRLS serviceName tableName fullAccess w).1 = None ->
  (SetupServiceRLS serviceName tableName fullAccess
     (SetupServiceRLS serviceName tableName fullAccess w).2).1 <> None
  /\ policies (db (SetupServiceRLS serviceName tableName fullAccess
                     (SetupServiceRLS serviceName tableName fullAccess w).2).2)
     = policies (db (SetupServiceRLS serviceName tableName fullAccess w).2)
  /\ In tableName
       (row_security (db (SetupServiceRLS serviceName tableName fullAccess
                            (SetupServiceRLS serviceName tableName fullAccess w).2).2)).
Proof.
  intros Hok.
  destruct (SetupServiceRLS_ok_state serviceName tableName fullAccess w Hok)
    as [[pre Hpol] Hrs].
  by apply (SetupServiceRLS_on_existing _ _ _ _ pre).
Qed.

(** X14.  [CreateServiceRole] for any pending faults: the only role it can
    change is the one of the folded name, which it creates and never
    alters; when it returns nil a role exists under the name as given or
    under the folded name; when it returns an error the store is as
    before. *)
Theorem CreateServiceRole_postcondition (roleName password : string) (w : World) :
  (forall other : string,
     other <> fold_identifier roleName ->
     roles (db (CreateServiceRole roleName password w).2) !! other
     = roles (db w) !! other)
  /\ (forall attrs : RoleAttrs,
        roles (db w) !! fold_identifier roleName = Some attrs ->
        roles (db (CreateServiceRole roleName password w).2)
          !! fold_identifier roleName = Some attrs)
  /\ ((CreateServiceRole roleName password w).1 = None ->
      is_Some (roles (db (CreateServiceRole roleName password w).2) !! roleName)
      \/ is_Some (roles (db (CreateServiceRole roleName password w).2)
                    !! fold_identifier roleName))
  /\ ((CreateServiceRole roleName password w).1 <> None ->
      db (CreateServiceRole roleName password w).2 = db w).
Proof.
  unfold CreateServiceRole, db_QueryRoleExists.
  pose proof (driver_call_frame (EvQuery (SelectRoleExists roleName)) w)
    as (Hd & _).
  destruct (driver_call (EvQuery (SelectRoleExists roleName)) w) as [f w1].
  simpl in *.
  destruct f as [e|]; simpl.
  { rewrite Hd. split; [done|]. split; [done|]. split; [discriminate|done]. }
  destruct (bool_decide (is_Some (roles (db w1) !! roleName))) eqn:Eb; simpl.
  { apply bool_decide_eq_true_1 in Eb. rewrite Hd in *.
    split; [done|]. split; [done|]. split; [by left|]. by intros []. }
  pose proof (db_ExecContext_db (CreateRole roleName password) w1) as Hd2.
  destruct (db_ExecContext (CreateRole roleName password) w1) as [[err|] w2];
    simpl in *.
  { rewrite Hd2, Hd. split; [done|]. split; [done|]. split; [discriminate|done]. }
  rewrite Hd in Hd2.
  destruct (roles (db w) !! fold_identifier roleName) eqn:Er; [discriminate|].
  inversion Hd2. simpl. split; [|split; [|split]].
  - intros other Hne. by rewrite lookup_insert_ne.
  - discriminate.
  - intros _. right. rewrite lookup_insert_eq. eauto.
  - by intros [].
Qed.

Lemma mem_remove_string (x y : string) (l : list string) :
  mem_string x (remove_string y l) = mem_string x l && negb (String.eqb y x).
Proof.
  unfold mem_string, remove_string.
  induction l as [|z l IH]; simpl; [done|].
  destruct (String.eqb_spec y z) as [->|Hne]; simpl.
  - rewrite IH. destruct (String.eqb_spec x z) as [->|Hxz]; simpl; [|done].
    rewrite String.eqb_refl. simpl. by rewrite andb_false_r.
  - rewrite IH. destruct (String.eqb_spec x z) as [->|Hxz]; simpl; [|done].
    destruct (String.eqb_spec y z); [done|]. done.
Qed.

Lemma remove_string_absent (x : string) (l : list string) :
  mem_string x l = false -> remove_string x l = l.
Proof.
  unfold mem_string, remove_string.
  induction l as [|z l IH]; simpl; [done|].
  intros H. apply orb_false_iff in H as [H1 H2]. rewrite H1. simpl.
  by rewrite IH.
Qed.

Lemma remove_string_app (x : string) (l l' : list string) :
  remove_string x (l ++ l') = remove_string x l ++ remove_string x l'.
Proof. apply List.filter_app. Qed.

Lemma mem_fold_add_if_absent (names l : list string) (x : string) :
  mem_string x (fold_left (fun acc a => add_if_absent a acc) names l)
  = mem_string x l || mem_string x names.
Proof.
  revert l. induction names as [|a names IH]; intros l; simpl.
  - by rewrite orb_false_r.
  - rewrite IH, mem_add_if_absent. by rewrite orb_assoc.
Qed.

Lemma fold_add_if_absent_present (names l : list string) :
  (forall a, In a names -> mem_string a l = true) ->
  fold_left (fun acc a => add_if_absent a acc) names l = l.
Proof.
  induction names as [|a names IH]; intros H; simpl; [done|].
  rewrite add_if_absent_present by (apply H; by left).
  apply IH. intros b Hb. apply H. by right.
Qed.





(** * Further properties of the orchestrator *)

Lemma exec_all_snoc (l : list Stmt) (s : Stmt) (st st1 st2 : Store) :
  exec_all l st = Some st1 ->
  exec_stmt s st1 = inr st2 ->
  exec_all (l ++ [s]) st = Some st2.
Proof.
  revert st. induction l as [|s' l IH]; intros st H1 H2; simpl in *.
  - inversion H1; subst. by rewrite H2.
  - destruct (exec_stmt s' st); [done|]. by apply IH.
Qed.

Lemma exec_all_app (l l' : list Stmt) (st : Store) :
  exec_all (l ++ l') st = exec_all l st ≫= exec_all l'.
Proof.
  revert st. induction l as [|s l IH]; intros st; simpl; [done|].
  destruct (exec_stmt s st); [done|]. apply IH.
Qed.

(** Follows a function through its statements, for any pending faults;
    [Hacc] says which statements went through so far. *)
Ltac run_leaf Hacc :=
  cbn [db Println fst snd] in Hacc |- *;
  refine (ex_intro _ _ (ex_intro _ _ (conj _ (conj Hacc _))));
  [reflexivity | intros Hs; first [discriminate Hs | reflexivity]].

Ltac run_steps Hacc :=
  lazymatch goal with
  | |- context [db_ExecContext ?s ?w0] =>
      let Hd := fresh "Hd" in
      pose proof (db_ExecContext_db s w0) as Hd;
      destruct (db_ExecContext s w0) as [[?|] ?];
      cbn [db Println fst snd] in Hd; simpl;
      [rewrite Hd; run_leaf Hacc
      | let Hn := fresh "Hacc" in
        pose proof (exec_all_snoc _ _ _ _ _ Hacc Hd) as Hn;
        cbn [app] in Hn; clear Hacc Hd; run_steps Hn]
  | |- _ => run_leaf Hacc
  end.

Lemma CreateServiceRoles_run (w : World) :
  exists done rest : list Stmt,
    roles_statements = done ++ rest
    /\ exec_all done (db w) = Some (db (CreateServiceRoles w).2)
    /\ ((CreateServiceRoles w).1 = None -> rest = []).
Proof.
  assert (Hacc : exec_all [] (db w)
                 = Some (db (Println "Creating service roles..." w)))
    by reflexivity.
  unfold CreateServiceRoles, grantPermissions, roles_statements. simpl.
  run_steps Hacc.
Qed.

Lemma AutoMigrate_run (w : World) :
  exists done rest : list Stmt,
    migrate_statements = done ++ rest
    /\ exec_all done (db w) = Some (db (AutoMigrate w).2)
    /\ ((AutoMigrate w).1 = None -> rest = []).
Proof.
  assert (Hacc : exec_all [] (db w)
                 = Some (db (Println "Running database migrations..." w)))
    by reflexivity.
  unfold AutoMigrate, addCustomConstraints, migrate_statements. simpl.
  run_steps Hacc.
Qed.

Lemma exec_all_invariant (P : Store -> Prop) (Q : Stmt -> Prop) :
  (forall s st st1, Q s -> P st -> exec_stmt s st = inr st1 -> P st1) ->
  forall (l : list Stmt) (st st1 : Store),
    Forall Q l -> P st -> exec_all l st = Some st1 -> P st1.
Proof.
  intros Hstep l. induction l as [|s l IH]; intros st st1 HQ HP He; simpl in He.
  - by inversion He; subst.
  - apply Forall_cons in HQ as [Hs HQ].
    destruct (exec_stmt s st) as [e|st'] eqn:E; [done|]. eauto.
Qed.

Lemma roles_statements_shape : Forall (fun s => is_roles_stmt s = true) roles_statements.
Proof. repeat constructor. Qed.

Lemma roles_stmt_frame (s : Stmt) (st st1 : Store) :
  is_roles_stmt s = true ->
  exec_stmt s st = inr st1 ->
  schema st1 = schema st /\ ledger st1 = ledger st
  /\ row_security st1 = row_security st /\ policies st1 = policies st.
Proof.
  destruct s; try discriminate; intros _ He; simpl in He.
  - repeat destruct (roles st !! _); inversion He; auto.
  - inversion He. auto.
Qed.

Lemma migrate_stmt_frame (s : Stmt) (st st1 : Store) :
  In s migrate_statements ->
  exec_stmt s st = inr st1 ->
  ledger st1 = ledger st /\ access_state st1 = access_state st.
Proof.
  unfold migrate_statements. simpl.
  intros [<-|[<-|[<-|[<-|[<-|[<-|[<-|[<-|[<-|[]]]]]]]]]] He;
    simpl in He; inversion He; auto.
Qed.

(** X16.  The two actions of the orchestrator keep to their own part of the
    database, whatever faults are pending: the migrate action changes
    neither the ledger nor roles, row security, policies or grants; the
    roles action changes neither the schema nor the ledger, row security
    or policies. *)
Theorem orchestrator_actions_are_separate (w : World) :
  (ledger (db (AutoMigrate w).2) = ledger (db w)
   /\ access_state (db (AutoMigrate w).2) = access_state (db w))
  /\ (schema (db (CreateServiceRoles w).2) = schema (db w)
      /\ ledger (db (CreateServiceRoles w).2) = ledger (db w)
      /\ row_security (db (CreateServiceRoles w).2) = row_security (db w)
      /\ policies (db (CreateServiceRoles w).2) = policies (db w)).
Proof.
  split.
  - destruct (AutoMigrate_run w) as (done & rest & Hs & He & _).
    apply (exec_all_invariant
             (fun st => ledger st = ledger (db w)
                        /\ access_state st = access_state (db w))
             (fun s => In s migrate_statements)) with (l := done) (st := db w);
      auto.
    + intros s st st1 Hin [H1 H2] Hex.
      destruct (migrate_stmt_frame s st st1 Hin Hex) as [H3 H4].
      by rewrite H3, H4.
    + apply Forall_forall. intros s Hin. apply list_elem_of_In in Hin.
      rewrite Hs. apply in_or_app. by left.
  - destruct (CreateServiceRoles_run w) as (done & rest & Hs & He & _).
    apply (exec_all_invariant
             (fun st => schema st = schema (db w) /\ ledger st = ledger (db w)
                        /\ row_security st = row_security (db w)
                        /\ policies st = policies (db w))
             (fun s => is_roles_stmt s = true)) with (l := done) (st := db w);
      auto.
    + intros s st st1 Hin (H1 & H2 & H3 & H4) Hex.
      destruct (roles_stmt_frame s st st1 Hin Hex) as (H5 & H6 & H7 & H8).
      by rewrite H5, H6, H7, H8.
    + pose proof roles_statements_shape as Hsh. rewrite Hs in Hsh.
      by apply Forall_app in Hsh as [? _].
Qed.

Lemma In_fold_add_grant (gs l : list (string * string * string))
    (g : string * string * string) :
  In g (fold_left (fun acc g => add_grant g acc) gs l) <-> In g l \/ In g gs.
Proof.
  revert l. induction gs as [|h gs IH]; intros l; simpl.
  - tauto.
  - rewrite IH, In_add_grant. split; intros H; [|destruct H as [H|[H|H]]]; auto.
    destruct H as [[H|H]|H]; auto.
Qed.

Lemma fold_add_grant_present (gs l : list (string * string * string)) :
  (forall g, In g gs -> In g l) ->
  fold_left (fun acc g => add_grant g acc) gs l = l.
Proof.
  induction gs as [|h gs IH]; intros H; simpl; [done|].
  unfold add_grant at 2.
  rewrite (proj2 (mem_grant_In h l)) by (apply H; by left).
  apply IH. intros g Hg. apply H. by right.
Qed.

Lemma established_after (s : Stmt) (st st1 : Store) :
  is_roles_stmt s = true ->
  exec_stmt s st = inr st1 ->
  established s st1.
Proof.
  destruct s; try discriminate; intros Hs He; simpl in *.
  - apply String.eqb_eq in Hs. rewrite Hs in He.
    destruct (roles st !! name) eqn:E; inversion He; subst; simpl.
    + rewrite E. eauto.
    + rewrite lookup_insert_eq. eauto.
  - inversion He. simpl. intros g Hg. apply In_fold_add_grant. by right.
Qed.

Lemma established_kept (s s' : Stmt) (st st1 : Store) :
  is_roles_stmt s = true ->
  is_roles_stmt s' = true ->
  established s st ->
  exec_stmt s' st = inr st1 ->
  established s st1.
Proof.
  intros Hs Hs' He Hex.
  destruct s; try discriminate; simpl in *.
  - destruct He as [attrs Ha]. exists attrs.
    by apply (exec_stmt_keeps_roles s' st st1).
  - intros g Hg. specialize (He g Hg).
    destruct s'; try discriminate; simpl in Hex.
    + repeat destruct (roles st !! _); inversion Hex; subst; simpl; auto.
    + inversion Hex. simpl. apply In_fold_add_grant. by left.
Qed.

Lemma set_grants_same (st : Store) : set_grants (grants st) st = st.
Proof. by destruct st. Qed.

Lemma established_noop (s : Stmt) (st : Store) :
  is_roles_stmt s = true ->
  established s st ->
  exec_stmt s st = inr st.
Proof.
  destruct s; try discriminate; intros _ He; simpl in *.
  - by destruct He as [attrs ->].
  - by rewrite fold_add_grant_present, set_grants_same.
Qed.

Lemma exec_all_established (l : list Stmt) (st st1 : Store) :
  Forall (fun s => is_roles_stmt s = true) l ->
  exec_all l st = Some st1 ->
  Forall (fun s => established s st1) l.
Proof.
  revert st. induction l as [|s l IH]; intros st Hsh He; [constructor|].
  apply Forall_cons in Hsh as [Hs Hsh]. simpl in He.
  destruct (exec_stmt s st) as [e|st'] eqn:E; [done|].
  constructor; [|by apply (IH st')].
  apply (exec_all_invariant (established s) (fun s' => is_roles_stmt s' = true))
    with (l := l) (st := st'); auto.
  - intros s' st0 st2 Hs' H0 Hex. by apply (established_kept s s' st0 st2).
  - by apply (established_after s st).
Qed.

Lemma exec_all_noop (l : list Stmt) (st : Store) :
  Forall (fun s => is_roles_stmt s = true) l ->
  Forall (fun s => established s st) l ->
  exec_all l st = Some st.
Proof.
  induction l as [|s l IH]; intros Hsh He; [done|].
  apply Forall_cons in Hsh as [Hs Hsh]. apply Forall_cons in He as [H1 He].
  simpl. rewrite (established_noop s st Hs H1). by apply IH.
Qed.

(** X18.  The roles action is idempotent as a whole: once [CreateServiceRoles]
    has returned nil, a later run on that database changes nothing,
    whether it succeeds or is cut short by a failure. *)
Theorem CreateServiceRoles_rerun_changes_nothing (w w' : World) :
  (CreateServiceRoles w).1 = None ->
  db w' = db (CreateServiceRoles w).2 ->
  db (CreateServiceRoles w').2 = db w'.
Proof.
  intros Hok Hdb.
  destruct (CreateServiceRoles_run w) as (done & rest & Hs & He & Hr).
  rewrite (Hr Hok), app_nil_r in Hs. subst done.
  apply exec_all_established in He; [|apply roles_statements_shape].
  rewrite <- Hdb in He.
  destruct (CreateServiceRoles_run w') as (done' & rest' & Hs' & He' & _).
  pose proof roles_statements_shape as Hsh.
  rewrite Hs' in He, Hsh.
  apply Forall_app in He as [He _]. apply Forall_app in Hsh as [Hsh _].
  rewrite (exec_all_noop done' (db w') Hsh He) in He'. by inversion He'.
Qed.

Lemma exec_all_grants (l : list Stmt) (st st1 : Store)
    (g : string * string * string) :
  Forall (fun s => is_roles_stmt s = true) l ->
  exec_all l st = Some st1 ->
  In g (grants st1) ->
  In g (grants st) \/ exists gs, In (GrantScript gs) l /\ In g gs.
Proof.
  revert st. induction l as [|s l IH]; intros st Hsh He Hin; simpl in He.
  - inversion He; subst. by left.
  - apply Forall_cons in Hsh as [Hs Hsh].
    destruct (exec_stmt s st) as [e|st'] eqn:E; [done|].
    destruct (IH st' Hsh He Hin) as [H|(gs & H1 & H2)].
    + destruct s as [| | | | | | | | | | | | | | | |gs]; try discriminate;
        simpl in E.
      * repeat destruct (roles st !! _); inversion E; subst; auto.
      * inversion E; subst; simpl in H. apply In_fold_add_grant in H as [H|H]; auto.
        right. exists gs. split; [by left|done].
    + right. exists gs. split; [by right|done].
Qed.

Lemma CreateServiceRoles_grants (w : World) (g : string * string * string) :
  In g (grants (db (CreateServiceRoles w).2)) ->
  In g (grants (db w)) \/ exists gs, In (GrantScript gs) roles_statements /\ In g gs.
Proof.
  intros Hin.
  destruct (CreateServiceRoles_run w) as (done & rest & Hs & He & _).
  pose proof roles_statements_shape as Hsh. rewrite Hs in Hsh.
  apply Forall_app in Hsh as [Hsh _].
  destruct (exec_all_grants done _ _ g Hsh He Hin) as [H|(gs & H1 & H2)]; auto.
  right. exists gs. split; [|done]. rewrite Hs. apply in_or_app. by left.
Qed.

(** X19.  Least privilege of the roles action, for any pending faults: a grant
    that [analytics_reader] holds after [CreateServiceRoles] and did not
    hold before is SELECT on users, files and folders; what it adds for
    [file_service] on the table users alone is SELECT; and it gives
    nothing to any role other than the three service roles. *)
Theorem CreateServiceRoles_least_privilege (w : World) (perm table role : string) :
  In (perm, table, role) (grants (db (CreateServiceRoles w).2)) ->
  ~ In (perm, table, role) (grants (db w)) ->
  (role = "user_service" \/ role = "file_service" \/ role = "analytics_reader")
  /\ (role = "analytics_reader" -> perm = "SELECT" /\ table = "users, files, folders")
  /\ (role = "file_service" -> table = "users" -> perm = "SELECT").
Proof.
  intros Hin Hnew.
  destruct (CreateServiceRoles_grants w _ Hin) as [H|(gs & H1 & H2)]; [done|].
  unfold roles_statements in H1. simpl in H1.
  destruct H1 as [H1|[H1|[H1|[H1|[H1|[H1|[]]]]]]]; inversion H1; subst gs;
    simpl in H2;
    repeat match goal with
           | H : _ \/ _ |- _ => destruct H as [H|H]
           | H : False |- _ => destruct H
           end;
    inversion H2; subst; (split; [auto|]); split; intros; try discriminate; auto.
Qed.

Lemma migrated_schema_eq (h : list string) :
  migrated_schema h
  = remove_string "trigger update_folders_updated_at"
      (remove_string "trigger update_files_updated_at"
         (remove_string "trigger update_users_updated_at"
            (fold_left (fun acc a => add_if_absent a acc)
               ["extension uuid-ossp"; "extension pgcrypto"; "table User";
                "table Folder"; "table File";
                "constraint users_email_format_check";
                "constraint folders_no_self_parent_check";
                "function update_updated_at_column"] h)))
    ++ ["trigger update_users_updated_at"; "trigger update_files_updated_at";
        "trigger update_folders_updated_at"].
Proof.
  unfold migrated_schema. cbn [fold_left].
  rewrite !remove_string_app. cbn. by rewrite <- !app_assoc.
Qed.

Lemma migrated_schema_idem (h : list string) :
  migrated_schema (migrated_schema h) = migrated_schema h.
Proof.
  rewrite !migrated_schema_eq.
  match goal with
  | |- context [fold_left ?f ?names h] => set (h1 := fold_left f names h)
  end.
  set (r := remove_string _ (remove_string _ (remove_string _ h1))).
  assert (Hmem : forall x, mem_string x r
                 = mem_string x h1
                   && negb (String.eqb "trigger update_users_updated_at" x)
                   && negb (String.eqb "trigger update_files_updated_at" x)
                   && negb (String.eqb "trigger update_folders_updated_at" x)).
  { intros x. unfold r. by rewrite !mem_remove_string. }
  rewrite fold_add_if_absent_present.
  2:{ intros a Ha. rewrite mem_string_app, Hmem. unfold h1.
      rewrite mem_fold_add_if_absent.
      simpl in Ha.
      repeat (destruct Ha as [<-|Ha]; [cbn; by rewrite ?orb_true_r|]).
      destruct Ha. }
  assert (H1 : remove_string "trigger update_users_updated_at" r = r)
    by (apply remove_string_absent; rewrite Hmem; cbn; by rewrite ?andb_false_r).
  assert (H2 : remove_string "trigger update_files_updated_at" r = r)
    by (apply remove_string_absent; rewrite Hmem; cbn; by rewrite ?andb_false_r).
  assert (H3 : remove_string "trigger update_folders_updated_at" r = r)
    by (apply remove_string_absent; rewrite Hmem; cbn; by rewrite ?andb_false_r).
  clearbody r. rewrite !remove_string_app, H1, H2, H3. cbn.
  by rewrite app_nil_r.
Qed.

Lemma exec_all_migrate_statements (st : Store) :
  exec_all migrate_statements st
  = Some (set_schema (migrated_schema (schema st)) st).
Proof. reflexivity. Qed.

(** Follows a chain of statements that the engine accepts, with no fault
    pending, to the world it ends in. *)
Ltac quiet_run Hq :=
  lazymatch goal with
  | |- context [db_ExecContext ?s ?w0] =>
      let H := fresh "H" in
      let Hq1 := fresh "Hq" in
      assert (H : (db_ExecContext s w0).1 = None /\ quiet (db_ExecContext s w0).2)
        by (eapply db_ExecContext_quiet_step; [exact Hq | reflexivity]);
      destruct (db_ExecContext s w0) as [? ?]; simpl in H;
      destruct H as [-> Hq1]; simpl; quiet_run Hq1
  | |- _ => split; [reflexivity | exact Hq]
  end.

Lemma AutoMigrate_quiet (w : World) :
  quiet w -> (AutoMigrate w).1 = None /\ quiet (AutoMigrate w).2.
Proof.
  intros Hq. unfold AutoMigrate, addCustomConstraints. simpl.
  assert (Hq0 : quiet (Println "Running database migrations..." w)) by exact Hq.
  clear Hq. quiet_run Hq0.
Qed.

Lemma AutoMigrate_ok_db (w : World) :
  (AutoMigrate w).1 = None ->
  db (AutoMigrate w).2 = set_schema (migrated_schema (schema (db w))) (db w).
Proof.
  intros Hok. destruct (AutoMigrate_run w) as (done & rest & Hs & He & Hr).
  rewrite (Hr Hok), app_nil_r in Hs. subst done.
  rewrite exec_all_migrate_statements in He. by inversion He.
Qed.

(** X20.  The migrate action is idempotent as a whole.  Whenever [AutoMigrate]
    returns nil, the schema history is the one of before with the guarded
    objects added when absent and the three triggers last; a second run
    that returns nil leaves the database exactly as the first one did;
    and with no fault pending both runs return nil. *)
Theorem AutoMigrate_twice (w : World) :
  ((AutoMigrate w).1 = None ->
   schema (db (AutoMigrate w).2) = migrated_schema (schema (db w))
   /\ ((AutoMigrate (AutoMigrate w).2).1 = None ->
       db (AutoMigrate (AutoMigrate w).2).2 = db (AutoMigrate w).2))
  /\ (quiet w ->
      (AutoMigrate w).1 = None /\ (AutoMigrate (AutoMigrate w).2).1 = None).
Proof.
  split.
  - intros H1. split; [by rewrite (AutoMigrate_ok_db _ H1)|]. intros H2.
    rewrite (AutoMigrate_ok_db _ H2), (AutoMigrate_ok_db _ H1).
    unfold set_schema. simpl. by rewrite migrated_schema_idem.
  - intros Hq. destruct (AutoMigrate_quiet w Hq) as [H1 Hq1].
    split; [done|]. by apply AutoMigrate_quiet.
Qed.

(** Follows the roles action through its calls; [Hf], [Hp] and [Hl] say
    which faults are left, that the calls so far went through, and what
    they sent. *)
Ltac roles_leaf Hl :=
  simpl; split; [reflexivity | apply events_since_app; exact Hl].

Ltac roles_steps w Eff Hf Hp Hl :=
  lazymatch goal with
  | |- context [db_ExecContext ?s ?w0] =>
      let H := fresh "H" in
      pose proof (db_ExecContext_in_sequence s w0 w _ _
                    (roles_stmt_accepted s eq_refl) Hf Hp Hl) as H;
      destruct (db_ExecContext s w0) as [[?|] ?]; cbn [fst snd] in H;
      [ let Hff := fresh "Hff" in
        let Hl' := fresh "Hl" in
        destruct H as [Hff Hl'];
        rewrite (Hff 6) in Eff by lia; subst; roles_leaf Hl'
      | let Hf' := fresh "Hf" in
        let Hp' := fresh "Hp" in
        let Hl' := fresh "Hl" in
        destruct H as (Hf' & Hp' & Hl'); cbn [app] in Hl';
        clear Hf Hp Hl; simpl; roles_steps w Eff Hf' Hp' Hl' ]
  | |- _ => rewrite Hp in Eff; subst; roles_leaf Hl
  end.


(** X17.  The roles action sends the statements of [roles_statements]
    in order: the three guarded role creations, then the three grant
    scripts.  It exits with status 0 exactly when none of these six
    calls fails, and then it has sent all six.  Otherwise the first call
    that fails is the last statement sent and the status is 1. *)
Theorem roles_action_sequence (w : World) :
  match first_fault 6 (faults w) with
  | None =>
      (main_roles w).1 = 0
      /\ events_since w (main_roles w).2 = map EvExec roles_statements
  | Some (k, cause) =>
      (main_roles w).1 = 1
      /\ events_since w (main_roles w).2
         = map EvExec (take (S k) roles_statements)
  end.
Proof.
  assert (Hf : faults (Println "Creating service roles..." w) = drop 0 (faults w))
    by reflexivity.
  assert (Hp : first_fault 0 (faults w) = None) by reflexivity.
  assert (Hl : log (Println "Creating service roles..." w)
               = log w ++ map EvExec []) by (simpl; by rewrite app_nil_r).
  remember (first_fault 6 (faults w)) as ff eqn:Eff.
  unfold main_roles, CreateServiceRoles, grantPermissions, roles_statements.
  simpl.
  roles_steps w Eff Hf Hp Hl.
Qed.

(** * The connection pool *)

Lemma calls_since_app (p p' : Pool) (cs : list PoolCall) :
  calls p' = calls p ++ cs -> calls_since p p' = cs.
Proof. intros H. unfold calls_since. by rewrite H, drop_app_length. Qed.

Lemma pool_call_frame (c : PoolCall) (p : Pool) :
  calls (pool_call c p).2 = calls p ++ [c]
  /\ pool_faults (pool_call c p).2 = tail (pool_faults p)
  /\ (pool_call c p).1 = mjoin (head (pool_faults p)).
Proof. unfold pool_call. destruct (pool_faults p); simpl; auto. Qed.

(** The pool settings that [NewConnection] applies. *)
Lemma with_defaults_idem (cfg : Config) :
  with_defaults (with_defaults cfg) = with_defaults cfg.
Proof.
  destruct cfg as [h po u pw d ssl mo mi lt it]. unfold with_defaults. simpl.
  f_equal.
  - destruct (String.eqb_spec ssl "") as [->|Hne]; [done|].
    by destruct (String.eqb_spec ssl "").
  - destruct (Z.eqb_spec mo 0); [done|]. by destruct (Z.eqb_spec mo 0).
  - destruct (Z.eqb_spec mi 0); [done|]. by destruct (Z.eqb_spec mi 0).
  - destruct (Z.eqb_spec lt 0); [done|]. by destruct (Z.eqb_spec lt 0).
  - destruct (Z.eqb_spec it 0); [done|]. by destruct (Z.eqb_spec it 0).
Qed.


(** X22.  The defaults of [NewConnection] are filled in once: connecting with
    the configuration kept in a connection makes the same calls and gives
    the same result as connecting with the original one.  A setting the
    caller gave, other than zero or the empty string, is used as it is;
    negative pool sizes are passed on without a check. *)
Theorem NewConnection_defaults_stable (cfg : Config) (p : Pool) :
  NewConnection (with_defaults cfg) p = NewConnection cfg p
  /\ (MaxOpenConns cfg <> 0%Z ->
      MaxOpenConns (with_defaults cfg) = MaxOpenConns cfg)
  /\ (MaxIdleConns cfg <> 0%Z ->
      MaxIdleConns (with_defaults cfg) = MaxIdleConns cfg)
  /\ (SSLMode cfg <> "" -> connStr (with_defaults cfg) = connStr cfg).
Proof.
  split; [unfold NewConnection; by rewrite with_defaults_idem|].
  unfold with_defaults, connStr. simpl.
  split; [|split]; intros H.
  - by destruct (Z.eqb_spec (MaxOpenConns cfg) 0).
  - by destruct (Z.eqb_spec (MaxIdleConns cfg) 0).
  - by destruct (String.eqb_spec (SSLMode cfg) "").
Qed.


(** X24.  A connection without a handle: [Close] has a nil guard and returns
    nil without a call, whereas [Ping] and [HealthCheck] have none and
    panic, also without a call.  With a handle [Close] makes one call and
    returns its error as it is. *)
Theorem Connection_nil_handle (c : Connection) (ctx : Context) (p : Pool) :
  (DB c = false ->
   Close c p = (None, p)
   /\ (exists v, Ping c ctx p = (Panic v, p))
   /\ (exists v, HealthCheck c ctx p = (Panic v, p)))
  /\ (DB c = true ->
      calls_since p (Close c p).2 = [DBClose]
      /\ (Close c p).1 = mjoin (head (pool_faults p))).
Proof.
  split; intros HDB.
  - unfold HealthCheck, Ping, Close. rewrite HDB. eauto.
  - unfold Close. rewrite HDB.
    destruct (pool_call_frame DBClose p) as (Hc & _ & Hr).
    split; [by apply calls_since_app|done].
Qed.

(** * Further sample runs *)

Lemma WithTransaction_begin_failure_witness :
  (WithTransaction (TxReturn None)
     (world_of empty_store [Some (errorString "connection refused")])).1
  = Return (Some (Errorf_w "failed to begin transaction"
                    (errorString "connection refused"))).
Proof.
  exact (proj1 (WithTransaction_begin_failure (TxReturn None)
                  (world_of empty_store [Some (errorString "connection refused")])
                  (errorString "connection refused") [] eq_refl)).
Defined.

Lemma Apply_keeps_versions_unique_witness :
  List.NoDup (ledger_versions (db (Apply sample_migrations failing_world).2)).
Proof.
  apply (Apply_keeps_versions_unique sample_migrations failing_world).
  simpl. constructor.
Defined.

Lemma Apply_ok_records_every_version_witness :
  In "003" (ledger_versions (db (Apply sample_migrations fresh_world).2)).
Proof.
  apply (Apply_ok_records_every_version sample_migrations fresh_world eq_refl
           (mkMigration "003" "index users" "CREATE INDEX idx_users_phone")).
  simpl. auto.
Defined.

Lemma Apply_ok_distinct_pending_witness :
  List.NoDup (map Version (pending (ledger_versions (db fresh_world))
                             sample_migrations)).
Proof.
  exact (Apply_ok_distinct_pending sample_migrations fresh_world eq_refl).
Defined.

Lemma applyMigration_recorded_version_witness :
  db (applyMigration (mkMigration "001" "create users" "CREATE TABLE users")
        (world_of (set_ledger (Some [mkMigrationRecord "001" 0 "create users"])
                     empty_store) [])).2
  = set_ledger (Some [mkMigrationRecord "001" 0 "create users"]) empty_store.
Proof.
  refine (proj1 (proj2 (applyMigration_recorded_version
                          (mkMigration "001" "create users" "CREATE TABLE users")
                          (world_of (set_ledger
                                       (Some [mkMigrationRecord "001" 0 "create users"])
                                       empty_store) [])
                          eq_refl _))).
  simpl. auto.
Defined.

Lemma Apply_nothing_declared_witness :
  (Apply [] fresh_world).1 = Return None
  /\ is_Some (ledger (db (Apply [] fresh_world).2)).
Proof.
  exact (proj2 (proj2 (proj2 (proj2 (Apply_nothing_declared fresh_world))))
           eq_refl).
Defined.

Lemma GetAppliedMigrations_complete_witness :
  db (GetAppliedMigrations
        (world_of (set_ledger (Some [mkMigrationRecord "002" 1 "phone";
                                     mkMigrationRecord "001" 0 "users"])
                     empty_store) [])).2
  = set_ledger (Some [mkMigrationRecord "002" 1 "phone";
                      mkMigrationRecord "001" 0 "users"]) empty_store.
Proof.
  exact (proj2 (GetAppliedMigrations_complete
                  (world_of (set_ledger (Some [mkMigrationRecord "002" 1 "phone";
                                               mkMigrationRecord "001" 0 "users"])
                               empty_store) [])
                  eq_refl)).
Defined.

Lemma CreatePolicy_not_idempotent_witness :
  (CreatePolicy (mkPolicyConfig "owner_only" "files" "ALL" "file_service" "false" "")
     (CreatePolicy
        (mkPolicyConfig "owner_only" "files" "SELECT" "file_service" "true" "")
        fresh_world).2).1 <> None.
Proof.
  exact (proj1 (proj2 (CreatePolicy_not_idempotent
                         (mkPolicyConfig "owner_only" "files" "SELECT"
                            "file_service" "true" "")
                         (mkPolicyConfig "owner_only" "files" "ALL"
                            "file_service" "false" "")
                         fresh_world eq_refl eq_refl eq_refl))).
Defined.


Lemma SetupServiceRLS_not_rerunnable_witness :
  (SetupServiceRLS "file_service" "files" true
     (SetupServiceRLS "file_service" "files" true fresh_world).2).1 <> None.
Proof.
  exact (proj1 (SetupServiceRLS_not_rerunnable "file_service" "files" true
                  fresh_world eq_refl)).
Defined.

Lemma CreateServiceRole_postcondition_witness :
  roles (db (CreateServiceRole "file_service" "secret" world_with_role).2)
    !! "user_service"
  = roles (db world_with_role) !! "user_service".
Proof.
  apply (proj1 (CreateServiceRole_postcondition "file_service" "secret"
                  world_with_role) "user_service").
  discriminate.
Defined.


Lemma CreateServiceRoles_rerun_changes_nothing_witness :
  db (CreateServiceRoles (CreateServiceRoles fresh_world).2).2
  = db (CreateServiceRoles fresh_world).2.
Proof.
  exact (CreateServiceRoles_rerun_changes_nothing fresh_world
           (CreateServiceRoles fresh_world).2 eq_refl eq_refl).
Defined.

Lemma CreateServiceRoles_least_privilege_witness :
  In ("SELECT", "users, files, folders", "analytics_reader")
     (grants (db (CreateServiceRoles fresh_world).2))
  /\ ("analytics_reader" = "user_service" \/ "analytics_reader" = "file_service"
      \/ "analytics_reader" = "analytics_reader").
Proof.
  assert (Hin : In ("SELECT", "users, files, folders", "analytics_reader")
                   (grants (db (CreateServiceRoles fresh_world).2)))
    by (vm_compute; tauto).
  split; [exact Hin|].
  refine (proj1 (CreateServiceRoles_least_privilege fresh_world
                   "SELECT" "users, files, folders" "analytics_reader" Hin _)).
  simpl. tauto.
Defined.

Lemma AutoMigrate_twice_witness :
  (AutoMigrate fresh_world).1 = None
  /\ (AutoMigrate (AutoMigrate fresh_world).2).1 = None.
Proof.
  exact (proj2 (AutoMigrate_twice fresh_world) eq_refl).
Defined.

Lemma roles_action_sequence_witness :
  (main_roles
     (world_of empty_store
        [None; None; None; None; Some (errorString "permission denied")])).1 = 1
  /\ events_since
       (world_of empty_store
          [None; None; None; None; Some (errorString "permission denied")])
       (main_roles
          (world_of empty_store
             [None; None; None; None; Some (errorString "permission denied")])).2
     = map EvExec (take 5 roles_statements).
Proof.
  exact (roles_action_sequence
           (world_of empty_store
              [None; None; None; None; Some (errorString "permission denied")])).
Defined.

Lemma NewConnection_defaults_stable_witness :
  MaxOpenConns
    (with_defaults
       (mkConfig "localhost" "5432" "postgres" "postgres" "postgres" "" 10 0 0 0))
  = 10%Z.
Proof.
  apply (proj1 (proj2 (NewConnection_defaults_stable
                         (mkConfig "localhost" "5432" "postgres" "postgres"
                            "postgres" "" 10 0 0 0)
                         (mkPool [] [])))).
  discriminate.
Defined.


Lemma Connection_nil_handle_witness :
  Close (mkConnection false
           (mkConfig "localhost" "5432" "postgres" "postgres" "postgres"
              "disable" 25 5 0 0))
    (mkPool [] [])
  = (None, mkPool [] []).
Proof.
  exact (proj1 (proj1 (Connection_nil_handle
                         (mkConnection false
                            (mkConfig "localhost" "5432" "postgres" "postgres"
                               "postgres" "disable" 25 5 0 0))
                         None (mkPool [] [])) eq_refl)).
Defined.
